(** * Event scheduler: topological sort, resource-constrained simulation,
      deadline analysis.

    Shallow embedding of [src/event_class.py] and [src/event_scheduler.py].

    - Python integers are [Z]; [str] values are [string] (byte strings in
      UTF-8, whose byte-wise lexicographic order is Python's code point
      order).
    - A [dict] iterated in insertion order is an association list whose keys
      are pairwise distinct; the registry [self.events] is the list of its
      events, keyed by [name].
    - [defaultdict(int)] and [defaultdict(list)] are total maps.
    - A [heapq] list is the sorted list of its elements: [heappush] is
      ordered insertion, [heappop] removes the head, [h[0]] is the head.
    - [raise] is the left injection of a sum; unbounded [while] loops take
      fuel and answer [None] when it runs out. *)

From Stdlib Require Import String Ascii.
From Stdlib Require Import List ZArith Bool Lia.
From Stdlib Require Import Permutation Sorted Relations.
Import ListNotations.

Local Open Scope string_scope.
Local Open Scope Z_scope.
Local Open Scope list_scope.

(** ** Exceptions *)

Inductive exn : Type :=
| ValueError (msg : string)
| KeyError (key : string).

Definition result (A : Type) : Type := (exn + A)%type.

Definition bind {E A B : Type} (m : E + A) (k : A -> E + B) : E + B :=
  match m with
  | inl e => inl e
  | inr a => k a
  end.

Notation "x <- m ;; k" := (bind m (fun x => k))
  (at level 61, m at next level, right associativity).
Notation "' p <- m ;; k" := (bind m (fun x => match x with p => k end))
  (at level 61, p pattern, m at next level, right associativity).

(** ** event_class.py *)

Record Event : Type := mkEvent {
  name : string;
  duration : Z;
  dependencies : list string;
  resources_required : Z;
  priority : Z;
  deadline : Z
}.

(** [deadline: int = -1  # -1 means no deadline] *)
Definition no_deadline : Z := -1.

(** ** Tuple orders and sorting *)

Section Sorting.
Variable A : Type.
Variable leb : A -> A -> bool.

Fixpoint insert_sorted (x : A) (l : list A) : list A :=
  match l with
  | [] => [x]
  | y :: l' => if leb x y then x :: y :: l' else y :: insert_sorted x l'
  end.

(** [sorted(l)] / [l.sort()]: a stable sort. *)
Definition sort (l : list A) : list A := fold_right insert_sorted [] l.

(** [heapq.heappush(h, x)] on the sorted-list model of a heap. *)
Definition heappush (h : list A) (x : A) : list A := insert_sorted x h.

(** [for x in items: heapq.heappush(h, x)] *)
Definition heappush_all (h : list A) (items : list A) : list A :=
  fold_left heappush items h.
End Sorting.

Arguments insert_sorted {A}.
Arguments sort {A}.
Arguments heappush {A}.
Arguments heappush_all {A}.

(** Python compares tuples lexicographically. *)
Definition key_leb (a b : Z * string) : bool :=
  let '(p1, n1) := a in
  let '(p2, n2) := b in
  (p1 <? p2)%Z || ((p1 =? p2)%Z && String.leb n1 n2).

Definition active_leb (a b : Z * string * Z) : bool :=
  let '(e1, n1, r1) := a in
  let '(e2, n2, r2) := b in
  (e1 <? e2)%Z ||
  ((e1 =? e2)%Z &&
   (String.ltb n1 n2 || (String.eqb n1 n2 && (r1 <=? r2)%Z))).

(** ** The registry [self.events] *)

Fixpoint events_find (evs : list Event) (n : string) : option Event :=
  match evs with
  | [] => None
  | e :: evs' => if String.eqb (name e) n then Some e else events_find evs' n
  end.

(** [name in self.events] *)
Definition events_mem (evs : list Event) (n : string) : bool :=
  match events_find evs n with
  | Some _ => true
  | None => false
  end.

(** [self.events[name]] *)
Definition events_get (evs : list Event) (n : string) : result Event :=
  match events_find evs n with
  | Some e => inr e
  | None => inl (KeyError n)
  end.

(** [self.events[event.name] = event]: an existing key keeps its place. *)
Fixpoint add_event (evs : list Event) (e : Event) : list Event :=
  match evs with
  | [] => [e]
  | e' :: evs' =>
      if String.eqb (name e') (name e) then e :: evs' else e' :: add_event evs' e
  end.

(** ** Dictionaries keyed by names *)

Section Dict.
Variable V : Type.

Fixpoint dict_find (d : list (string * V)) (k : string) : option V :=
  match d with
  | [] => None
  | (k', v) :: d' => if String.eqb k' k then Some v else dict_find d' k
  end.

(** [d[k] = v] *)
Fixpoint dict_set (d : list (string * V)) (k : string) (v : V)
  : list (string * V) :=
  match d with
  | [] => [(k, v)]
  | (k', v') :: d' =>
      if String.eqb k' k then (k, v) :: d' else (k', v') :: dict_set d' k v
  end.
End Dict.

Arguments dict_find {V}.
Arguments dict_set {V}.

(** Total maps for the two [defaultdict]s. *)
Definition tm_update {V : Type} (m : string -> V) (k : string) (v : V)
  : string -> V :=
  fun k' => if String.eqb k k' then v else m k'.

(** ** topological_sort *)

Definition unknown_dependency_msg (event_name dependency : string) : string :=
  ("Event '" ++ event_name ++ "' depends on unknown event '" ++ dependency ++ "'")%string.

Definition cycle_msg : string := "Cycle detected in task dependencies!".

Record Graph : Type := mkGraph {
  in_degree : string -> Z;
  adj_list : string -> list string
}.

Definition empty_graph : Graph :=
  {| in_degree := fun _ => 0; adj_list := fun _ => [] |}.

(** The inner [for dependency in event.dependencies] loop. *)
Fixpoint add_edges (evs : list Event) (event_name : string)
    (deps : list string) (g : Graph) : result Graph :=
  match deps with
  | [] => inr g
  | dependency :: deps' =>
      if events_mem evs dependency then
        add_edges evs event_name deps'
          {| in_degree :=
               tm_update (in_degree g) event_name (in_degree g event_name + 1);
             adj_list :=
               tm_update (adj_list g) dependency
                 (adj_list g dependency ++ [event_name]) |}
      else inl (ValueError (unknown_dependency_msg event_name dependency))
  end.

(** The outer [for event_name, event in self.events.items()] loop. *)
Fixpoint build_graph (evs : list Event) (todo : list Event) (g : Graph)
  : result Graph :=
  match todo with
  | [] => inr g
  | e :: todo' =>
      g' <- add_edges evs (name e) (dependencies e) g ;;
      build_graph evs todo' g'
  end.

(** [[(self.events[n].priority, n) for n in l]] *)
Fixpoint keyed (evs : list Event) (l : list string) : result (list (Z * string)) :=
  match l with
  | [] => inr []
  | n :: l' =>
      e <- events_get evs n ;;
      ks <- keyed evs l' ;;
      inr ((priority e, n) :: ks)
  end.

(** [sorted(l, key=lambda n: (self.events[n].priority, n))] *)
Definition sorted_by_key (evs : list Event) (l : list string)
  : result (list string) :=
  ks <- keyed evs l ;;
  inr (map snd (sort key_leb ks)).

(** [for neighbor in adj_list[current]] *)
Fixpoint visit_neighbors (neighbors : list string) (deg : string -> Z)
    (newly_ready : list string) : (string -> Z) * list string :=
  match neighbors with
  | [] => (deg, newly_ready)
  | neighbor :: rest =>
      let deg' := tm_update deg neighbor (deg neighbor - 1) in
      if (deg' neighbor =? 0)%Z
      then visit_neighbors rest deg' (newly_ready ++ [neighbor])
      else visit_neighbors rest deg' newly_ready
  end.

(** [for current in current_level] *)
Fixpoint process_level (adj : string -> list string) (level : list string)
    (deg : string -> Z) (sorted_order newly_ready : list string)
  : (string -> Z) * list string * list string :=
  match level with
  | [] => (deg, sorted_order, newly_ready)
  | current :: rest =>
      let '(deg', newly_ready') :=
        visit_neighbors (adj current) deg newly_ready in
      process_level adj rest deg' (sorted_order ++ [current]) newly_ready'
  end.

(** One pass through the body of the [while ready_heap] loop: the batch
    [current_level], then the updated [in_degree], [sorted_order] and
    [ready_heap]. *)
Definition topo_round (evs : list Event) (adj : string -> list string)
    (deg : string -> Z) (ready_heap : list (Z * string))
    (sorted_order : list string)
  : result (list string * (string -> Z) * list string * list (Z * string)) :=
  current_level <- sorted_by_key evs (map snd ready_heap) ;;
  let '(deg', sorted_order', newly_ready) :=
    process_level adj current_level deg sorted_order [] in
  newly_sorted <- sorted_by_key evs newly_ready ;;
  pushed <- keyed evs newly_sorted ;;
  inr (current_level, deg', sorted_order', heappush_all key_leb [] pushed).

(** The [while ready_heap] loop.  [batches] is a trace of the successive
    values of [current_level]; the source does not keep it. *)
Fixpoint topo_loop (fuel : nat) (evs : list Event) (adj : string -> list string)
    (deg : string -> Z) (ready_heap : list (Z * string))
    (sorted_order : list string) (batches : list (list string))
  : option (result (list string * list (list string))) :=
  match ready_heap with
  | [] => Some (inr (sorted_order, batches))
  | _ :: _ =>
      match fuel with
      | O => None
      | S fuel' =>
          match topo_round evs adj deg ready_heap sorted_order with
          | inl e => Some (inl e)
          | inr (current_level, deg', sorted_order', ready_heap') =>
              topo_loop fuel' evs adj deg' ready_heap' sorted_order'
                (batches ++ [current_level])
          end
      end
  end.

(** Everything up to the final length check: [sorted_order] and the trace
    of batches. *)
Definition topo_run (fuel : nat) (evs : list Event)
  : option (result (list string * list (list string))) :=
  match build_graph evs evs empty_graph with
  | inl e => Some (inl e)
  | inr g =>
      (* [self.events[name]] is the event stored under [name] *)
      let ready_nodes :=
        map (fun e => (priority e, name e))
            (filter (fun e => (in_degree g (name e) =? 0)%Z) evs) in
      let ready_heap := heappush_all key_leb [] (sort key_leb ready_nodes) in
      topo_loop fuel evs (adj_list g) (in_degree g) ready_heap [] []
  end.

Definition topological_sort (fuel : nat) (evs : list Event)
  : option (result (list string)) :=
  match topo_run fuel evs with
  | None => None
  | Some (inl e) => Some (inl e)
  | Some (inr (sorted_order, _)) =>
      if Nat.eqb (length sorted_order) (length evs)
      then Some (inr sorted_order)
      else Some (inl (ValueError cycle_msg))
  end.

(** ** schedule_events *)

Definition Schedule : Type := list (string * (Z * Z)).

Record EventScheduler : Type := mkScheduler {
  total_resources : Z;
  events : list Event;
  schedule : Schedule
}.

Definition set_schedule (s : EventScheduler) (sch : Schedule) : EventScheduler :=
  {| total_resources := total_resources s;
     events := events s;
     schedule := sch |}.

(** Local variables of [schedule_events], with [self.schedule]. *)
Record Sim : Type := mkSim {
  sim_schedule : Schedule;
  scheduled : list string;
  ready_queue : list (Z * string);
  waiting : list (string * list string);
  current_time : Z;
  active_resources : Z;
  active_events : list (Z * string * Z)
}.

(** An exception leaves [self.schedule] as it was when it was raised. *)
Definition sim_result (A : Type) : Type := ((exn * Schedule) + A)%type.

Definition lift_at {A : Type} (sch : Schedule) (r : result A) : sim_result A :=
  match r with
  | inl e => inl (e, sch)
  | inr a => inr a
  end.

(** [set(event.dependencies)] *)
Definition to_set (l : list string) : list string := nodup string_dec l.

Definition set_mem (x : string) (s : list string) : bool :=
  existsb (String.eqb x) s.

Definition set_remove (x : string) (s : list string) : list string :=
  remove string_dec x s.

(** The [for event_name in sorted_events] loop that fills [ready_queue] and
    [waiting]. *)
Fixpoint init_queues (evs : list Event) (sorted_events : list string)
    (ready : list (Z * string)) (wait : list (string * list string))
  : result (list (Z * string) * list (string * list string)) :=
  match sorted_events with
  | [] => inr (ready, wait)
  | event_name :: rest =>
      event <- events_get evs event_name ;;
      match dependencies event with
      | [] =>
          init_queues evs rest
            (heappush key_leb ready (priority event, event_name)) wait
      | _ :: _ =>
          init_queues evs rest ready
            (dict_set wait event_name (to_set (dependencies event)))
      end
  end.

(** [for event_name in list(waiting.keys())] after [completed_name]
    finished. *)
Fixpoint release (evs : list Event) (completed_name : string)
    (wait : list (string * list string)) (ready : list (Z * string))
  : result (list (string * list string) * list (Z * string)) :=
  match wait with
  | [] => inr ([], ready)
  | (event_name, deps) :: wait' =>
      if set_mem completed_name deps then
        match set_remove completed_name deps with
        | [] =>
            event <- events_get evs event_name ;;
            release evs completed_name wait'
              (heappush key_leb ready (priority event, event_name))
        | d :: deps' =>
            '(wait'', ready') <- release evs completed_name wait' ready ;;
            inr ((event_name, d :: deps') :: wait'', ready')
        end
      else
        '(wait'', ready') <- release evs completed_name wait' ready ;;
        inr ((event_name, deps) :: wait'', ready')
  end.

(** [while active_events and active_events[0][0] == current_time].  The
    set [scheduled] is only ever added to; it is kept as the list of the
    completed names in completion order. *)
Fixpoint complete (evs : list Event) (now : Z) (active : list (Z * string * Z))
    (active_res : Z) (done : list string)
    (wait : list (string * list string)) (ready : list (Z * string))
  : result (list (Z * string * Z) * Z * list string *
            list (string * list string) * list (Z * string)) :=
  match active with
  | [] => inr ([], active_res, done, wait, ready)
  | (end_time, completed_name, resources_used) :: active' =>
      if (end_time =? now)%Z then
        '(wait', ready') <- release evs completed_name wait ready ;;
        complete evs now active' (active_res - resources_used)
          (done ++ [completed_name]) wait' ready'
      else inr (active, active_res, done, wait, ready)
  end.

(** [[self.schedule[dep][1] for dep in event.dependencies]] *)
Fixpoint dep_end_times (sch : Schedule) (deps : list string) : result (list Z) :=
  match deps with
  | [] => inr []
  | dep :: deps' =>
      match dict_find sch dep with
      | None => inl (KeyError dep)
      | Some (_, e) => es <- dep_end_times sch deps' ;; inr (e :: es)
      end
  end.

(** [max(xs)] for a list with head [x]. *)
Definition list_max (x : Z) (xs : list Z) : Z := fold_left Z.max xs x.

(** [start_time = current_time], raised to [max(dep_end_times)] when the
    event has dependencies, that is when [ends] is not empty. *)
Definition start_time_of (now : Z) (ends : list Z) : Z :=
  match ends with
  | [] => now
  | e :: es => Z.max now (list_max e es)
  end.

(** [while ready_queue]: the body pushes nothing back onto [ready_queue], so
    the loop pops its elements in order. *)
Fixpoint admission (evs : list Event) (total now : Z) (ready : list (Z * string))
    (sch : Schedule) (active_res : Z) (active : list (Z * string * Z))
    (temp_queue : list (Z * string)) (scheduled_this_round : bool)
  : sim_result (Schedule * Z * list (Z * string * Z) *
                list (Z * string) * bool) :=
  match ready with
  | [] => inr (sch, active_res, active, temp_queue, scheduled_this_round)
  | (prio, event_name) :: ready' =>
      event <- lift_at sch (events_get evs event_name) ;;
      if (active_res + resources_required event <=? total)%Z then
        ends <- lift_at sch (dep_end_times sch (dependencies event)) ;;
        let start_time := start_time_of now ends in
        let end_time := start_time + duration event in
        admission evs total now ready'
          (dict_set sch event_name (start_time, end_time))
          (active_res + resources_required event)
          (heappush active_leb active
             (end_time, event_name, resources_required event))
          temp_queue true
      else
        admission evs total now ready' sch active_res active
          (temp_queue ++ [(prio, event_name)]) scheduled_this_round
  end.

(** One pass through the body of the main [while] loop; the flag tells
    whether the pass ended in [break]. *)
Definition sim_step (evs : list Event) (total : Z) (s : Sim)
  : sim_result (bool * Sim) :=
  '(active, active_res, done, wait, ready) <-
     lift_at (sim_schedule s)
       (complete evs (current_time s) (active_events s) (active_resources s)
          (scheduled s) (waiting s) (ready_queue s)) ;;
  '(sch, active_res', active', temp_queue, scheduled_this_round) <-
     admission evs total (current_time s) ready (sim_schedule s) active_res active
       [] false ;;
  let ready' := heappush_all key_leb [] temp_queue in
  match active' with
  | (end_time, _, _) :: _ =>
      inr (false, mkSim sch done ready' wait end_time active_res' active')
  | [] =>
      let s' := mkSim sch done ready' wait (current_time s) active_res' active'
      in
      match ready' with
      | _ :: _ => inr (negb scheduled_this_round, s')
      | [] => inr (false, s')
      end
  end.

(** [while ready_queue or active_events or waiting] *)
Definition sim_running (s : Sim) : bool :=
  match ready_queue s, active_events s, waiting s with
  | [], [], [] => false
  | _, _, _ => true
  end.

Fixpoint sim_loop (fuel : nat) (evs : list Event) (total : Z) (s : Sim)
  : option (sim_result Schedule) :=
  if sim_running s then
    match fuel with
    | O => None
    | S fuel' =>
        match sim_step evs total s with
        | inl err => Some (inl err)
        | inr (true, s') => Some (inr (sim_schedule s'))
        | inr (false, s') => sim_loop fuel' evs total s'
        end
    end
  else Some (inr (sim_schedule s)).

Definition schedule_events (fuel : nat) (s : EventScheduler)
  : option (EventScheduler * result Schedule) :=
  let s0 := set_schedule s [] in
  match topological_sort fuel (events s) with
  | None => None
  | Some (inl e) => Some (s0, inl e)
  | Some (inr sorted_events) =>
      match init_queues (events s) sorted_events [] [] with
      | inl e => Some (s0, inl e)
      | inr (ready, wait) =>
          match sim_loop fuel (events s) (total_resources s)
                  (mkSim [] [] ready wait 0 0 []) with
          | None => None
          | Some (inl (e, sch)) => Some (set_schedule s sch, inl e)
          | Some (inr sch) => Some (set_schedule s sch, inr sch)
          end
      end
  end.

(** ** check_deadlines *)

Fixpoint check_deadlines_loop (evs : list Event) (sch : Schedule)
    (missed : list (string * Z * Z)) : result (list (string * Z * Z)) :=
  match sch with
  | [] => inr missed
  | (event_name, (_, end_time)) :: sch' =>
      event <- events_get evs event_name ;;
      if ((deadline event >? 0)%Z && (end_time >? deadline event)%Z)%bool
      then check_deadlines_loop evs sch'
             (missed ++ [(event_name, deadline event, end_time)])
      else check_deadlines_loop evs sch' missed
  end.

Definition check_deadlines (s : EventScheduler) : result (list (string * Z * Z)) :=
  check_deadlines_loop (events s) (schedule s) [].

(** ** The scenario of the specification *)

Definition task_A : Event := mkEvent "A" 3 [] 1 1 no_deadline.
Definition task_B : Event := mkEvent "B" 2 [] 2 2 no_deadline.
Definition task_C : Event := mkEvent "C" 1 ["A"] 1 1 no_deadline.

Definition scenario : EventScheduler :=
  mkScheduler 2 (add_event (add_event (add_event [] task_A) task_B) task_C) [].

(** ** Vocabulary of the specification *)

Definition names (evs : list Event) : list string := map name evs.

(** Keys of a [dict] are pairwise distinct. *)
Definition registry_wf (evs : list Event) : Prop := NoDup (names evs).

Definition deps_of (evs : list Event) (x : string) : list string :=
  match events_find evs x with
  | Some e => dependencies e
  | None => []
  end.

Definition priority_of (evs : list Event) (x : string) : Z :=
  match events_find evs x with
  | Some e => priority e
  | None => 0
  end.

(** [depends_on evs b a]: the registered task [b] lists [a] as a
    dependency. *)
Definition depends_on (evs : list Event) (b a : string) : Prop :=
  In b (names evs) /\ In a (deps_of evs b).

(** Every dependency name resolves to a registered task. *)
Definition deps_resolved (evs : list Event) : Prop :=
  forall b a, depends_on evs b a -> In a (names evs).

Definition deps_resolvedb (evs : list Event) : bool :=
  forallb (fun e => forallb (events_mem evs) (dependencies e)) evs.

Definition acyclic (evs : list Event) : Prop :=
  forall x, ~ clos_trans string (depends_on evs) x x.

(** Each task of [order] comes after all of its dependencies. *)
Definition deps_before (evs : list Event) (order : list string) : Prop :=
  forall l1 x l2 d,
    order = l1 ++ x :: l2 -> In d (deps_of evs x) -> In d l1.

(** Strict [(priority, name)] order on task names. *)
Definition task_lt (evs : list Event) (x y : string) : Prop :=
  (priority_of evs x < priority_of evs y)%Z \/
  (priority_of evs x = priority_of evs y /\ String.ltb x y = true).

(** The batches, read off the dependency relation alone.  [x] is in one
    of the first [k + 1] batches when it is registered and each of its
    dependencies is in one of the first [k]; no task is in the first 0
    batches. *)
Fixpoint emitted_before (evs : list Event) (k : nat) (x : string) : bool :=
  match k with
  | O => false
  | S k' =>
      andb (events_mem evs x)
           (forallb (emitted_before evs k') (deps_of evs x))
  end.

(** [x] becomes ready in batch [k]: it is in one of the first [k + 1]
    batches and in none of the first [k].  Batch 0 holds the registered
    tasks without dependencies, batch [k + 1] the tasks whose last
    dependency is in batch [k]. *)
Definition ready_in_batch (evs : list Event) (x : string) (k : nat) : Prop :=
  emitted_before evs (S k) x = true /\ emitted_before evs k x = false.

Definition ready_in_batchb (evs : list Event) (x : string) (k : nat) : bool :=
  andb (emitted_before evs (S k) x) (negb (emitted_before evs k x)).

(** What the loop of [topological_sort] knows of the batches: after
    [length batches] passes [sorted_order] holds the tasks of the first
    [length batches] batches, and each pass emitted its batch. *)
Definition rounds_inv (evs : list Event) (sorted_order : list string)
    (batches : list (list string)) : Prop :=
  (forall x, In x sorted_order <->
             emitted_before evs (length batches) x = true) /\
  (forall j x, (j < length batches)%nat ->
               (In x (nth j batches []) <-> ready_in_batch evs x j)).

(** Number of dependencies of [x] (with multiplicity) outside [done]. *)
Definition pending (evs : list Event) (done : list string) (x : string) : Z :=
  Z.of_nat
    (length (filter (fun d => negb (set_mem d done)) (deps_of evs x))).

(** Invariant of the [while ready_heap] loop of [topological_sort]. *)
Record topo_inv (evs : list Event) (deg : string -> Z)
    (ready_heap : list (Z * string)) (sorted_order : list string)
    (batches : list (list string)) : Prop := {
  ti_deg : forall x, deg x = pending evs sorted_order x;
  ti_nodup : NoDup (sorted_order ++ map snd ready_heap);
  ti_zero : forall x,
      In x (sorted_order ++ map snd ready_heap) <->
      (In x (names evs) /\ deg x = 0%Z);
  ti_before : deps_before evs sorted_order;
  ti_concat : sorted_order = concat batches;
  ti_batches : Forall (StronglySorted (task_lt evs)) batches
}.

(** [resources_required] of a task, by name. *)
Definition res_of (evs : list Event) (x : string) : Z :=
  match events_find evs x with
  | Some e => resources_required e
  | None => 0
  end.

(** Sum of [resources_required] over the tasks of the schedule whose
    interval satisfies [start <= t < end]. *)
Fixpoint usage (evs : list Event) (sch : Schedule) (t : Z) : Z :=
  match sch with
  | [] => 0
  | (n, (start, end_time)) :: sch' =>
      (if ((start <=? t)%Z && (t <? end_time)%Z)%bool then res_of evs n else 0)
      + usage evs sch' t
  end.

(** Sum of [resources_required] over the scheduled tasks named in [an]. *)
Fixpoint active_sum (evs : list Event) (sch : Schedule) (an : list string) : Z :=
  match sch with
  | [] => 0
  | (n, _) :: sch' =>
      (if set_mem n an then res_of evs n else 0) + active_sum evs sch' an
  end.

Definition end_of (a : Z * string * Z) : Z := fst (fst a).

Definition act_names (active : list (Z * string * Z)) : list string :=
  map (fun a => snd (fst a)) active.

(** Every task has a non-negative duration and resource requirement. *)
Definition tasks_nonneg (evs : list Event) : Prop :=
  forall e, In e evs -> (0 <= duration e /\ 0 <= resources_required e)%Z.

Definition tasks_nonnegb (evs : list Event) : bool :=
  forallb (fun e => (0 <=? duration e)%Z && (0 <=? resources_required e)%Z) evs.

(** Invariant of the simulation on the tasks: [done] have completed, the
    tasks of [active] are running, [rn] are ready, [wait] are waiting. *)
Record struct_inv (evs : list Event) (sch : Schedule) (done rn : list string)
    (wait : list (string * list string)) (active : list (Z * string * Z))
  : Prop := {
  si_part :
    Permutation (done ++ act_names active ++ rn ++ map fst wait) (names evs);
  si_keys : forall x,
      In x (map fst sch) <-> In x done \/ In x (act_names active);
  si_keys_nodup : NoDup (map fst sch);
  si_wait : forall w deps,
      In (w, deps) wait ->
      deps <> [] /\
      forall d, In d deps <-> In d (deps_of evs w) /\ ~ In d done;
  si_ready : forall r d, In r rn -> In d (deps_of evs r) -> In d done;
  si_deps : forall b sb eb a,
      In (b, (sb, eb)) sch -> In a (deps_of evs b) ->
      exists sa ea, In (a, (sa, ea)) sch /\ (ea <= sb)%Z;
  si_active : forall e n r,
      In (e, n, r) active ->
      (exists st, In (n, (st, e)) sch) /\ r = res_of evs n
}.

(** Invariant of the simulation on time and resources. *)
Record res_inv (evs : list Event) (total : Z) (sch : Schedule)
    (done : list string) (active : list (Z * string * Z))
    (now active_res : Z) : Prop := {
  ri_sum : active_res = active_sum evs sch (act_names active);
  ri_future : Forall (fun a => (now <= end_of a)%Z) active;
  ri_past : forall n st e, In (n, (st, e)) sch -> In n done -> (e <= now)%Z;
  ri_usage : forall t, (t < now)%Z -> (usage evs sch t <= total)%Z;
  ri_cap : (active_res <= total)%Z;
  ri_sorted : StronglySorted (fun a b => (end_of a <= end_of b)%Z) active;
  ri_fit : forall n, In n (map fst sch) -> (res_of evs n <= total)%Z
}.

(** At the head of the main loop the first active task, if any, ends now. *)
Definition head_due (s : Sim) : Prop :=
  match active_events s with
  | [] => True
  | a :: _ => end_of a = current_time s
  end.

Definition sim_struct (evs : list Event) (s : Sim) : Prop :=
  struct_inv evs (sim_schedule s) (scheduled s) (map snd (ready_queue s))
    (waiting s) (active_events s).

Definition sim_res (evs : list Event) (total : Z) (s : Sim) : Prop :=
  res_inv evs total (sim_schedule s) (scheduled s) (active_events s)
    (current_time s) (active_resources s).

(** Bound on the number of passes still to run. *)
Definition sim_measure (evs : list Event) (s : Sim) : nat :=
  2 * (length evs - length (scheduled s)) +
  match active_events s with [] => 1 | _ :: _ => 0 end.

(** Decidable forms of the hypotheses on a registry. *)
Fixpoint distinctb (l : list string) : bool :=
  match l with
  | [] => true
  | x :: l' => negb (set_mem x l') && distinctb l'
  end.

Definition registry_wfb (evs : list Event) : bool := distinctb (names evs).

(** [rank] decreases along every dependency. *)
Definition rankedb (rank : string -> nat) (evs : list Event) : bool :=
  forallb
    (fun e => forallb (fun d => Nat.ltb (rank d) (rank (name e)))
                (dependencies e))
    evs.

(** ** Concrete task sets *)

(** What [schedule_events] computes on [scenario]. *)
Definition scenario_schedule : Schedule :=
  [("A", (0, 3)); ("C", (3, 4)); ("B", (4, 6))].

Definition scenario_rank (n : string) : nat :=
  if String.eqb n "C" then 1%nat else 0%nat.

(** A negative requirement lets a later task exceed the pool. *)
Definition overcommit : EventScheduler :=
  mkScheduler 2
    (add_event (add_event [] (mkEvent "X" 1 [] (-5) 1 no_deadline))
       (mkEvent "Y" 2 [] 7 2 no_deadline)) [].

Definition overcommit_schedule : Schedule :=
  [("X", (0, 1)); ("Y", (0, 2))].

(** A negative pool is exceeded by the empty schedule. *)
Definition negative_pool : EventScheduler :=
  mkScheduler (-1) (add_event [] (mkEvent "A" 1 [] 1 1 no_deadline)) [].

(** Negative durations move the clock backwards. *)
Definition backwards : EventScheduler :=
  mkScheduler 2
    (add_event (add_event (add_event (add_event (add_event []
       (mkEvent "A" (-3) [] 1 1 no_deadline))
       (mkEvent "X" 10 [] 1 2 no_deadline))
       (mkEvent "Z" 10 ["A"] 1 1 no_deadline))
       (mkEvent "W" (-5) ["Z"] 1 1 no_deadline))
       (mkEvent "V" 10 ["W"] 1 1 no_deadline)) [].

Definition backwards_schedule : Schedule :=
  [("A", (0, -3)); ("X", (0, 10)); ("Z", (-3, 7)); ("W", (7, 2));
   ("V", (2, 12))].

(** A mutual dependency next to an unknown one. *)
Definition cycle_with_unknown : list Event :=
  add_event (add_event [] (mkEvent "A" 1 ["B"; "X"] 1 1 no_deadline))
    (mkEvent "B" 1 ["A"] 1 1 no_deadline).

(** A mutual dependency and an independent task. *)
Definition cycle_pair : EventScheduler :=
  mkScheduler 2
    (add_event (add_event (add_event []
       (mkEvent "A" 1 ["B"] 1 1 no_deadline))
       (mkEvent "B" 1 ["A"] 1 1 no_deadline))
       (mkEvent "C" 1 [] 1 1 no_deadline))
    [("C", (0, 1))].

(** A dependency on a task that was never registered. *)
Definition dangling : EventScheduler :=
  mkScheduler 2
    (add_event (add_event [] (mkEvent "A" 1 [] 1 1 no_deadline))
       (mkEvent "B" 1 ["A"; "ghost"] 1 1 no_deadline))
    [("A", (0, 1))].

(** A task that needs more workers than the pool has. *)
Definition oversized : EventScheduler :=
  mkScheduler 2
    (add_event (add_event [] (mkEvent "A" 1 [] 1 1 no_deadline))
       (mkEvent "B" 1 [] 3 1 no_deadline)) [].

(** A task behind one that needs more workers than the pool has, beside
    a task of negative duration. *)
Definition starved : EventScheduler :=
  mkScheduler 2
    (add_event (add_event (add_event []
       (mkEvent "A" (-1) [] 1 1 no_deadline))
       (mkEvent "B" 1 [] 3 1 no_deadline))
       (mkEvent "C" 1 ["B"] 1 1 no_deadline)) [].

(** Deadlines: met, missed, zero and absent. *)
Definition deadline_demo : EventScheduler :=
  mkScheduler 1
    (add_event (add_event (add_event []
       (mkEvent "T" 7 [] 1 1 5))
       (mkEvent "U" 2 [] 1 2 0))
       (mkEvent "V" 1 [] 1 3 no_deadline)) [].

Definition deadline_demo_schedule : Schedule :=
  [("T", (0, 7)); ("U", (7, 9)); ("V", (9, 10))].

(** Invariant of one batch: [deg0] is [in_degree] when the batch starts. *)
Definition level_inv (deg0 deg : string -> Z) (newly_ready : list string)
  : Prop :=
  (forall x, (deg x <= deg0 x)%Z) /\
  NoDup newly_ready /\
  (forall x, In x newly_ready <-> (1 <= deg0 x /\ deg x <= 0)%Z).

(** ** The other operations of [EventScheduler] *)

(** [EventScheduler(total_resources)] *)
Definition new_scheduler (total : Z) : EventScheduler := mkScheduler total [] [].

(** [scheduler.add_event(event)] on the whole scheduler. *)
Definition scheduler_add_event (s : EventScheduler) (e : Event)
  : EventScheduler :=
  mkScheduler (total_resources s) (add_event (events s) e) (schedule s).

(** [del self.events[name]] *)
Fixpoint events_del (evs : list Event) (n : string) : list Event :=
  match evs with
  | [] => []
  | e :: evs' => if String.eqb (name e) n then evs' else e :: events_del evs' n
  end.

(** [del d[k]] *)
Fixpoint dict_del {V : Type} (d : list (string * V)) (k : string)
  : list (string * V) :=
  match d with
  | [] => []
  | (k', v) :: d' => if String.eqb k' k then d' else (k', v) :: dict_del d' k
  end.

Definition remove_event (s : EventScheduler) (event_name : string)
  : EventScheduler * bool :=
  if events_mem (events s) event_name then
    (mkScheduler (total_resources s) (events_del (events s) event_name)
       (match dict_find (schedule s) event_name with
        | Some _ => dict_del (schedule s) event_name
        | None => schedule s
        end),
     true)
  else (s, false).

(** The keyword arguments that [modify_event] looks at; [None] is an absent
    keyword. *)
Record Updates : Type := mkUpdates {
  upd_duration : option Z;
  upd_dependencies : option (list string);
  upd_resources_required : option Z;
  upd_priority : option Z;
  upd_deadline : option Z
}.

Definition or_keep {V : Type} (new : option V) (old : V) : V :=
  match new with
  | Some v => v
  | None => old
  end.

Definition apply_updates (event : Event) (kwargs : Updates) : Event :=
  mkEvent (name event)
    (or_keep (upd_duration kwargs) (duration event))
    (or_keep (upd_dependencies kwargs) (dependencies event))
    (or_keep (upd_resources_required kwargs) (resources_required event))
    (or_keep (upd_priority kwargs) (priority event))
    (or_keep (upd_deadline kwargs) (deadline event)).

(** The event stored under [n] is mutated in place. *)
Fixpoint events_replace (evs : list Event) (n : string) (e : Event)
  : list Event :=
  match evs with
  | [] => []
  | e' :: evs' =>
      if String.eqb (name e') n then e :: evs'
      else e' :: events_replace evs' n e
  end.

Definition modify_event (s : EventScheduler) (event_name : string)
    (kwargs : Updates) : EventScheduler * bool :=
  match events_find (events s) event_name with
  | None => (s, false)
  | Some event =>
      (mkScheduler (total_resources s)
         (events_replace (events s) event_name (apply_updates event kwargs))
         (schedule s),
       true)
  end.

(** [0] for an empty schedule, else [max(end for start, end in ...)]. *)
Definition get_total_completion_time (s : EventScheduler) : Z :=
  match schedule s with
  | [] => 0
  | (_, (_, e)) :: rest => list_max e (map (fun x => snd (snd x)) rest)
  end.

(** ** Loading and saving (sim.py)

    [data] is the value that [json.load] returns, or that [json.dump]
    receives, restricted to files whose fields have the types the scheduler
    computes with; [None] is an absent key.  Reading the file and the
    prompt are outside the model: [clear] tells whether the answer to
    "Clear existing tasks?" was [y].  Both functions catch every exception
    and print it; the model returns it beside the state that is left. *)

Record TaskData : Type := mkTaskData {
  td_name : option string;
  td_duration : option Z;
  td_dependencies : option (list string);
  td_resources_required : option Z;
  td_priority : option Z;
  td_deadline : option Z
}.

Record FileData : Type := mkFileData {
  fd_total_resources : option Z;
  fd_tasks : option (list TaskData)
}.

(** [Event.__init__]: [dependencies if dependencies else []]. *)
Definition event_init (n : string) (dur : Z) (deps : option (list string))
    (res prio dl : Z) : Event :=
  mkEvent n dur (match deps with Some l => l | None => [] end) res prio dl.

(** [Event(name=task_data['name'], duration=task_data['duration'],
    dependencies=task_data.get('dependencies', []), ...)] *)
Definition task_of_data (td : TaskData) : result Event :=
  match td_name td with
  | None => inl (KeyError "name")
  | Some n =>
      match td_duration td with
      | None => inl (KeyError "duration")
      | Some dur =>
          inr (event_init n dur
                 (Some (or_keep (td_dependencies td) []))
                 (or_keep (td_resources_required td) 1)
                 (or_keep (td_priority td) 1)
                 (or_keep (td_deadline td) no_deadline))
      end
  end.

(** [for task_data in data['tasks']: scheduler.add_event(Event(...))] *)
Fixpoint load_tasks_loop (tasks : list TaskData) (evs : list Event)
  : list Event * option exn :=
  match tasks with
  | [] => (evs, None)
  | td :: rest =>
      match task_of_data td with
      | inl err => (evs, Some err)
      | inr event => load_tasks_loop rest (add_event evs event)
      end
  end.

Definition load_tasks_from_json (clear : bool) (data : FileData)
    (s : EventScheduler) : EventScheduler * option exn :=
  let s1 :=
    match events s with
    | [] => s
    | _ :: _ => if clear then mkScheduler (total_resources s) [] [] else s
    end in
  match fd_tasks data with
  | None => (s1, Some (KeyError "tasks"))
  | Some tasks =>
      let '(evs, err) := load_tasks_loop tasks (events s1) in
      match err with
      | Some e => (mkScheduler (total_resources s1) evs (schedule s1), Some e)
      | None =>
          (mkScheduler
             (or_keep (fd_total_resources data) (total_resources s1))
             evs (schedule s1),
           None)
      end
  end.

(** The scheduler after the prompt of [load_tasks_from_json]: the
    registry and the schedule are emptied when the registry is not empty
    and the answer is [y]. *)
Definition after_clear_prompt (clear : bool) (s : EventScheduler)
  : EventScheduler :=
  match events s with
  | [] => s
  | _ :: _ => if clear then mkScheduler (total_resources s) [] [] else s
  end.

Definition data_of_event (event : Event) : TaskData :=
  mkTaskData (Some (name event)) (Some (duration event))
    (Some (dependencies event)) (Some (resources_required event))
    (Some (priority event)) (Some (deadline event)).

(** The [data] that [save_tasks_to_json] hands to [json.dump]. *)
Definition save_tasks_to_json (s : EventScheduler) : FileData :=
  mkFileData (Some (total_resources s))
    (Some (map data_of_event (events s))).

(** ** Vocabulary for the other operations *)

(** The states that the operations above produce from a new scheduler. *)
Inductive reachable : EventScheduler -> Prop :=
| reach_new (total : Z) : reachable (new_scheduler total)
| reach_add (s : EventScheduler) (e : Event) :
    reachable s -> reachable (scheduler_add_event s e)
| reach_remove (s : EventScheduler) (n : string) :
    reachable s -> reachable (fst (remove_event s n))
| reach_modify (s : EventScheduler) (n : string) (kwargs : Updates) :
    reachable s -> reachable (fst (modify_event s n kwargs))
| reach_schedule (s s' : EventScheduler) (fuel : nat)
    (r : result Schedule) :
    reachable s -> schedule_events fuel s = Some (s', r) -> reachable s'
| reach_load (s : EventScheduler) (clear : bool) (data : FileData) :
    reachable s -> reachable (fst (load_tasks_from_json clear data s)).

(** Keys of the registry are distinct, keys of the schedule are distinct
    and registered. *)
Definition api_inv (s : EventScheduler) : Prop :=
  registry_wf (events s) /\
  NoDup (map fst (schedule s)) /\
  forall n, In n (map fst (schedule s)) -> In n (names (events s)).

Definition duration_of (evs : list Event) (x : string) : Z :=
  match events_find evs x with
  | Some e => duration e
  | None => 0
  end.

Definition durations_nonneg (evs : list Event) : Prop :=
  forall e, In e evs -> (0 <= duration e)%Z.

Definition durations_nonnegb (evs : list Event) : bool :=
  forallb (fun e => (0 <=? duration e)%Z) evs.

(** Every entry ends [duration] after it starts and, when no duration is
    negative, the clock, the active tasks and the entries are not before
    time 0. *)
Definition time_inv (evs : list Event) (now : Z)
    (active : list (Z * string * Z)) (sch : Schedule) : Prop :=
  (forall n st e, In (n, (st, e)) sch -> e = (st + duration_of evs n)%Z) /\
  (durations_nonneg evs ->
   (0 <= now)%Z /\
   Forall (fun a => (0 <= end_of a)%Z) active /\
   forall n st e, In (n, (st, e)) sch -> (0 <= st)%Z).

(** [resources_used] summed over the entries of [active_events]. *)
Definition held (active : list (Z * string * Z)) : Z :=
  fold_right (fun a acc => (snd a + acc)%Z) 0%Z active.

(** [x], or a task it depends on directly or through other tasks, is a
    registered task that requires more than the pool. *)
Definition blocked (evs : list Event) (total : Z) (x : string) : Prop :=
  exists y event,
    (y = x \/ clos_trans string (depends_on evs) x y) /\
    events_find evs y = Some event /\
    (total < resources_required event)%Z.

(** Two registries that hold the same events under the same names. *)
Definition same_events (evs1 evs2 : list Event) : Prop :=
  forall n, events_find evs1 n = events_find evs2 n.

(** A stale schedule entry next to a live one. *)
Definition stale_entry : EventScheduler :=
  mkScheduler 2 (add_event [] (mkEvent "A" 1 [] 1 1 3))
    [("A", (0, 5)); ("gone", (5, 6))].

(** [scenario] with its tasks registered in another order. *)
Definition scenario_shuffled : EventScheduler :=
  mkScheduler 2 (add_event (add_event (add_event [] task_C) task_B) task_A) [].

(** A dependency cycle of length three. *)
Definition cycle_three : list Event :=
  add_event (add_event (add_event []
    (mkEvent "A" 1 ["C"] 1 1 no_deadline))
    (mkEvent "B" 1 ["A"] 1 1 no_deadline))
    (mkEvent "C" 1 ["B"] 1 1 no_deadline).

(** * Properties *)

(** ** Strings *)

Lemma string_compare_refl (s : string) : String.compare s s = Eq.
Proof.
  induction s as [|c s IH]; simpl; [reflexivity|].
  assert (Hc : Ascii.compare c c = Eq).
  { unfold Ascii.compare. apply N.compare_refl. }
  now rewrite Hc.
Qed.

Lemma ascii_compare_lt_trans (a b c : ascii) :
  Ascii.compare a b = Lt -> Ascii.compare b c = Lt -> Ascii.compare a c = Lt.
Proof.
  unfold Ascii.compare. rewrite !N.compare_lt_iff. apply N.lt_trans.
Qed.

Lemma string_compare_lt_trans (s1 s2 s3 : string) :
  String.compare s1 s2 = Lt -> String.compare s2 s3 = Lt ->
  String.compare s1 s3 = Lt.
Proof.
  revert s2 s3.
  induction s1 as [|a s1 IH]; intros [|b s2] [|c s3]; simpl; try congruence.
  destruct (Ascii.compare a b) eqn:Hab; try discriminate.
  - apply Ascii.compare_eq_iff in Hab. subst b.
    destruct (Ascii.compare a c) eqn:Hac; try congruence.
    apply IH.
  - intros _.
    destruct (Ascii.compare b c) eqn:Hbc; try discriminate.
    + apply Ascii.compare_eq_iff in Hbc. subst c. now rewrite Hab.
    + intros _. now rewrite (ascii_compare_lt_trans _ _ _ Hab Hbc).
Qed.

Lemma string_ltb_irrefl (s : string) : String.ltb s s = false.
Proof. unfold String.ltb. now rewrite string_compare_refl. Qed.

Lemma string_ltb_trans (s1 s2 s3 : string) :
  String.ltb s1 s2 = true -> String.ltb s2 s3 = true -> String.ltb s1 s3 = true.
Proof.
  unfold String.ltb.
  destruct (String.compare s1 s2) eqn:H12; try discriminate.
  destruct (String.compare s2 s3) eqn:H23; try discriminate.
  intros _ _. now rewrite (string_compare_lt_trans _ _ _ H12 H23).
Qed.

Lemma string_leb_ltb (s1 s2 : string) :
  String.leb s1 s2 = true -> s1 <> s2 -> String.ltb s1 s2 = true.
Proof.
  unfold String.leb, String.ltb.
  destruct (String.compare s1 s2) eqn:H; try congruence.
  apply String.compare_eq_iff in H. congruence.
Qed.

Lemma string_eqb_sym (a b : string) : String.eqb a b = String.eqb b a.
Proof.
  destruct (String.eqb a b) eqn:H.
  - apply String.eqb_eq in H. subst. symmetry. apply String.eqb_refl.
  - apply String.eqb_neq in H. symmetry. apply String.eqb_neq. congruence.
Qed.

(** ** Sorting *)

Section SortingFacts.
Context {A : Type} (leb : A -> A -> bool).

Lemma insert_sorted_perm (x : A) (l : list A) :
  Permutation (insert_sorted leb x l) (x :: l).
Proof.
  induction l as [|y l IH]; simpl; [reflexivity|].
  destruct (leb x y); [reflexivity|].
  rewrite IH. apply perm_swap.
Qed.

Lemma sort_perm (l : list A) : Permutation (sort leb l) l.
Proof.
  induction l as [|x l IH]; simpl; [reflexivity|].
  rewrite insert_sorted_perm. now constructor.
Qed.

Lemma heappush_all_perm (items h : list A) :
  Permutation (heappush_all leb h items) (items ++ h).
Proof.
  revert h. induction items as [|x items IH]; intros h; [reflexivity|].
  change (heappush_all leb h (x :: items))
    with (heappush_all leb (heappush leb h x) items).
  rewrite IH. unfold heappush.
  rewrite insert_sorted_perm. symmetry. apply Permutation_middle.
Qed.

(** Insertion keeps any order [R] that [leb] decides in both directions. *)
Variable R : A -> A -> Prop.
Hypothesis R_trans : forall a b c, R a b -> R b c -> R a c.
Hypothesis leb_true : forall a b, leb a b = true -> R a b.
Hypothesis leb_false : forall a b, leb a b = false -> R b a.

Lemma insert_sorted_strongly (x : A) (l : list A) :
  StronglySorted R l -> StronglySorted R (insert_sorted leb x l).
Proof.
  induction 1 as [|y l Hl IH Hy]; simpl.
  - constructor; constructor.
  - destruct (leb x y) eqn:Hxy.
    + constructor; [constructor; assumption|].
      constructor; [now apply leb_true|].
      eapply Forall_impl; [|exact Hy].
      intros z Hz. eapply R_trans; [apply leb_true; eassumption|exact Hz].
    + constructor; [exact IH|].
      eapply Permutation_Forall; [symmetry; apply insert_sorted_perm|].
      constructor; [now apply leb_false|exact Hy].
Qed.

Lemma sort_strongly (l : list A) : StronglySorted R (sort leb l).
Proof.
  induction l as [|x l IH]; simpl; [constructor|].
  now apply insert_sorted_strongly.
Qed.

Lemma heappush_all_strongly (items h : list A) :
  StronglySorted R h -> StronglySorted R (heappush_all leb h items).
Proof.
  revert h. induction items as [|x items IH]; intros h Hh; [exact Hh|].
  change (heappush_all leb h (x :: items))
    with (heappush_all leb (heappush leb h x) items).
  apply IH. now apply insert_sorted_strongly.
Qed.
End SortingFacts.

Lemma string_leb_trans (s1 s2 s3 : string) :
  String.leb s1 s2 = true -> String.leb s2 s3 = true -> String.leb s1 s3 = true.
Proof.
  unfold String.leb.
  destruct (String.compare s1 s2) eqn:H12; try discriminate;
    destruct (String.compare s2 s3) eqn:H23; try discriminate; intros _ _.
  - apply String.compare_eq_iff in H12, H23. subst.
    now rewrite string_compare_refl.
  - apply String.compare_eq_iff in H12. subst. now rewrite H23.
  - apply String.compare_eq_iff in H23. subst. now rewrite H12.
  - now rewrite (string_compare_lt_trans _ _ _ H12 H23).
Qed.

Lemma string_leb_false (s1 s2 : string) :
  String.leb s1 s2 = false -> String.leb s2 s1 = true.
Proof.
  intros H. destruct (String.leb_total s1 s2) as [H'|H']; congruence.
Qed.

(** ** The [(priority, name)] order *)

Lemma key_leb_trans (a b c : Z * string) :
  key_leb a b = true -> key_leb b c = true -> key_leb a c = true.
Proof.
  destruct a as [p1 n1], b as [p2 n2], c as [p3 n3]. unfold key_leb.
  rewrite !orb_true_iff, !andb_true_iff, !Z.ltb_lt, !Z.eqb_eq.
  intros [H1|[H1 L1]] [H2|[H2 L2]]; try (left; lia).
  right. split; [lia|]. eapply string_leb_trans; eassumption.
Qed.

Lemma key_leb_false (a b : Z * string) :
  key_leb a b = false -> key_leb b a = true.
Proof.
  destruct a as [p1 n1], b as [p2 n2]. unfold key_leb.
  rewrite orb_false_iff, andb_false_iff, orb_true_iff, andb_true_iff.
  rewrite Z.ltb_ge, Z.eqb_neq, Z.ltb_lt, Z.eqb_eq.
  intros [H1 [H2|H2]]; [left; lia|].
  destruct (Z.eq_dec p1 p2) as [->|Hne]; [|left; lia].
  right. split; [reflexivity|]. now apply string_leb_false.
Qed.

Lemma key_leb_task_lt (evs : list Event) (a b : Z * string) :
  key_leb a b = true -> snd a <> snd b ->
  fst a = priority_of evs (snd a) -> fst b = priority_of evs (snd b) ->
  task_lt evs (snd a) (snd b).
Proof.
  destruct a as [p1 n1], b as [p2 n2]. unfold key_leb, task_lt. simpl.
  rewrite orb_true_iff, andb_true_iff, Z.ltb_lt, Z.eqb_eq.
  intros [H|[H L]] Hne <- <-; [now left|].
  right. split; [exact H|]. now apply string_leb_ltb.
Qed.

Lemma task_lt_irrefl (evs : list Event) (x : string) : ~ task_lt evs x x.
Proof.
  unfold task_lt. rewrite string_ltb_irrefl. intros [H|[_ H]]; [lia|].
  discriminate.
Qed.

Lemma task_lt_trans (evs : list Event) (x y z : string) :
  task_lt evs x y -> task_lt evs y z -> task_lt evs x z.
Proof.
  unfold task_lt. intros [H1|[H1 L1]] [H2|[H2 L2]]; try (left; lia).
  right. split; [lia|]. eapply string_ltb_trans; eassumption.
Qed.

Lemma sorted_keys_task_lt (evs : list Event) (ks : list (Z * string)) :
  StronglySorted (fun a b => key_leb a b = true) ks ->
  NoDup (map snd ks) ->
  (forall k, In k ks -> fst k = priority_of evs (snd k)) ->
  StronglySorted (task_lt evs) (map snd ks).
Proof.
  induction 1 as [|a ks Hks IH Ha]; intros Hnd Hp; simpl; [constructor|].
  inversion Hnd as [|? ? Hnotin Hnd']; subst.
  constructor.
  - apply IH; [exact Hnd'|]. intros k Hk. apply Hp. now right.
  - rewrite Forall_forall in *. intros n Hn.
    apply in_map_iff in Hn. destruct Hn as [b [<- Hb]].
    apply key_leb_task_lt.
    + now apply Ha.
    + intros Heq. apply Hnotin. rewrite Heq. now apply in_map.
    + apply Hp. now left.
    + apply Hp. now right.
Qed.

(** ** The registry *)

Lemma events_find_some (evs : list Event) (n : string) (e : Event) :
  events_find evs n = Some e -> In e evs /\ name e = n.
Proof.
  induction evs as [|e' evs IH]; simpl; [discriminate|].
  destruct (String.eqb (name e') n) eqn:Heq.
  - intros [= <-]. apply String.eqb_eq in Heq. auto.
  - intros H. destruct (IH H). auto.
Qed.

Lemma events_find_none (evs : list Event) (n : string) :
  events_find evs n = None <-> ~ In n (names evs).
Proof.
  induction evs as [|e' evs IH]; simpl; [tauto|].
  destruct (String.eqb (name e') n) eqn:Heq.
  - apply String.eqb_eq in Heq. split; [discriminate|tauto].
  - apply String.eqb_neq in Heq. rewrite IH. tauto.
Qed.

Lemma events_find_in (evs : list Event) (e : Event) :
  registry_wf evs -> In e evs -> events_find evs (name e) = Some e.
Proof.
  unfold registry_wf, names.
  induction evs as [|e' evs IH]; simpl; intros Hnd Hin; [contradiction|].
  inversion Hnd as [|? ? Hnotin Hnd']; subst.
  destruct Hin as [->|Hin]; [now rewrite String.eqb_refl|].
  destruct (String.eqb (name e') (name e)) eqn:Heq; [|now apply IH].
  apply String.eqb_eq in Heq. exfalso. apply Hnotin. rewrite Heq.
  now apply in_map.
Qed.

Lemma events_find_registered (evs : list Event) (n : string) :
  In n (names evs) -> exists e, events_find evs n = Some e.
Proof.
  intros Hin. destruct (events_find evs n) as [e|] eqn:H; [eauto|].
  apply events_find_none in H. contradiction.
Qed.

Lemma events_mem_iff (evs : list Event) (n : string) :
  events_mem evs n = true <-> In n (names evs).
Proof.
  unfold events_mem. destruct (events_find evs n) as [e|] eqn:H.
  - apply events_find_some in H. destruct H as [Hin <-].
    split; [intros _; now apply in_map|reflexivity].
  - apply events_find_none in H. split; [discriminate|contradiction].
Qed.

Lemma events_get_registered (evs : list Event) (n : string) :
  In n (names evs) ->
  exists e, events_get evs n = inr e /\ events_find evs n = Some e.
Proof.
  intros Hin. destruct (events_find_registered _ _ Hin) as [e He].
  exists e. unfold events_get. now rewrite He.
Qed.

Lemma deps_of_cons (e : Event) (evs : list Event) (x : string) :
  deps_of (e :: evs) x =
  if String.eqb (name e) x then dependencies e else deps_of evs x.
Proof.
  unfold deps_of. simpl. now destruct (String.eqb (name e) x).
Qed.

Lemma deps_of_unregistered (evs : list Event) (x : string) :
  ~ In x (names evs) -> deps_of evs x = [].
Proof.
  intros H. apply events_find_none in H. unfold deps_of. now rewrite H.
Qed.

Lemma add_event_names (evs : list Event) (e : Event) :
  names (add_event evs e) =
  if events_mem evs (name e) then names evs else names evs ++ [name e].
Proof.
  induction evs as [|e' evs IH]; simpl; [reflexivity|].
  unfold events_mem in *. simpl.
  destruct (String.eqb (name e') (name e)) eqn:Heq; simpl.
  - apply String.eqb_eq in Heq. now rewrite Heq.
  - rewrite IH. now destruct (events_find evs (name e)).
Qed.

Lemma add_event_wf (evs : list Event) (e : Event) :
  registry_wf evs -> registry_wf (add_event evs e).
Proof.
  unfold registry_wf. intros Hnd. rewrite add_event_names.
  destruct (events_mem evs (name e)) eqn:Hmem; [exact Hnd|].
  apply NoDup_app; [exact Hnd|repeat constructor; simpl; tauto|].
  intros x Hx [<-|[]]. apply events_mem_iff in Hx. congruence.
Qed.

Lemma deps_resolvedb_sound (evs : list Event) :
  deps_resolvedb evs = true -> deps_resolved evs.
Proof.
  unfold deps_resolvedb, deps_resolved, depends_on, deps_of.
  rewrite forallb_forall. intros H b a [Hb Ha].
  destruct (events_find evs b) as [e|] eqn:He; [|contradiction].
  apply events_find_some in He. destruct He as [Hin _].
  specialize (H e Hin). rewrite forallb_forall in H.
  apply events_mem_iff. now apply H.
Qed.

(** ** Building the dependency graph *)

Lemma tm_update_eq {V : Type} (m : string -> V) (k : string) (v : V) :
  tm_update m k v k = v.
Proof. unfold tm_update. now rewrite String.eqb_refl. Qed.

Lemma tm_update_neq {V : Type} (m : string -> V) (k k' : string) (v : V) :
  k <> k' -> tm_update m k v k' = m k'.
Proof.
  intros H. unfold tm_update. apply String.eqb_neq in H. now rewrite H.
Qed.

Lemma add_edges_inl (evs : list Event) (x : string) (deps : list string)
    (g : Graph) (err : exn) :
  add_edges evs x deps g = inl err ->
  exists d, In d deps /\ ~ In d (names evs) /\
            err = ValueError (unknown_dependency_msg x d).
Proof.
  revert g. induction deps as [|d deps IH]; intros g; simpl; [discriminate|].
  destruct (events_mem evs d) eqn:Hmem.
  - intros H. destruct (IH _ H) as [d' [Hin Hd']]. exists d'. tauto.
  - intros [= <-]. exists d. split; [now left|]. split; [|reflexivity].
    rewrite <- events_mem_iff. congruence.
Qed.

Lemma add_edges_inr (evs : list Event) (x : string) (deps : list string)
    (g g' : Graph) :
  add_edges evs x deps g = inr g' ->
  (forall d, In d deps -> In d (names evs)) /\
  (forall y, in_degree g' y =
             in_degree g y +
             if String.eqb x y then Z.of_nat (length deps) else 0) /\
  (forall d y, count_occ string_dec (adj_list g' d) y =
               (count_occ string_dec (adj_list g d) y +
                if String.eqb x y then count_occ string_dec deps d else 0)%nat).
Proof.
  revert g. induction deps as [|d deps IH]; intros g; simpl.
  - intros [= <-]. split; [tauto|]. split; intros.
    + destruct (String.eqb x y); lia.
    + destruct (String.eqb x y); lia.
  - destruct (events_mem evs d) eqn:Hmem; [|discriminate].
    intros H. apply IH in H. destruct H as [Hreg [Hdeg Hadj]].
    apply events_mem_iff in Hmem. simpl in Hdeg, Hadj.
    split; [intros d' [<-|Hd']; auto|]. split.
    + intros y. rewrite Hdeg. unfold tm_update.
      destruct (String.eqb x y) eqn:Hxy; [|lia].
      apply String.eqb_eq in Hxy. subst y. lia.
    + intros d' y. rewrite Hadj. unfold tm_update.
      destruct (String.eqb d d') eqn:Hdd.
      * apply String.eqb_eq in Hdd. subst d'.
        rewrite count_occ_app. simpl.
        destruct (string_dec d d) as [_|Hne]; [|congruence].
        destruct (String.eqb x y) eqn:Hxy.
        -- apply String.eqb_eq in Hxy. subst y.
           destruct (string_dec x x) as [_|Hne]; [lia|congruence].
        -- apply String.eqb_neq in Hxy.
           destruct (string_dec x y) as [Heq|_]; [congruence|lia].
      * apply String.eqb_neq in Hdd.
        destruct (string_dec d d') as [Heq|_]; [congruence|].
        destruct (String.eqb x y); lia.
Qed.

Lemma add_edges_total (evs : list Event) (x : string) (deps : list string)
    (g : Graph) :
  (forall d, In d deps -> In d (names evs)) ->
  exists g', add_edges evs x deps g = inr g'.
Proof.
  intros H. destruct (add_edges evs x deps g) as [err|g'] eqn:E; [|eauto].
  apply add_edges_inl in E. destruct E as [d [Hin [Hnot _]]].
  exfalso. auto.
Qed.

Lemma build_graph_inl (evs todo : list Event) (g : Graph) (err : exn) :
  build_graph evs todo g = inl err ->
  exists e d, In e todo /\ In d (dependencies e) /\ ~ In d (names evs) /\
              err = ValueError (unknown_dependency_msg (name e) d).
Proof.
  revert g. induction todo as [|e todo IH]; intros g; simpl; [discriminate|].
  destruct (add_edges evs (name e) (dependencies e) g) as [err'|g'] eqn:E;
    simpl.
  - intros [= <-]. apply add_edges_inl in E. destruct E as [d [H1 [H2 H3]]].
    exists e, d. tauto.
  - intros H. apply IH in H. destruct H as [e' [d [H1 H2]]].
    exists e', d. tauto.
Qed.

Lemma build_graph_inr (evs todo : list Event) (g g' : Graph) :
  NoDup (names todo) ->
  build_graph evs todo g = inr g' ->
  (forall e d, In e todo -> In d (dependencies e) -> In d (names evs)) /\
  (forall y, in_degree g' y =
             in_degree g y + Z.of_nat (length (deps_of todo y))) /\
  (forall d y, count_occ string_dec (adj_list g' d) y =
               (count_occ string_dec (adj_list g d) y +
                count_occ string_dec (deps_of todo y) d)%nat).
Proof.
  revert g. induction todo as [|e todo IH]; intros g Hnd; simpl.
  - intros [= <-]. split; [tauto|]. split; intros; unfold deps_of; simpl; lia.
  - inversion Hnd as [|? ? Hnotin Hnd']; subst.
    destruct (add_edges evs (name e) (dependencies e) g) as [err'|g1] eqn:E;
      simpl; [discriminate|].
    intros H. apply (IH _ Hnd') in H. destruct H as [Hreg [Hdeg Hadj]].
    apply add_edges_inr in E. destruct E as [Hreg1 [Hdeg1 Hadj1]].
    split; [intros e' d [<-|He']; eauto|].
    assert (Hfresh : forall y, String.eqb (name e) y = true ->
                               deps_of todo y = []).
    { intros y Hy. apply String.eqb_eq in Hy. subst y.
      now apply deps_of_unregistered. }
    split.
    + intros y. rewrite Hdeg, Hdeg1, deps_of_cons.
      destruct (String.eqb (name e) y) eqn:Hy; [|lia].
      rewrite (Hfresh _ Hy). simpl. lia.
    + intros d y. rewrite Hadj, Hadj1, deps_of_cons.
      destruct (String.eqb (name e) y) eqn:Hy; [|lia].
      rewrite (Hfresh _ Hy). simpl. lia.
Qed.

Lemma build_graph_total (evs todo : list Event) (g : Graph) :
  (forall e d, In e todo -> In d (dependencies e) -> In d (names evs)) ->
  exists g', build_graph evs todo g = inr g'.
Proof.
  intros H. destruct (build_graph evs todo g) as [err|g'] eqn:E; [|eauto].
  apply build_graph_inl in E. destruct E as [e [d [H1 [H2 [H3 _]]]]].
  exfalso. eauto.
Qed.

Lemma deps_resolved_events (evs : list Event) :
  registry_wf evs ->
  (deps_resolved evs <->
   forall e d, In e evs -> In d (dependencies e) -> In d (names evs)).
Proof.
  intros Hwf. unfold deps_resolved, depends_on, deps_of. split.
  - intros H e d He Hd. apply (H (name e)). split; [now apply in_map|].
    now rewrite (events_find_in _ _ Hwf He).
  - intros H b a [Hb Ha].
    destruct (events_find evs b) as [e|] eqn:He; [|contradiction].
    apply events_find_some in He. destruct He as [Hin _]. eauto.
Qed.

(** ** Sorting names by key *)

Lemma set_mem_iff (x : string) (s : list string) :
  set_mem x s = true <-> In x s.
Proof.
  unfold set_mem. rewrite existsb_exists. split.
  - intros [y [Hy Heq]]. apply String.eqb_eq in Heq. now subst.
  - intros H. exists x. split; [exact H|apply String.eqb_refl].
Qed.

Lemma set_mem_false (x : string) (s : list string) :
  set_mem x s = false <-> ~ In x s.
Proof.
  rewrite <- set_mem_iff. destruct (set_mem x s); split; congruence.
Qed.

Lemma priority_of_find (evs : list Event) (n : string) (e : Event) :
  events_find evs n = Some e -> priority_of evs n = priority e.
Proof. intros H. unfold priority_of. now rewrite H. Qed.

Lemma keyed_ok (evs : list Event) (l : list string) :
  (forall n, In n l -> In n (names evs)) ->
  keyed evs l = inr (map (fun n => (priority_of evs n, n)) l).
Proof.
  induction l as [|n l IH]; intros H; simpl; [reflexivity|].
  destruct (events_get_registered evs n) as [e [Hget Hfind]];
    [apply H; now left|].
  rewrite Hget. simpl. rewrite IH by (intros; apply H; now right). simpl.
  now rewrite (priority_of_find _ _ _ Hfind).
Qed.

Lemma map_snd_keys (evs : list Event) (l : list string) :
  map snd (map (fun n => (priority_of evs n, n)) l) = l.
Proof. rewrite map_map. simpl. apply map_id. Qed.

Lemma sorted_by_key_ok (evs : list Event) (l : list string) :
  (forall n, In n l -> In n (names evs)) ->
  exists l', sorted_by_key evs l = inr l' /\ Permutation l' l /\
             (NoDup l -> StronglySorted (task_lt evs) l').
Proof.
  intros H. unfold sorted_by_key. rewrite (keyed_ok _ _ H). simpl.
  eexists. split; [reflexivity|].
  set (ks := map (fun n => (priority_of evs n, n)) l).
  assert (Hperm : Permutation (sort key_leb ks) ks) by apply sort_perm.
  split.
  - rewrite <- (map_snd_keys evs l). now apply Permutation_map.
  - intros Hnd. apply sorted_keys_task_lt.
    + apply sort_strongly.
      * intros a b c. apply key_leb_trans.
      * auto.
      * apply key_leb_false.
    + eapply Permutation_NoDup;
        [apply Permutation_map; symmetry; exact Hperm|].
      unfold ks. now rewrite map_snd_keys.
    + intros k Hk. eapply Permutation_in in Hk; [|exact Hperm].
      unfold ks in Hk. apply in_map_iff in Hk.
      destruct Hk as [n [<- _]]. reflexivity.
Qed.

(** ** One batch of Kahn's algorithm *)

Lemma visit_neighbors_spec (deg0 : string -> Z) (ns : list string) :
  forall deg nr deg' nr',
    level_inv deg0 deg nr ->
    visit_neighbors ns deg nr = (deg', nr') ->
    level_inv deg0 deg' nr' /\
    (forall x, deg' x = deg x - Z.of_nat (count_occ string_dec ns x)).
Proof.
  induction ns as [|n ns IH]; intros deg nr deg' nr' Hinv; simpl.
  - intros [= <- <-]. split; [exact Hinv|]. intros; lia.
  - rewrite tm_update_eq. destruct Hinv as [Hle [Hnd Hiff]].
    assert (Hstep : forall x,
               tm_update deg n (deg n - 1) x =
               deg x - if string_dec n x then 1 else 0).
    { intros x. destruct (string_dec n x) as [<-|Hne].
      - now rewrite tm_update_eq.
      - rewrite tm_update_neq by exact Hne. lia. }
    assert (Hle' : forall x, tm_update deg n (deg n - 1) x <= deg0 x).
    { intros x. rewrite Hstep. specialize (Hle x).
      destruct (string_dec n x); lia. }
    destruct (deg n - 1 =? 0)%Z eqn:Hz.
    + apply Z.eqb_eq in Hz. intros H. apply IH in H.
      * destruct H as [Hinv' Hdeg]. split; [exact Hinv'|].
        intros x. rewrite Hdeg, Hstep.
        destruct (string_dec n x); lia.
      * split; [exact Hle'|]. split.
        -- apply NoDup_app; [exact Hnd|repeat constructor; simpl; tauto|].
           intros x Hx [<-|[]]. apply Hiff in Hx. lia.
        -- intros x. rewrite in_app_iff, Hiff, Hstep. simpl.
           specialize (Hle x).
           destruct (string_dec n x) as [<-|Hne].
           ++ split; [intros _; lia|tauto].
           ++ split; [intros [Hx|[Hx|[]]]; [lia|contradiction]|].
              intros Hx. left. lia.
    + apply Z.eqb_neq in Hz. intros H. apply IH in H.
      * destruct H as [Hinv' Hdeg]. split; [exact Hinv'|].
        intros x. rewrite Hdeg, Hstep.
        destruct (string_dec n x); lia.
      * split; [exact Hle'|]. split; [exact Hnd|].
        intros x. rewrite Hiff, Hstep.
        destruct (string_dec n x) as [<-|Hne]; [|lia].
        split; [lia|]. intros [H1 H2]. split; [exact H1|].
        assert (deg n <= 0 \/ deg n = 1 \/ 2 <= deg n) as [H3|[H3|H3]]
            by lia; lia.
Qed.

Lemma process_level_spec (deg0 : string -> Z) (adj : string -> list string)
    (level : list string) :
  forall deg so nr deg' so' nr',
    level_inv deg0 deg nr ->
    process_level adj level deg so nr = (deg', so', nr') ->
    so' = so ++ level /\
    level_inv deg0 deg' nr' /\
    (forall x, deg' x =
               deg x - Z.of_nat (count_occ string_dec (flat_map adj level) x)).
Proof.
  induction level as [|c level IH]; intros deg so nr deg' so' nr' Hinv; simpl.
  - intros [= <- <- <-]. rewrite app_nil_r.
    split; [reflexivity|]. split; [exact Hinv|]. intros; lia.
  - destruct (visit_neighbors (adj c) deg nr) as [deg1 nr1] eqn:Hv.
    apply (visit_neighbors_spec deg0) in Hv; [|exact Hinv].
    destruct Hv as [Hinv1 Hdeg1].
    intros H. apply IH in H; [|exact Hinv1].
    destruct H as [-> [Hinv' Hdeg']].
    split; [now rewrite <- app_assoc|]. split; [exact Hinv'|].
    intros x. rewrite Hdeg', Hdeg1, count_occ_app. lia.
Qed.

Lemma count_occ_flat_map (evs : list Event) (adj : string -> list string)
    (level : list string) (x : string) :
  (forall d y, count_occ string_dec (adj d) y =
               count_occ string_dec (deps_of evs y) d) ->
  NoDup level ->
  count_occ string_dec (flat_map adj level) x =
  length (filter (fun d => set_mem d level) (deps_of evs x)).
Proof.
  intros Hadj. induction 1 as [|c level Hnotin Hnd IH]; simpl.
  - induction (deps_of evs x) as [|d ds IHd]; simpl; auto.
  - rewrite count_occ_app, Hadj, IH. clear IH.
    induction (deps_of evs x) as [|d ds IHd]; simpl; [reflexivity|].
    rewrite string_eqb_sym.
    destruct (string_dec d c) as [->|Hne].
    + rewrite String.eqb_refl. simpl.
      apply set_mem_false in Hnotin. rewrite Hnotin. lia.
    + assert (Hneq : String.eqb c d = false)
        by (apply String.eqb_neq; congruence).
      rewrite Hneq. simpl. destruct (set_mem d level); simpl; lia.
Qed.

Lemma pending_app_nat (so level ds : list string) :
  (forall y, In y level -> ~ In y so) ->
  length (filter (fun d => negb (set_mem d so)) ds) =
  (length (filter (fun d => negb (set_mem d (so ++ level))) ds) +
   length (filter (fun d => set_mem d level) ds))%nat.
Proof.
  intros Hdisj. induction ds as [|d ds IH]; [reflexivity|].
  cbn [filter].
  destruct (set_mem d level) eqn:Hl.
  - apply set_mem_iff in Hl.
    assert (Hso : set_mem d so = false)
      by (apply set_mem_false; now apply Hdisj).
    assert (Hboth : set_mem d (so ++ level) = true)
      by (apply set_mem_iff, in_app_iff; now right).
    rewrite Hso, Hboth. cbn [negb length]. lia.
  - apply set_mem_false in Hl.
    destruct (set_mem d so) eqn:Hso.
    + assert (Hboth : set_mem d (so ++ level) = true)
        by (apply set_mem_iff, in_app_iff; left; now apply set_mem_iff).
      rewrite Hboth. cbn [negb length]. lia.
    + apply set_mem_false in Hso.
      assert (Hboth : set_mem d (so ++ level) = false).
      { apply set_mem_false. rewrite in_app_iff. tauto. }
      rewrite Hboth. cbn [negb length]. lia.
Qed.

Lemma pending_app (evs : list Event) (so level : list string) (x : string) :
  (forall y, In y level -> ~ In y so) ->
  pending evs so x =
  pending evs (so ++ level) x +
  Z.of_nat (length (filter (fun d => set_mem d level) (deps_of evs x))).
Proof.
  intros Hdisj. unfold pending.
  rewrite (pending_app_nat so level _ Hdisj). lia.
Qed.

Lemma pending_nonneg (evs : list Event) (so : list string) (x : string) :
  0 <= pending evs so x.
Proof. unfold pending. lia. Qed.

Lemma pending_zero_iff (evs : list Event) (so : list string) (x : string) :
  pending evs so x = 0 <-> forall d, In d (deps_of evs x) -> In d so.
Proof.
  unfold pending. induction (deps_of evs x) as [|d ds IH].
  - simpl. split; [tauto|reflexivity].
  - cbn [filter]. destruct (set_mem d so) eqn:Hso; cbn [negb length].
    + apply set_mem_iff in Hso. rewrite IH. split.
      * intros H d' [<-|Hd']; auto.
      * intros H d' Hd'. apply H. now right.
    + apply set_mem_false in Hso. split; [lia|].
      intros H. exfalso. apply Hso, H. now left.
Qed.

(** ** The loop of [topological_sort] *)

Section TopoLoop.
Variable evs : list Event.
Variable adj : string -> list string.
Hypothesis Hadj : forall d y,
    count_occ string_dec (adj d) y = count_occ string_dec (deps_of evs y) d.

Lemma pending_pos_registered (so : list string) (x : string) :
  1 <= pending evs so x -> In x (names evs).
Proof.
  intros H. destruct (in_dec string_dec x (names evs)) as [Hin|Hnot];
    [exact Hin|].
  unfold pending in H. rewrite (deps_of_unregistered _ _ Hnot) in H.
  simpl in H. lia.
Qed.

Lemma topo_round_spec (deg : string -> Z) (heap : list (Z * string))
    (so : list string) (batches : list (list string)) :
  topo_inv evs deg heap so batches ->
  heap <> [] ->
  exists level deg' so' heap',
    topo_round evs adj deg heap so = inr (level, deg', so', heap') /\
    topo_inv evs deg' heap' so' (batches ++ [level]) /\
    (length so < length so')%nat.
Proof.
  intros [Hdeg Hnd Hzero Hbefore Hconcat Hbatches] Hne.
  assert (Hheap_reg : forall n, In n (map snd heap) -> In n (names evs)).
  { intros n Hn. apply (Hzero n). apply in_app_iff. now right. }
  destruct (sorted_by_key_ok evs _ Hheap_reg)
    as [level [Hsort [Hperm Hsorted]]].
  unfold topo_round. rewrite Hsort. simpl.
  destruct (process_level adj level deg so []) as [[deg' so'] nr] eqn:Hpl.
  apply (process_level_spec deg) in Hpl.
  2:{ split; [intros; lia|]. split; [constructor|].
      intros x. simpl. split; [tauto|lia]. }
  destruct Hpl as [-> [[Hle [Hnr_nd Hnr]] Hdeg']].
  assert (Hheap_nd : NoDup (map snd heap))
    by (eapply NoDup_app_remove_l; exact Hnd).
  assert (Hlevel_nd : NoDup level)
    by (eapply Permutation_NoDup; [symmetry; exact Hperm|exact Hheap_nd]).
  assert (Hperm_so : Permutation (so ++ level) (so ++ map snd heap))
    by (now apply Permutation_app_head).
  assert (Hdisj : forall y, In y level -> ~ In y so).
  { intros y Hy Hso. eapply Permutation_in in Hy; [|exact Hperm].
    apply in_split in Hso. destruct Hso as [l1 [l2 ->]].
    rewrite <- app_assoc in Hnd. simpl in Hnd.
    apply NoDup_remove_2 in Hnd. apply Hnd.
    rewrite !in_app_iff. tauto. }
  assert (Hdeg_new : forall x, deg' x = pending evs (so ++ level) x).
  { intros x. rewrite Hdeg', Hdeg.
    rewrite (count_occ_flat_map evs adj level x Hadj Hlevel_nd).
    rewrite (pending_app evs so level x Hdisj). lia. }
  assert (Hold_zero : forall x, In x (so ++ level) ->
                                In x (names evs) /\ deg x = 0).
  { intros x Hx. apply Hzero. eapply Permutation_in; eassumption. }
  assert (Hnr_reg : forall n, In n nr -> In n (names evs)).
  { intros n Hn. apply Hnr in Hn. destruct Hn as [Hn _].
    rewrite Hdeg in Hn. eapply pending_pos_registered; eassumption. }
  destruct (sorted_by_key_ok evs _ Hnr_reg) as [nrs [Hsort2 [Hperm2 _]]].
  rewrite Hsort2. simpl.
  rewrite keyed_ok
    by (intros n Hn; apply Hnr_reg; eapply Permutation_in; eassumption).
  simpl. do 4 eexists. split; [reflexivity|].
  set (heap' := heappush_all key_leb []
                  (map (fun n => (priority_of evs n, n)) nrs)).
  assert (Hperm3 : Permutation (map snd heap') nr).
  { unfold heap'. rewrite heappush_all_perm, app_nil_r, map_snd_keys.
    exact Hperm2. }
  split; [|].
  - constructor.
    + exact Hdeg_new.
    + eapply Permutation_NoDup;
        [apply Permutation_app_head; symmetry; exact Hperm3|].
      apply NoDup_app.
      * eapply Permutation_NoDup; [symmetry; exact Hperm_so|exact Hnd].
      * exact Hnr_nd.
      * intros x Hx Hx'. apply Hold_zero in Hx. apply Hnr in Hx'. lia.
    + intros x. rewrite in_app_iff. split.
      * intros [Hx|Hx].
        -- destruct (Hold_zero _ Hx) as [Hreg Hz]. split; [exact Hreg|].
           specialize (Hle x). pose proof (pending_nonneg evs (so ++ level) x).
           rewrite <- Hdeg_new in *. lia.
        -- eapply Permutation_in in Hx; [|exact Hperm3].
           split; [now apply Hnr_reg|]. apply Hnr in Hx.
           pose proof (pending_nonneg evs (so ++ level) x).
           rewrite <- Hdeg_new in *. lia.
      * intros [Hreg Hz].
        destruct (Z.eq_dec (deg x) 0) as [Hz0|Hnz].
        -- left. eapply Permutation_in; [symmetry; exact Hperm_so|].
           apply Hzero. tauto.
        -- right. eapply Permutation_in; [symmetry; exact Hperm3|].
           apply Hnr. pose proof (pending_nonneg evs so x).
           rewrite <- Hdeg in *. lia.
    + intros l1 x l2 d Heq Hd.
      assert (Hlevel_case : forall m, level = m ++ x :: l2 ->
                                       In d so).
      { intros m Hm.
        assert (Hx : In x (so ++ level)).
        { rewrite Hm, !in_app_iff. right. right. now left. }
        apply Hold_zero in Hx. destruct Hx as [_ Hx].
        rewrite Hdeg in Hx. rewrite pending_zero_iff in Hx. now apply Hx. }
      symmetry in Heq. apply app_eq_app in Heq.
      destruct Heq as [l [[Hl1 Hl]|[Hso Hl]]].
      * rewrite Hl1. apply in_app_iff. left. eapply Hlevel_case. exact Hl.
      * destruct l as [|y l]; simpl in Hl.
        -- rewrite app_nil_r in Hso. rewrite <- Hso.
           apply (Hlevel_case []). simpl. now rewrite Hl.
        -- injection Hl as <- Hl2.
           apply (Hbefore l1 x l d); [exact Hso|exact Hd].
    + rewrite concat_app, <- Hconcat. simpl. now rewrite app_nil_r.
    + apply Forall_app. split; [exact Hbatches|].
      constructor; [|constructor]. now apply Hsorted.
  - rewrite length_app.
    assert (length level = length heap)
      by (rewrite (Permutation_length Hperm); apply length_map).
    destruct heap; [congruence|]. simpl in *. lia.
Qed.
End TopoLoop.

Lemma topo_inv_bound (evs : list Event) (deg : string -> Z)
    (heap : list (Z * string)) (so : list string)
    (batches : list (list string)) :
  topo_inv evs deg heap so batches ->
  (length so + length heap <= length evs)%nat.
Proof.
  intros Hinv.
  assert (H : (length (so ++ map snd heap) <= length (names evs))%nat).
  { apply NoDup_incl_length; [apply (ti_nodup _ _ _ _ _ Hinv)|].
    intros x Hx. now apply (ti_zero _ _ _ _ _ Hinv). }
  unfold names in H. rewrite length_app, !length_map in H. exact H.
Qed.

Lemma topo_loop_spec (evs : list Event) (adj : string -> list string) :
  registry_wf evs ->
  (forall d y,
      count_occ string_dec (adj d) y = count_occ string_dec (deps_of evs y) d) ->
  forall fuel deg heap so batches,
    topo_inv evs deg heap so batches ->
    (length evs < fuel + length so)%nat ->
    exists deg' so' batches',
      topo_loop fuel evs adj deg heap so batches = Some (inr (so', batches')) /\
      topo_inv evs deg' [] so' batches'.
Proof.
  intros Hwf Hadj.
  induction fuel as [|fuel IH]; intros deg heap so batches Hinv Hfuel.
  - pose proof (topo_inv_bound _ _ _ _ _ Hinv) as Hb.
    destruct heap as [|k heap]; [|simpl in *; lia].
    simpl. eauto.
  - destruct heap as [|k heap]; [simpl; eauto|].
    destruct (topo_round_spec evs adj Hadj _ _ _ _ Hinv)
      as [level [deg' [so' [heap' [Hround [Hinv' Hlen]]]]]]; [discriminate|].
    cbn [topo_loop]. rewrite Hround.
    apply (IH _ _ _ _ Hinv'). lia.
Qed.

Lemma pending_nil (evs : list Event) (x : string) :
  pending evs [] x = Z.of_nat (length (deps_of evs x)).
Proof.
  unfold pending. f_equal.
  induction (deps_of evs x) as [|d ds IH]; [reflexivity|].
  cbn [filter set_mem existsb negb length]. now f_equal.
Qed.

Lemma names_filter_nodup (f : Event -> bool) (evs : list Event) :
  NoDup (names evs) -> NoDup (names (filter f evs)).
Proof.
  unfold names. induction evs as [|e es IH]; simpl; intros Hnd; [constructor|].
  inversion Hnd as [|? ? Hnotin Hnd']; subst.
  destruct (f e); simpl; [|now apply IH].
  constructor; [|now apply IH].
  intros Hin. apply Hnotin. apply in_map_iff in Hin.
  destruct Hin as [e' [Heq He']]. apply filter_In in He'.
  rewrite <- Heq. apply in_map. tauto.
Qed.

Lemma topo_init_inv (evs : list Event) (g : Graph) :
  registry_wf evs ->
  build_graph evs evs empty_graph = inr g ->
  topo_inv evs (in_degree g)
    (heappush_all key_leb []
       (sort key_leb
          (map (fun e => (priority e, name e))
             (filter (fun e => (in_degree g (name e) =? 0)%Z) evs))))
    [] [] /\
  (forall d y, count_occ string_dec (adj_list g d) y =
               count_occ string_dec (deps_of evs y) d).
Proof.
  intros Hwf Hg. apply build_graph_inr in Hg; [|exact Hwf].
  destruct Hg as [_ [Hdeg Hadj]]. simpl in Hdeg, Hadj.
  split; [|exact Hadj].
  set (ready := filter (fun e => (in_degree g (name e) =? 0)%Z) evs).
  assert (Hperm : Permutation
            (map snd (heappush_all key_leb []
                        (sort key_leb
                           (map (fun e => (priority e, name e)) ready))))
            (names ready)).
  { rewrite heappush_all_perm, app_nil_r, sort_perm, map_map. reflexivity. }
  constructor.
  - intros x. now rewrite Hdeg, pending_nil.
  - simpl. eapply Permutation_NoDup; [symmetry; exact Hperm|].
    apply names_filter_nodup. exact Hwf.
  - intros x. simpl. rewrite Hperm. unfold ready, names.
    rewrite in_map_iff. split.
    + intros [e [<- He]]. apply filter_In in He. destruct He as [He Hz].
      apply Z.eqb_eq in Hz. split; [now apply in_map|exact Hz].
    + intros [Hx Hz]. apply in_map_iff in Hx. destruct Hx as [e [<- He]].
      exists e. split; [reflexivity|]. apply filter_In.
      split; [exact He|now apply Z.eqb_eq].
  - intros l1 x l2 d Heq. destruct l1; discriminate.
  - reflexivity.
  - constructor.
Qed.

Lemma topo_run_spec (evs : list Event) (fuel : nat) :
  registry_wf evs -> deps_resolved evs -> (length evs < fuel)%nat ->
  exists deg so batches,
    topo_run fuel evs = Some (inr (so, batches)) /\
    topo_inv evs deg [] so batches.
Proof.
  intros Hwf Hres Hfuel. unfold topo_run.
  destruct (build_graph_total evs evs empty_graph) as [g Hg].
  { now apply deps_resolved_events. }
  rewrite Hg. destruct (topo_init_inv evs g Hwf Hg) as [Hinv Hadj].
  eapply topo_loop_spec; [exact Hwf|exact Hadj|exact Hinv|lia].
Qed.

Lemma topo_loop_inv (evs : list Event) (adj : string -> list string) :
  (forall d y,
      count_occ string_dec (adj d) y = count_occ string_dec (deps_of evs y) d) ->
  forall fuel deg heap so batches res,
    topo_inv evs deg heap so batches ->
    topo_loop fuel evs adj deg heap so batches = Some res ->
    exists deg' so' batches',
      res = inr (so', batches') /\ topo_inv evs deg' [] so' batches'.
Proof.
  intros Hadj.
  induction fuel as [|fuel IH]; intros deg heap so batches res Hinv;
    destruct heap as [|k heap]; cbn [topo_loop];
    try discriminate; try (intros [= <-]; eauto).
  destruct (topo_round_spec evs adj Hadj _ _ _ _ Hinv)
    as [level [deg' [so' [heap' [Hround [Hinv' _]]]]]]; [discriminate|].
  rewrite Hround. now apply IH.
Qed.

Lemma topo_run_inv (evs : list Event) (fuel : nat)
    (so : list string) (batches : list (list string)) :
  registry_wf evs ->
  topo_run fuel evs = Some (inr (so, batches)) ->
  deps_resolved evs /\ exists deg, topo_inv evs deg [] so batches.
Proof.
  intros Hwf Hrun. unfold topo_run in Hrun.
  destruct (build_graph evs evs empty_graph) as [err|g] eqn:Hg;
    [discriminate|].
  destruct (topo_init_inv evs g Hwf Hg) as [Hinv Hadj].
  split.
  - apply deps_resolved_events; [exact Hwf|].
    apply build_graph_inr in Hg; [|exact Hwf]. apply Hg.
  - eapply topo_loop_inv in Hrun; [|exact Hadj|exact Hinv].
    destruct Hrun as [deg' [so1 [b1 [[= <- <-] Hinv']]]]. eauto.
Qed.

(** ** What the loop leaves in [sorted_order] *)

Lemma topo_final_nodup (evs : list Event) (deg : string -> Z)
    (so : list string) (batches : list (list string)) :
  topo_inv evs deg [] so batches -> NoDup so /\ incl so (names evs).
Proof.
  intros Hinv. split.
  - pose proof (ti_nodup _ _ _ _ _ Hinv) as H. simpl in H.
    now rewrite app_nil_r in H.
  - intros x Hx. apply (ti_zero _ _ _ _ _ Hinv). simpl.
    now rewrite app_nil_r.
Qed.

Lemma topo_final_iff (evs : list Event) (deg : string -> Z)
    (so : list string) (batches : list (list string)) (x : string) :
  topo_inv evs deg [] so batches ->
  (In x so <->
   In x (names evs) /\ forall d, In d (deps_of evs x) -> In d so).
Proof.
  intros Hinv. pose proof (ti_zero _ _ _ _ _ Hinv x) as H.
  simpl in H. rewrite app_nil_r in H. rewrite H.
  now rewrite (ti_deg _ _ _ _ _ Hinv), pending_zero_iff.
Qed.

Lemma missing_dependency (so ds : list string) :
  ~ (forall d, In d ds -> In d so) -> exists d, In d ds /\ ~ In d so.
Proof.
  induction ds as [|d ds IH]; intros H.
  - exfalso. apply H. intros d [].
  - destruct (in_dec string_dec d so) as [Hin|Hnot].
    + destruct IH as [d' [H1 H2]].
      * intros Hall. apply H. intros d' [<-|Hd']; auto.
      * exists d'. split; [now right|exact H2].
    + exists d. split; [now left|exact Hnot].
Qed.

Lemma acyclic_descent_aux (evs : list Event) (R : string -> Prop) :
  acyclic evs ->
  (forall x, R x -> In x (names evs)) ->
  (forall x, R x -> exists d, depends_on evs x d /\ R d) ->
  forall n visited x,
    (n + length visited = S (length (names evs)))%nat ->
    NoDup visited -> incl visited (names evs) ->
    (forall v, In v visited -> clos_trans string (depends_on evs) v x) ->
    R x -> False.
Proof.
  intros Hacyc Hreg Hstep.
  induction n as [|n IH]; intros visited x Hlen Hnd Hincl Hpath Hx.
  - pose proof (NoDup_incl_length Hnd Hincl). simpl in Hlen. lia.
  - destruct (Hstep x Hx) as [d [Hxd Hd]].
    apply (IH (x :: visited) d).
    + simpl. lia.
    + constructor; [|exact Hnd].
      intros Hin. apply (Hacyc x). now apply Hpath.
    + intros v [<-|Hv]; [now apply Hreg|now apply Hincl].
    + intros v [<-|Hv]; [now apply t_step|].
      eapply t_trans; [apply Hpath; exact Hv|now apply t_step].
    + exact Hd.
Qed.

Lemma acyclic_descent (evs : list Event) (R : string -> Prop) :
  acyclic evs ->
  (forall x, R x -> In x (names evs)) ->
  (forall x, R x -> exists d, depends_on evs x d /\ R d) ->
  forall x, ~ R x.
Proof.
  intros Hacyc Hreg Hstep x Hx.
  apply (acyclic_descent_aux evs R Hacyc Hreg Hstep
           (S (length (names evs))) [] x); simpl;
    [lia|constructor|intros v []|intros v []|exact Hx].
Qed.

Lemma topo_complete (evs : list Event) (deg : string -> Z)
    (so : list string) (batches : list (list string)) :
  registry_wf evs -> deps_resolved evs -> acyclic evs ->
  topo_inv evs deg [] so batches ->
  Permutation so (names evs).
Proof.
  intros Hwf Hres Hacyc Hinv.
  destruct (topo_final_nodup _ _ _ _ Hinv) as [Hnd Hincl].
  apply NoDup_Permutation; [exact Hnd|exact Hwf|].
  intros x. split; [apply Hincl|]. intros Hx.
  destruct (in_dec string_dec x so) as [Hin|Hnot]; [exact Hin|].
  exfalso.
  apply (acyclic_descent evs (fun y => In y (names evs) /\ ~ In y so) Hacyc)
    with (x := x); [intros y [Hy _]; exact Hy| |split; assumption].
  intros y [Hy Hny].
  destruct (missing_dependency so (deps_of evs y)) as [d [Hd Hnd']].
  { intros Hall. apply Hny. apply (topo_final_iff _ _ _ _ y Hinv). tauto. }
  exists d. split; [split; assumption|]. split; [|exact Hnd'].
  apply (Hres y d). split; assumption.
Qed.

Lemma mutual_not_sorted (evs : list Event) (deg : string -> Z)
    (so : list string) (batches : list (list string)) (a b : string) :
  topo_inv evs deg [] so batches ->
  depends_on evs a b -> depends_on evs b a -> ~ In a so.
Proof.
  intros Hinv [_ Hab] [_ Hba] Ha.
  destruct (topo_final_nodup _ _ _ _ Hinv) as [Hnd _].
  pose proof (ti_before _ _ _ _ _ Hinv) as Hbefore.
  apply in_split in Ha. destruct Ha as [l1 [l2 Hso]].
  pose proof (Hbefore l1 a l2 b Hso Hab) as Hb.
  apply in_split in Hb. destruct Hb as [m1 [m2 Hl1]].
  assert (Hso' : so = m1 ++ b :: (m2 ++ a :: l2)).
  { rewrite Hso, Hl1, <- app_assoc. reflexivity. }
  pose proof (Hbefore m1 b _ a Hso' Hba) as Ha.
  rewrite Hso in Hnd. apply NoDup_remove_2 in Hnd. apply Hnd.
  rewrite Hl1, !in_app_iff. tauto.
Qed.

Lemma topological_sort_inr (evs : list Event) (fuel : nat)
    (order : list string) :
  registry_wf evs ->
  topological_sort fuel evs = Some (inr order) ->
  Permutation order (names evs) /\ deps_before evs order /\
  deps_resolved evs.
Proof.
  intros Hwf Hsort. unfold topological_sort in Hsort.
  destruct (topo_run fuel evs) as [[err|[so batches]]|] eqn:Hrun;
    try discriminate.
  destruct (Nat.eqb (length so) (length evs)) eqn:Hlen; [|discriminate].
  injection Hsort as <-. apply Nat.eqb_eq in Hlen.
  destruct (topo_run_inv _ _ _ _ Hwf Hrun) as [Hres [deg Hinv]].
  destruct (topo_final_nodup _ _ _ _ Hinv) as [Hnd Hincl].
  split; [|split; [apply (ti_before _ _ _ _ _ Hinv)|exact Hres]].
  apply NoDup_Permutation_bis; [exact Hnd| |exact Hincl].
  unfold names. rewrite length_map. lia.
Qed.

(** ** Dictionaries *)

Lemma dict_find_some {V : Type} (d : list (string * V)) (k : string) (v : V) :
  dict_find d k = Some v -> In (k, v) d.
Proof.
  induction d as [|[k' v'] d IH]; simpl; [discriminate|].
  destruct (String.eqb k' k) eqn:Heq.
  - apply String.eqb_eq in Heq. intros [= <-]. left. now subst.
  - intros H. right. now apply IH.
Qed.

Lemma dict_find_none {V : Type} (d : list (string * V)) (k : string) :
  dict_find d k = None <-> ~ In k (map fst d).
Proof.
  induction d as [|[k' v'] d IH]; simpl; [tauto|].
  destruct (String.eqb k' k) eqn:Heq.
  - apply String.eqb_eq in Heq. split; [discriminate|tauto].
  - apply String.eqb_neq in Heq. rewrite IH. tauto.
Qed.

Lemma dict_find_in {V : Type} (d : list (string * V)) (k : string) (v : V) :
  NoDup (map fst d) -> In (k, v) d -> dict_find d k = Some v.
Proof.
  induction d as [|[k' v'] d IH]; simpl; intros Hnd Hin; [contradiction|].
  inversion Hnd as [|? ? Hnotin Hnd']; subst.
  destruct Hin as [[= -> ->]|Hin]; [now rewrite String.eqb_refl|].
  destruct (String.eqb k' k) eqn:Heq; [|now apply IH].
  apply String.eqb_eq in Heq. subst k'. exfalso. apply Hnotin.
  change k with (fst (k, v)). now apply in_map.
Qed.

Lemma dict_set_fresh {V : Type} (d : list (string * V)) (k : string) (v : V) :
  ~ In k (map fst d) -> dict_set d k v = d ++ [(k, v)].
Proof.
  induction d as [|[k' v'] d IH]; simpl; intros Hnot; [reflexivity|].
  destruct (String.eqb k' k) eqn:Heq.
  - apply String.eqb_eq in Heq. tauto.
  - rewrite IH by tauto. reflexivity.
Qed.

Lemma in_keys {V : Type} (d : list (string * V)) (k : string) (v : V) :
  In (k, v) d -> In k (map fst d).
Proof. intros H. change k with (fst (k, v)). now apply in_map. Qed.

Lemma keys_in {V : Type} (d : list (string * V)) (k : string) :
  In k (map fst d) -> exists v, In (k, v) d.
Proof.
  intros H. apply in_map_iff in H. destruct H as [[k' v] [Hk Hin]].
  simpl in Hk. subst. eauto.
Qed.

Lemma nodup_keys_unique {V : Type} (d : list (string * V)) (k : string)
    (v v' : V) :
  NoDup (map fst d) -> In (k, v) d -> In (k, v') d -> v = v'.
Proof.
  intros Hnd H1 H2.
  apply (dict_find_in _ _ _ Hnd) in H1. apply (dict_find_in _ _ _ Hnd) in H2.
  congruence.
Qed.

(** ** Heaps of the simulation *)

Lemma heappush_names (ready : list (Z * string)) (k : Z * string) :
  Permutation (map snd (heappush key_leb ready k)) (snd k :: map snd ready).
Proof.
  unfold heappush. change (snd k :: map snd ready) with (map snd (k :: ready)).
  apply Permutation_map, insert_sorted_perm.
Qed.

Lemma heappush_act_names (active : list (Z * string * Z)) (a : Z * string * Z) :
  Permutation (act_names (heappush active_leb active a))
    (snd (fst a) :: act_names active).
Proof.
  unfold heappush, act_names.
  change (snd (fst a) :: map (fun a => snd (fst a)) active)
    with (map (fun a => snd (fst a)) (a :: active)).
  apply Permutation_map, insert_sorted_perm.
Qed.

Lemma active_leb_true (a b : Z * string * Z) :
  active_leb a b = true -> end_of a <= end_of b.
Proof.
  destruct a as [[e1 n1] r1], b as [[e2 n2] r2]. unfold active_leb, end_of.
  simpl. rewrite orb_true_iff, andb_true_iff, Z.ltb_lt, Z.eqb_eq. lia.
Qed.

Lemma active_leb_false (a b : Z * string * Z) :
  active_leb a b = false -> end_of b <= end_of a.
Proof.
  destruct a as [[e1 n1] r1], b as [[e2 n2] r2]. unfold active_leb, end_of.
  simpl. rewrite orb_false_iff, Z.ltb_ge. lia.
Qed.

Lemma heappush_active_sorted (active : list (Z * string * Z))
    (a : Z * string * Z) :
  StronglySorted (fun a b => end_of a <= end_of b) active ->
  StronglySorted (fun a b => end_of a <= end_of b)
    (heappush active_leb active a).
Proof.
  apply insert_sorted_strongly.
  - intros x y z. lia.
  - apply active_leb_true.
  - apply active_leb_false.
Qed.

(** ** Sets of pending dependencies *)

Lemma set_remove_in (c d : string) (deps : list string) :
  In d (set_remove c deps) <-> In d deps /\ d <> c.
Proof.
  unfold set_remove. split.
  - apply in_remove.
  - intros [H1 H2]. now apply in_in_remove.
Qed.

Lemma to_set_in (d : string) (deps : list string) :
  In d (to_set deps) <-> In d deps.
Proof. apply nodup_In. Qed.

Lemma to_set_nonempty (deps : list string) : deps <> [] -> to_set deps <> [].
Proof.
  destruct deps as [|d deps]; [congruence|]. intros _ H.
  assert (Hin : In d (to_set (d :: deps))) by (apply to_set_in; now left).
  rewrite H in Hin. contradiction.
Qed.

(** ** Retiring a task: [release] and [complete] *)

Lemma release_spec (evs : list Event) (c : string) (done : list string) :
  forall wait ready,
    (forall w, In w (map fst wait) -> In w (names evs)) ->
    (forall w deps, In (w, deps) wait ->
       deps <> [] /\
       forall d, In d deps <-> In d (deps_of evs w) /\ ~ In d done) ->
    exists wait' ready',
      release evs c wait ready = inr (wait', ready') /\
      Permutation (map snd ready' ++ map fst wait')
        (map snd ready ++ map fst wait) /\
      (forall w deps, In (w, deps) wait' ->
         deps <> [] /\
         forall d, In d deps <->
                   In d (deps_of evs w) /\ ~ In d (done ++ [c])) /\
      (forall r, In r (map snd ready') ->
         In r (map snd ready) \/
         forall d, In d (deps_of evs r) -> In d (done ++ [c])).
Proof.
  induction wait as [|[w deps] wait IH]; intros ready Hreg Hwait.
  - exists [], ready. simpl. split; [reflexivity|]. split; [reflexivity|].
    split; [intros w deps []|]. intros r Hr. now left.
  - assert (Hreg' : forall w', In w' (map fst wait) -> In w' (names evs))
      by (intros w' Hw'; apply Hreg; now right).
    assert (Hwait' : forall w' deps', In (w', deps') wait ->
              deps' <> [] /\
              forall d, In d deps' <-> In d (deps_of evs w') /\ ~ In d done)
      by (intros w' deps' Hw'; apply Hwait; now right).
    destruct (Hwait w deps (or_introl eq_refl)) as [Hne Hdeps].
    assert (Hnotin_app : forall d, ~ In d (done ++ [c]) <->
                                   ~ In d done /\ d <> c).
    { intros d. rewrite in_app_iff. simpl. intuition congruence. }
    cbn [release].
    destruct (set_mem c deps) eqn:Hmem.
    + destruct (set_remove c deps) as [|d0 deps'] eqn:Hrem.
      * destruct (events_get_registered evs w) as [e [Hget _]];
          [apply Hreg; now left|].
        rewrite Hget. cbn [bind].
        destruct (IH (heappush key_leb ready (priority e, w)) Hreg' Hwait')
          as [wait' [ready' [Hrel [Hperm [Hw Hr]]]]].
        exists wait', ready'. split; [exact Hrel|]. split; [|split].
        -- rewrite Hperm, heappush_names. simpl.
           apply Permutation_middle.
        -- exact Hw.
        -- intros r Hin. destruct (Hr r Hin) as [Hold|Hnew]; [|now right].
           eapply Permutation_in in Hold; [|apply heappush_names].
           destruct Hold as [<-|Hold]; [|now left]. right. simpl.
           intros d Hd. apply in_app_iff.
           destruct (in_dec string_dec d done) as [Hin'|Hnot]; [now left|].
           right. left.
           destruct (string_dec d c) as [->|Hdc]; [reflexivity|].
           assert (Hx : In d (set_remove c deps)).
           { apply set_remove_in. split; [|exact Hdc]. apply Hdeps. tauto. }
           rewrite Hrem in Hx. contradiction.
      * destruct (IH ready Hreg' Hwait')
          as [wait' [ready' [Hrel [Hperm [Hw Hr]]]]].
        rewrite Hrel. cbn [bind].
        exists ((w, d0 :: deps') :: wait'), ready'.
        split; [reflexivity|]. split; [|split].
        -- simpl. rewrite <- !Permutation_middle. now constructor.
        -- intros w' deps'' [[= <- <-]|Hin]; [|now apply Hw].
           split; [discriminate|]. intros d. rewrite <- Hrem.
           rewrite set_remove_in, Hdeps, Hnotin_app. tauto.
        -- exact Hr.
    + destruct (IH ready Hreg' Hwait')
        as [wait' [ready' [Hrel [Hperm [Hw Hr]]]]].
      rewrite Hrel. cbn [bind].
      exists ((w, deps) :: wait'), ready'.
      split; [reflexivity|]. split; [|split].
      * simpl. rewrite <- !Permutation_middle. now constructor.
      * intros w' deps'' [[= <- <-]|Hin]; [|now apply Hw].
        split; [exact Hne|]. intros d. rewrite Hdeps, Hnotin_app.
        apply set_mem_false in Hmem. split; [|tauto].
        intros [H1 H2]. split; [exact H1|]. split; [exact H2|].
        intros ->. apply Hmem. apply Hdeps. tauto.
      * exact Hr.
Qed.

Lemma struct_inv_ready_perm (evs : list Event) (sch : Schedule)
    (done rn rn' : list string) (wait : list (string * list string))
    (active : list (Z * string * Z)) :
  Permutation rn rn' ->
  struct_inv evs sch done rn wait active ->
  struct_inv evs sch done rn' wait active.
Proof.
  intros Hperm [P1 P2 P3 P4 P5 P6 P7]. constructor; try assumption.
  - rewrite <- P1. now rewrite Hperm.
  - intros r d Hr. apply P5. eapply Permutation_in; [symmetry|]; eassumption.
Qed.

Lemma struct_inv_nodup (evs : list Event) (sch : Schedule)
    (done rn : list string) (wait : list (string * list string))
    (active : list (Z * string * Z)) :
  registry_wf evs ->
  struct_inv evs sch done rn wait active ->
  NoDup (done ++ act_names active ++ rn ++ map fst wait).
Proof.
  intros Hwf Hinv. eapply Permutation_NoDup; [|exact Hwf].
  symmetry. apply (si_part _ _ _ _ _ _ Hinv).
Qed.

Lemma complete_one_struct (evs : list Event) (sch : Schedule)
    (done : list string) (ready : list (Z * string))
    (wait : list (string * list string)) (e : Z) (c : string) (r : Z)
    (active : list (Z * string * Z)) :
  struct_inv evs sch done (map snd ready) wait ((e, c, r) :: active) ->
  exists wait' ready',
    release evs c wait ready = inr (wait', ready') /\
    struct_inv evs sch (done ++ [c]) (map snd ready') wait' active.
Proof.
  intros [P1 P2 P3 P4 P5 P6 P7].
  destruct (release_spec evs c done wait ready)
    as [wait' [ready' [Hrel [Hperm [Hw Hr]]]]].
  - intros w Hw. eapply Permutation_in; [exact P1|].
    rewrite !in_app_iff. tauto.
  - exact P4.
  - exists wait', ready'. split; [exact Hrel|]. constructor.
    + rewrite <- P1. rewrite <- app_assoc. apply Permutation_app_head.
      simpl. constructor. apply Permutation_app_head. exact Hperm.
    + intros x. rewrite P2, in_app_iff. simpl. intuition congruence.
    + exact P3.
    + exact Hw.
    + intros x d Hx Hd. destruct (Hr x Hx) as [Hold|Hnew]; [|now apply Hnew].
      apply in_app_iff. left. eapply P5; eassumption.
    + exact P6.
    + intros e' n r' Hin. apply P7. now right.
Qed.

Lemma complete_struct (evs : list Event) (now : Z) (sch : Schedule) :
  forall active ares done wait ready,
    struct_inv evs sch done (map snd ready) wait active ->
    exists active' ares' done' wait' ready',
      complete evs now active ares done wait ready =
        inr (active', ares', done', wait', ready') /\
      struct_inv evs sch done' (map snd ready') wait' active' /\
      (length done <= length done')%nat /\
      (forall a rest, active = a :: rest -> end_of a = now ->
                      (length done < length done')%nat) /\
      (active = [] -> active' = [] /\ done' = done).
Proof.
  induction active as [|[[e c] r] active IH]; intros ares done wait ready Hinv.
  - exists [], ares, done, wait, ready. simpl.
    split; [reflexivity|]. split; [exact Hinv|]. split; [lia|].
    split; [discriminate|auto].
  - cbn [complete]. destruct (e =? now)%Z eqn:He.
    + destruct (complete_one_struct _ _ _ _ _ _ _ _ _ Hinv)
        as [wait1 [ready1 [Hrel Hinv1]]].
      rewrite Hrel. cbn [bind].
      destruct (IH (ares - r) (done ++ [c]) wait1 ready1 Hinv1)
        as [a' [ar' [d' [w' [r' [Hc [Hinv' [Hlen _]]]]]]]].
      exists a', ar', d', w', r'. split; [exact Hc|]. split; [exact Hinv'|].
      rewrite length_app in Hlen. simpl in Hlen.
      split; [lia|]. split; [intros; lia|discriminate].
    + exists ((e, c, r) :: active), ares, done, wait, ready.
      split; [reflexivity|]. split; [exact Hinv|]. split; [lia|].
      split; [|discriminate].
      intros a rest [= <- <-]. unfold end_of. simpl.
      apply Z.eqb_neq in He. contradiction.
Qed.

(** ** Admitting ready tasks *)

Lemma list_max_ge (x : Z) (xs : list Z) :
  x <= list_max x xs /\ forall y, In y xs -> y <= list_max x xs.
Proof.
  unfold list_max. revert x.
  induction xs as [|z xs IH]; intros x; simpl; [split; [lia|tauto]|].
  destruct (IH (Z.max x z)) as [H1 H2]. split; [lia|].
  intros y [<-|Hy]; [lia|now apply H2].
Qed.

Lemma dep_end_times_spec (sch : Schedule) (deps : list string) :
  (forall d, In d deps -> In d (map fst sch)) ->
  exists ends,
    dep_end_times sch deps = inr ends /\
    (forall d, In d deps -> exists sd ed, In (d, (sd, ed)) sch /\ In ed ends) /\
    (deps <> [] -> ends <> []).
Proof.
  induction deps as [|d deps IH]; intros Hkeys.
  - exists []. simpl. split; [reflexivity|]. split; [tauto|congruence].
  - destruct IH as [ends [Hends [Hin _]]];
      [intros; apply Hkeys; now right|].
    cbn [dep_end_times].
    destruct (dict_find sch d) as [[sd ed]|] eqn:Hfind.
    + rewrite Hends. cbn [bind]. exists (ed :: ends).
      split; [reflexivity|]. split; [|discriminate].
      intros d' [<-|Hd'].
      * exists sd, ed. split; [now apply dict_find_some|now left].
      * destruct (Hin d' Hd') as [sd' [ed' [H1 H2]]].
        exists sd', ed'. split; [exact H1|now right].
    + apply dict_find_none in Hfind. exfalso. apply Hfind, Hkeys. now left.
Qed.

Lemma start_time_bound (now : Z) (ends : list Z) :
  now <= start_time_of now ends /\
  forall x, In x ends -> x <= start_time_of now ends.
Proof.
  destruct ends as [|e es]; simpl; [split; [lia|tauto]|].
  destruct (list_max_ge e es) as [H1 H2]. split; [lia|].
  intros x [<-|Hx]; [lia|]. specialize (H2 x Hx). lia.
Qed.

Lemma res_of_find (evs : list Event) (n : string) (e : Event) :
  events_find evs n = Some e -> res_of evs n = resources_required e.
Proof. intros H. unfold res_of. now rewrite H. Qed.

Lemma deps_of_find (evs : list Event) (n : string) (e : Event) :
  events_find evs n = Some e -> deps_of evs n = dependencies e.
Proof. intros H. unfold deps_of. now rewrite H. Qed.

Lemma admission_one_struct (evs : list Event) (sch : Schedule)
    (done : list string) (n : string) (rn : list string)
    (wait : list (string * list string)) (active : list (Z * string * Z)) :
  registry_wf evs ->
  struct_inv evs sch done (n :: rn) wait active ->
  ~ In n (map fst sch) /\
  exists event ends,
    events_get evs n = inr event /\
    events_find evs n = Some event /\
    dep_end_times sch (dependencies event) = inr ends /\
    forall start end_time,
      (forall x, In x ends -> x <= start) ->
      struct_inv evs (dict_set sch n (start, end_time)) done rn wait
        (heappush active_leb active
           (end_time, n, resources_required event)).
Proof.
  intros Hwf Hinv.
  pose proof (struct_inv_nodup _ _ _ _ _ _ Hwf Hinv) as Hnd.
  destruct Hinv as [P1 P2 P3 P4 P5 P6 P7].
  assert (Hfresh : ~ In n (map fst sch)).
  { rewrite P2. intros Hin.
    rewrite app_assoc in Hnd. simpl in Hnd.
    apply NoDup_remove_2 in Hnd. apply Hnd.
    rewrite !in_app_iff. tauto. }
  split; [exact Hfresh|].
  destruct (events_get_registered evs n) as [event [Hget Hfind]].
  { eapply Permutation_in; [exact P1|]. rewrite !in_app_iff. simpl. tauto. }
  destruct (dep_end_times_spec sch (dependencies event))
    as [ends [Hends [Hdeps _]]].
  { intros d Hd. apply P2. left. apply (P5 n d); [now left|].
    now rewrite (deps_of_find _ _ _ Hfind). }
  exists event, ends. repeat (split; [assumption|]).
  intros start end_time Hstart.
  rewrite (dict_set_fresh _ _ _ Hfresh).
  pose proof (heappush_act_names active
                (end_time, n, resources_required event)) as Hact.
  simpl in Hact.
  constructor.
  - rewrite <- P1, Hact. apply Permutation_app_head. simpl.
    apply Permutation_cons_app. reflexivity.
  - intros x. rewrite map_app, in_app_iff, P2. simpl.
    split.
    + intros [[H|H]|[<-|[]]]; [now left| |].
      * right. eapply Permutation_in; [symmetry; exact Hact|]. now right.
      * right. eapply Permutation_in; [symmetry; exact Hact|]. now left.
    + intros [H|H]; [tauto|].
      eapply Permutation_in in H; [|exact Hact].
      destruct H as [<-|H]; tauto.
  - rewrite map_app. simpl. apply NoDup_app; [exact P3| |].
    + repeat constructor. simpl. tauto.
    + intros x Hx [<-|[]]. contradiction.
  - exact P4.
  - intros r d Hr. apply P5. now right.
  - intros b sb eb a Hb Ha. apply in_app_iff in Hb.
    destruct Hb as [Hb|[[= <- <- <-]|[]]].
    + destruct (P6 _ _ _ _ Hb Ha) as [sa [ea [H1 H2]]].
      exists sa, ea. split; [apply in_app_iff; now left|exact H2].
    + rewrite (deps_of_find _ _ _ Hfind) in Ha.
      destruct (Hdeps a Ha) as [sa [ea [H1 H2]]].
      exists sa, ea. split; [apply in_app_iff; now left|now apply Hstart].
  - intros e' n' r' Hin.
    eapply Permutation_in in Hin; [|apply insert_sorted_perm].
    destruct Hin as [[= <- <- <-]|Hin].
    + split; [|symmetry; now apply res_of_find].
      exists start. apply in_app_iff. right. now left.
    + destruct (P7 _ _ _ Hin) as [[st Hst] Hr]. split; [|exact Hr].
      exists st. apply in_app_iff. now left.
Qed.

(** ** Resource accounting *)

Lemma res_of_nonneg (evs : list Event) (n : string) :
  tasks_nonneg evs -> 0 <= res_of evs n.
Proof.
  intros H. unfold res_of. destruct (events_find evs n) as [e|] eqn:He; [|lia].
  apply events_find_some in He. now apply H.
Qed.

Lemma tasks_nonnegb_sound (evs : list Event) :
  tasks_nonnegb evs = true -> tasks_nonneg evs.
Proof.
  unfold tasks_nonnegb, tasks_nonneg. rewrite forallb_forall.
  intros H e He. specialize (H e He).
  apply andb_true_iff in H. rewrite !Z.leb_le in H. exact H.
Qed.

Lemma usage_app (evs : list Event) (sch sch' : Schedule) (t : Z) :
  usage evs (sch ++ sch') t = usage evs sch t + usage evs sch' t.
Proof.
  induction sch as [|[n [st e]] sch IH]; simpl; [reflexivity|].
  rewrite IH. lia.
Qed.

Lemma active_sum_app (evs : list Event) (sch sch' : Schedule)
    (an : list string) :
  active_sum evs (sch ++ sch') an =
  active_sum evs sch an + active_sum evs sch' an.
Proof.
  induction sch as [|[n [st e]] sch IH]; simpl; [reflexivity|].
  rewrite IH. lia.
Qed.

Lemma active_sum_ext (evs : list Event) (sch : Schedule) (an an' : list string) :
  (forall x, In x (map fst sch) -> (In x an <-> In x an')) ->
  active_sum evs sch an = active_sum evs sch an'.
Proof.
  induction sch as [|[n [st e]] sch IH]; simpl; intros H; [reflexivity|].
  rewrite IH by (intros x Hx; apply H; now right).
  assert (Hn : set_mem n an = set_mem n an').
  { destruct (set_mem n an) eqn:H1; symmetry.
    - apply set_mem_iff. apply H; [now left|]. now apply set_mem_iff.
    - apply set_mem_false. apply set_mem_false in H1.
      intros H2. apply H1. apply H; [now left|exact H2]. }
  now rewrite Hn.
Qed.

Lemma active_sum_remove (evs : list Event) (sch : Schedule) (c : string)
    (an : list string) :
  NoDup (map fst sch) -> In c (map fst sch) -> ~ In c an ->
  active_sum evs sch (c :: an) = res_of evs c + active_sum evs sch an.
Proof.
  induction sch as [|[n [st e]] sch IH]; simpl; intros Hnd Hin Hnot;
    [contradiction|].
  inversion Hnd as [|? ? Hnotin Hnd']; subst.
  destruct (String.eqb n c) eqn:Heq.
  - apply String.eqb_eq in Heq. subst n. simpl.
    apply set_mem_false in Hnot. rewrite Hnot.
    rewrite (active_sum_ext evs sch (c :: an) an); [lia|].
    intros x Hx. simpl. split; [|tauto].
    intros [<-|H]; [contradiction|exact H].
  - apply String.eqb_neq in Heq. simpl.
    destruct Hin as [Hin|Hin]; [contradiction|].
    rewrite (IH Hnd' Hin Hnot). lia.
Qed.

Lemma usage_le_active_sum (evs : list Event) (sch : Schedule)
    (an : list string) (t : Z) :
  tasks_nonneg evs ->
  (forall n st e, In (n, (st, e)) sch -> st <= t < e -> In n an) ->
  usage evs sch t <= active_sum evs sch an.
Proof.
  intros Hnn. induction sch as [|[n [st e]] sch IH]; simpl; intros H; [lia|].
  assert (IH' : usage evs sch t <= active_sum evs sch an)
    by (apply IH; intros; eapply H; [right|]; eassumption).
  pose proof (res_of_nonneg evs n Hnn).
  destruct ((st <=? t) && (t <? e))%bool eqn:Hrun.
  - apply andb_true_iff in Hrun. rewrite Z.leb_le, Z.ltb_lt in Hrun.
    assert (Hin : set_mem n an = true).
    { apply set_mem_iff. apply (H n st e); [now left|exact Hrun]. }
    rewrite Hin. lia.
  - destruct (set_mem n an); lia.
Qed.

Lemma active_sum_nonneg (evs : list Event) (sch : Schedule)
    (an : list string) :
  tasks_nonneg evs -> 0 <= active_sum evs sch an.
Proof.
  intros Hnn. induction sch as [|[n [st e]] sch IH]; simpl; [lia|].
  pose proof (res_of_nonneg evs n Hnn). destruct (set_mem n an); lia.
Qed.

Lemma usage_idle (evs : list Event) (sch : Schedule) (t : Z) :
  (forall n st e, In (n, (st, e)) sch -> ~ (st <= t < e)) ->
  usage evs sch t = 0.
Proof.
  induction sch as [|[n [st e]] sch IH]; simpl; intros H; [reflexivity|].
  rewrite IH by (intros; eapply H; right; eassumption).
  destruct ((st <=? t) && (t <? e))%bool eqn:Hrun; [|lia].
  apply andb_true_iff in Hrun. rewrite Z.leb_le, Z.ltb_lt in Hrun.
  exfalso. apply (H n st e); [now left|exact Hrun].
Qed.

Lemma complete_one_res (evs : list Event) (total : Z) (sch : Schedule)
    (done rn : list string) (wait : list (string * list string))
    (e : Z) (c : string) (r : Z) (active : list (Z * string * Z))
    (ares : Z) :
  registry_wf evs -> tasks_nonneg evs ->
  struct_inv evs sch done rn wait ((e, c, r) :: active) ->
  res_inv evs total sch done ((e, c, r) :: active) e ares ->
  res_inv evs total sch (done ++ [c]) active e (ares - r).
Proof.
  intros Hwf Hnn Hs [R1 R2 R3 R4 R5 R6 R7].
  pose proof (struct_inv_nodup _ _ _ _ _ _ Hwf Hs) as Hnd.
  destruct Hs as [P1 P2 P3 P4 P5 P6 P7].
  destruct (P7 e c r (or_introl eq_refl)) as [[st Hst] Hr].
  constructor.
  - rewrite R1. simpl. rewrite active_sum_remove; [lia|exact P3| |].
    + eapply in_keys; exact Hst.
    + apply NoDup_app_remove_l in Hnd. simpl in Hnd.
      inversion Hnd as [|? ? Hnotin _]; subst.
      intros Hin. apply Hnotin. apply in_app_iff. now left.
  - now inversion R2.
  - intros n st' e' Hin Hd. apply in_app_iff in Hd.
    destruct Hd as [Hd|[<-|[]]]; [eapply R3; eassumption|].
    assert (Heq : (st', e') = (st, e))
      by (eapply nodup_keys_unique; eassumption).
    injection Heq as _ ->. lia.
  - exact R4.
  - pose proof (res_of_nonneg evs c Hnn). lia.
  - now inversion R6.
  - exact R7.
Qed.

Lemma complete_res (evs : list Event) (total now : Z) (sch : Schedule) :
  registry_wf evs -> tasks_nonneg evs ->
  forall active ares done wait ready active' ares' done' wait' ready',
    struct_inv evs sch done (map snd ready) wait active ->
    res_inv evs total sch done active now ares ->
    complete evs now active ares done wait ready =
      inr (active', ares', done', wait', ready') ->
    res_inv evs total sch done' active' now ares'.
Proof.
  intros Hwf Hnn.
  induction active as [|[[e c] r] active IH];
    intros ares done wait ready active' ares' done' wait' ready' Hs Hr Hc.
  - simpl in Hc. injection Hc as <- <- <- <- <-. exact Hr.
  - cbn [complete] in Hc. destruct (e =? now)%Z eqn:He.
    + apply Z.eqb_eq in He. subst now.
      destruct (complete_one_struct _ _ _ _ _ _ _ _ _ Hs)
        as [wait1 [ready1 [Hrel Hs1]]].
      rewrite Hrel in Hc. cbn [bind] in Hc.
      eapply IH; [exact Hs1| |exact Hc].
      eapply complete_one_res; eassumption.
    + injection Hc as <- <- <- <- <-. exact Hr.
Qed.

Lemma admission_one_res (evs : list Event) (total : Z) (sch : Schedule)
    (done : list string) (active : list (Z * string * Z)) (now ares : Z)
    (n : string) (event : Event) (start : Z) :
  tasks_nonneg evs ->
  events_find evs n = Some event ->
  ~ In n (map fst sch) ->
  (forall x, In x done \/ In x (act_names active) -> In x (map fst sch)) ->
  now <= start ->
  ares + resources_required event <= total ->
  res_inv evs total sch done active now ares ->
  res_inv evs total (sch ++ [(n, (start, start + duration event))]) done
    (heappush active_leb active
       (start + duration event, n, resources_required event))
    now (ares + resources_required event).
Proof.
  intros Hnn Hfind Hfresh Hkeys Hstart Hfit [R1 R2 R3 R4 R5 R6 R7].
  pose proof (heappush_act_names active
                (start + duration event, n, resources_required event)) as Hact.
  simpl in Hact.
  assert (Hdur : 0 <= duration event).
  { apply events_find_some in Hfind. now apply Hnn. }
  constructor.
  - rewrite active_sum_app. simpl.
    assert (Hn : set_mem n
                   (act_names
                      (heappush active_leb active
                         (start + duration event, n,
                          resources_required event))) = true).
    { apply set_mem_iff. eapply Permutation_in; [symmetry; exact Hact|].
      now left. }
    rewrite Hn, (res_of_find _ _ _ Hfind), R1.
    rewrite (active_sum_ext evs sch
               (act_names
                  (heappush active_leb active
                     (start + duration event, n, resources_required event)))
               (act_names active)); [lia|].
    intros x Hx. split.
    + intros Hin. eapply Permutation_in in Hin; [|exact Hact].
      destruct Hin as [<-|Hin]; [contradiction|exact Hin].
    + intros Hin. eapply Permutation_in; [symmetry; exact Hact|]. now right.
  - eapply Permutation_Forall; [symmetry; apply insert_sorted_perm|].
    constructor; [unfold end_of; simpl; lia|exact R2].
  - intros x st e Hin Hd. apply in_app_iff in Hin.
    destruct Hin as [Hin|[[= <- <- <-]|[]]]; [eapply R3; eassumption|].
    exfalso. apply Hfresh, Hkeys. now left.
  - intros t Ht. rewrite usage_app. simpl.
    destruct ((start <=? t) && (t <? start + duration event))%bool eqn:Hrun.
    + apply andb_true_iff in Hrun. rewrite Z.leb_le in Hrun. lia.
    + specialize (R4 t Ht). lia.
  - exact Hfit.
  - now apply heappush_active_sorted.
  - intros x Hx. rewrite map_app, in_app_iff in Hx. simpl in Hx.
    destruct Hx as [Hx|[<-|[]]]; [now apply R7|].
    rewrite (res_of_find _ _ _ Hfind).
    pose proof (active_sum_nonneg evs sch (act_names active) Hnn). lia.
Qed.

Lemma admission_spec (evs : list Event) (total now : Z) (done : list string)
    (wait : list (string * list string)) :
  registry_wf evs ->
  forall ready sch ares active temp flag,
    struct_inv evs sch done (map snd ready ++ map snd temp) wait active ->
    exists sch' ares' active' temp' flag',
      admission evs total now ready sch ares active temp flag =
        inr (sch', ares', active', temp', flag') /\
      struct_inv evs sch' done (map snd temp') wait active' /\
      (flag' = true -> flag = true \/ active' <> []) /\
      (active <> [] -> active' <> []) /\
      (tasks_nonneg evs ->
       res_inv evs total sch done active now ares ->
       res_inv evs total sch' done active' now ares').
Proof.
  intros Hwf.
  induction ready as [|[prio n] ready IH];
    intros sch ares active temp flag Hs.
  - exists sch, ares, active, temp, flag. simpl. simpl in Hs.
    split; [reflexivity|]. split; [exact Hs|]. split; [now left|].
    split; auto.
  - simpl in Hs.
    destruct (admission_one_struct _ _ _ _ _ _ _ Hwf Hs)
      as [Hfresh [event [ends [Hget [Hfind [Hends Hnext]]]]]].
    cbn [admission]. rewrite Hget. cbn [lift_at bind].
    destruct (ares + resources_required event <=? total) eqn:Hfit.
    + rewrite Hends. cbn [lift_at bind].
      destruct (start_time_bound now ends) as [Hnow Hstart].
      set (start := start_time_of now ends) in *.
      cbv zeta.
      specialize (Hnext start (start + duration event) Hstart).
      destruct (IH _ (ares + resources_required event) _ temp true Hnext)
        as [sch' [ares' [act' [temp' [flag' [Hadm [Hs' [_ [Hne Hres]]]]]]]]].
      exists sch', ares', act', temp', flag'.
      split; [exact Hadm|]. split; [exact Hs'|].
      assert (Hact' : act' <> []).
      { apply Hne. intros Hnil.
        pose proof (heappush_act_names active
                      (start + duration event, n, resources_required event))
          as Hp.
        rewrite Hnil in Hp. apply Permutation_nil in Hp. discriminate. }
      split; [intros _; now right|]. split; [intros _; exact Hact'|].
      intros Hnn Hr. apply Hres; [exact Hnn|].
      rewrite (dict_set_fresh _ _ _ Hfresh).
      apply admission_one_res; try assumption.
      * intros x Hx. now apply (si_keys _ _ _ _ _ _ Hs).
      * now apply Z.leb_le.
    + assert (Hs2 : struct_inv evs sch done
                      (map snd ready ++ map snd (temp ++ [(prio, n)]))
                      wait active).
      { eapply struct_inv_ready_perm; [|exact Hs].
        rewrite map_app. simpl. rewrite app_assoc.
        rewrite <- Permutation_cons_append.
        reflexivity. }
      destruct (IH sch ares active _ flag Hs2)
        as [sch' [ares' [act' [temp' [flag' [Hadm H]]]]]].
      exists sch', ares', act', temp', flag'. split; [exact Hadm|exact H].
Qed.

(** ** Advancing the clock *)

Lemma res_advance (evs : list Event) (total : Z) (sch : Schedule)
    (done rn : list string) (wait : list (string * list string))
    (a : Z * string * Z) (active : list (Z * string * Z)) (now ares : Z) :
  tasks_nonneg evs ->
  struct_inv evs sch done rn wait (a :: active) ->
  res_inv evs total sch done (a :: active) now ares ->
  res_inv evs total sch done (a :: active) (end_of a) ares.
Proof.
  intros Hnn [P1 P2 P3 P4 P5 P6 P7] [R1 R2 R3 R4 R5 R6 R7].
  assert (Hnow : now <= end_of a) by now inversion R2.
  constructor; try assumption.
  - inversion R6 as [|? ? _ Hhd]; subst.
    constructor; [lia|exact Hhd].
  - intros n st e Hin Hd. specialize (R3 n st e Hin Hd). lia.
  - intros t Ht. destruct (Z.lt_ge_cases t now) as [Hlt|Hge];
      [now apply R4|].
    rewrite R1 in R5.
    eapply Z.le_trans; [|exact R5].
    apply usage_le_active_sum; [exact Hnn|].
    intros n st e Hin Hrun.
    assert (Hk : In n done \/ In n (act_names (a :: active))).
    { apply P2. eapply in_keys. exact Hin. }
    destruct Hk as [Hd|Hact]; [|exact Hact].
    specialize (R3 n st e Hin Hd). lia.
Qed.

Lemma res_final (evs : list Event) (total : Z) (sch : Schedule)
    (done rn : list string) (wait : list (string * list string))
    (now ares : Z) :
  0 <= total ->
  struct_inv evs sch done rn wait [] ->
  res_inv evs total sch done [] now ares ->
  forall t, usage evs sch t <= total.
Proof.
  intros Htot [P1 P2 P3 P4 P5 P6 P7] [R1 R2 R3 R4 R5 R6 R7] t.
  destruct (Z.lt_ge_cases t now) as [Hlt|Hge]; [now apply R4|].
  rewrite usage_idle; [exact Htot|].
  intros n st e Hin Hrun.
  assert (Hk : In n done \/ In n (act_names [])).
  { apply P2. eapply in_keys. exact Hin. }
  destruct Hk as [Hd|[]].
  specialize (R3 n st e Hin Hd). lia.
Qed.

(** ** No task waits for ever *)

Lemma order_prefix_done (evs : list Event) (sch : Schedule)
    (done : list string) (wait : list (string * list string))
    (order : list string) :
  struct_inv evs sch done [] wait [] ->
  Permutation order (names evs) ->
  deps_before evs order ->
  forall l1 l2, order = l1 ++ l2 -> forall x, In x l1 -> In x done.
Proof.
  intros [P1 P2 P3 P4 P5 P6 P7] Hperm Hbefore.
  induction l1 as [|x l1 IH] using rev_ind; intros l2 Heq y Hy;
    [contradiction|].
  rewrite <- app_assoc in Heq. simpl in Heq.
  apply in_app_iff in Hy. destruct Hy as [Hy|[<-|[]]];
    [eapply IH; eassumption|].
  assert (Hx : In x (done ++ act_names [] ++ [] ++ map fst wait)).
  { eapply Permutation_in; [symmetry; exact P1|].
    eapply Permutation_in; [exact Hperm|].
    rewrite Heq. apply in_app_iff. right. now left. }
  simpl in Hx. apply in_app_iff in Hx. destruct Hx as [Hx|Hx]; [exact Hx|].
  exfalso. apply keys_in in Hx. destruct Hx as [deps Hw].
  destruct (P4 x deps Hw) as [Hne Hdeps].
  destruct deps as [|d deps]; [congruence|].
  destruct (proj1 (Hdeps d) (or_introl eq_refl)) as [Hd Hnd].
  apply Hnd. apply (IH (x :: l2) Heq). eapply Hbefore; eassumption.
Qed.

Lemma waiting_empty (evs : list Event) (sch : Schedule)
    (done : list string) (wait : list (string * list string))
    (order : list string) :
  struct_inv evs sch done [] wait [] ->
  Permutation order (names evs) ->
  deps_before evs order ->
  wait = [].
Proof.
  intros Hs Hperm Hbefore.
  destruct wait as [|[w deps] wait]; [reflexivity|]. exfalso.
  destruct (si_wait _ _ _ _ _ _ Hs w deps (or_introl eq_refl)) as [Hne Hdeps].
  destruct deps as [|d deps]; [congruence|].
  destruct (proj1 (Hdeps d) (or_introl eq_refl)) as [Hd Hnd].
  assert (Hw : In w order).
  { eapply Permutation_in; [symmetry; exact Hperm|].
    eapply Permutation_in; [exact (si_part _ _ _ _ _ _ Hs)|].
    rewrite !in_app_iff. simpl. tauto. }
  apply in_split in Hw. destruct Hw as [l1 [l2 Heq]].
  apply Hnd.
  apply (order_prefix_done _ _ _ _ _ Hs Hperm Hbefore l1 (w :: l2) Heq).
  eapply Hbefore; eassumption.
Qed.

(** ** One pass of the simulation loop *)

Lemma struct_done_bound (evs : list Event) (sch : Schedule)
    (done rn : list string) (wait : list (string * list string))
    (active : list (Z * string * Z)) :
  struct_inv evs sch done rn wait active ->
  (length done <= length evs)%nat.
Proof.
  intros Hs. pose proof (Permutation_length (si_part _ _ _ _ _ _ Hs)) as H.
  unfold names in H. rewrite length_app, length_map in H. lia.
Qed.

Lemma heappush_all_names (temp : list (Z * string)) :
  Permutation (map snd (heappush_all key_leb [] temp)) (map snd temp).
Proof.
  apply Permutation_map. rewrite heappush_all_perm. now rewrite app_nil_r.
Qed.

Lemma sim_step_spec (evs : list Event) (total : Z) (order : list string)
    (s : Sim) :
  registry_wf evs ->
  Permutation order (names evs) -> deps_before evs order ->
  sim_struct evs s ->
  exists brk s',
    sim_step evs total s = inr (brk, s') /\
    sim_struct evs s' /\
    (brk = true -> active_events s' = []) /\
    (brk = false -> head_due s') /\
    (head_due s -> brk = false ->
     sim_running s' = false \/
     (sim_measure evs s' < sim_measure evs s)%nat) /\
    (tasks_nonneg evs -> sim_res evs total s -> sim_res evs total s').
Proof.
  intros Hwf Hperm Hbefore Hs. unfold sim_struct in Hs.
  destruct s as [sch done ready wait now ares active]. simpl in Hs.
  unfold sim_step. cbn [sim_schedule scheduled ready_queue waiting
                        current_time active_resources active_events].
  destruct (complete_struct evs now sch active ares done wait ready Hs)
    as [act1 [ares1 [done1 [wait1 [ready1
          [Hc [Hs1 [Hlen [Hpop Hnil]]]]]]]]].
  rewrite Hc. cbn [lift_at bind].
  assert (Hs1' : struct_inv evs sch done1
                   (map snd ready1 ++ map snd (@nil (Z * string)))
                   wait1 act1) by (simpl; now rewrite app_nil_r).
  destruct (admission_spec evs total now done1 wait1 Hwf ready1 sch ares1 act1
              [] false Hs1')
    as [sch' [ares' [act' [temp' [flag' [Ha [Hs2 [Hflag [Hne Hres]]]]]]]]].
  rewrite Ha. cbn [bind].
  assert (Hs3 : struct_inv evs sch' done1
                  (map snd (heappush_all key_leb [] temp')) wait1 act').
  { eapply struct_inv_ready_perm; [|exact Hs2].
    symmetry. apply heappush_all_names. }
  assert (Hres' : tasks_nonneg evs ->
                  res_inv evs total sch done active now ares ->
                  res_inv evs total sch' done1 act' now ares').
  { intros Hnn Hr. apply Hres; [exact Hnn|].
    exact (complete_res evs total now sch Hwf Hnn _ _ _ _ _ _ _ _ _ _
             Hs Hr Hc). }
  pose proof (struct_done_bound _ _ _ _ _ _ Hs3) as Hbound.
  destruct act' as [|[[e n] r] act'].
  - destruct (heappush_all key_leb [] temp') as [|k ready'] eqn:Hready.
    + exists false. eexists. split; [reflexivity|].
      split; [exact Hs3|]. split; [reflexivity|].
      split; [intros _; exact I|]. split.
      * intros _ _. left. unfold sim_running. simpl.
        now rewrite (waiting_empty _ _ _ _ _ Hs3 Hperm Hbefore).
      * exact Hres'.
    + assert (Hf : flag' = false).
      { destruct flag'; [|reflexivity].
        destruct (Hflag eq_refl) as [H|H]; congruence. }
      subst flag'. exists true. eexists. split; [reflexivity|].
      split; [exact Hs3|]. split; [reflexivity|].
      split; [discriminate|]. split; [discriminate|exact Hres'].
  - exists false. eexists. split; [reflexivity|].
    split; [exact Hs3|]. split; [discriminate|].
    split; [reflexivity|]. split.
    + intros Hdue _. right. unfold sim_measure, head_due in *. simpl in *.
      destruct active as [|a active].
      * destruct (Hnil eq_refl) as [_ ->]. lia.
      * specialize (Hpop a active eq_refl Hdue). lia.
    + intros Hnn Hr. unfold sim_res in *. simpl in *.
      apply (res_advance evs total sch' done1 _ wait1 (e, n, r) act' now ares'
               Hnn Hs3).
      now apply Hres'.
Qed.

(** ** Filling the queues *)

Lemma init_queues_spec (evs : list Event) :
  forall l ready wait,
    (forall n, In n l -> In n (names evs)) ->
    NoDup (l ++ map fst wait) ->
    exists ready' wait',
      init_queues evs l ready wait = inr (ready', wait') /\
      Permutation (map snd ready' ++ map fst wait')
        (l ++ map snd ready ++ map fst wait) /\
      (forall r, In r (map snd ready') ->
                 In r (map snd ready) \/ deps_of evs r = []) /\
      (forall w deps, In (w, deps) wait' ->
                      In (w, deps) wait \/
                      (deps_of evs w <> [] /\ deps = to_set (deps_of evs w))).
Proof.
  induction l as [|n l IH]; intros ready wait Hreg Hnd.
  - exists ready, wait. simpl. split; [reflexivity|].
    split; [reflexivity|]. split; auto.
  - destruct (events_get_registered evs n) as [event [Hget Hfind]];
      [apply Hreg; now left|].
    cbn [init_queues]. rewrite Hget. cbn [bind].
    simpl in Hnd. inversion Hnd as [|? ? Hnotin Hnd']; subst.
    assert (Hreg' : forall m, In m l -> In m (names evs))
      by (intros; apply Hreg; now right).
    destruct (dependencies event) as [|d deps] eqn:Hdeps.
    + destruct (IH (heappush key_leb ready (priority event, n)) wait
                  Hreg' Hnd')
        as [ready' [wait' [Hinit [Hperm [Hr Hw]]]]].
      exists ready', wait'. split; [exact Hinit|]. split; [|split].
      * rewrite Hperm, heappush_names. simpl.
        symmetry. apply Permutation_middle.
      * intros r Hin. destruct (Hr r Hin) as [Hold|Hnew]; [|now right].
        eapply Permutation_in in Hold; [|apply heappush_names].
        destruct Hold as [<-|Hold]; [|now left].
        right. simpl. now rewrite (deps_of_find _ _ _ Hfind).
      * exact Hw.
    + assert (Hfresh : ~ In n (map fst wait)).
      { intros Hin. apply Hnotin. apply in_app_iff. now right. }
      rewrite (dict_set_fresh _ _ _ Hfresh).
      destruct (IH ready (wait ++ [(n, to_set (d :: deps))]) Hreg')
        as [ready' [wait' [Hinit [Hperm [Hr Hw]]]]].
      { rewrite map_app. simpl.
        eapply Permutation_NoDup; [|exact Hnd].
        rewrite app_assoc. apply Permutation_cons_append. }
      exists ready', wait'. split; [exact Hinit|]. split; [|split].
      * rewrite Hperm, map_app. simpl.
        rewrite !app_assoc. rewrite <- Permutation_cons_append.
        simpl. rewrite <- !app_assoc. reflexivity.
      * exact Hr.
      * intros w deps' Hin. destruct (Hw w deps' Hin) as [Hold|Hnew];
          [|now right].
        apply in_app_iff in Hold.
        destruct Hold as [Hold|[[= <- <-]|[]]]; [now left|].
        right. rewrite (deps_of_find _ _ _ Hfind), Hdeps.
        split; [discriminate|reflexivity].
Qed.

Lemma init_struct (evs : list Event) (order : list string) :
  registry_wf evs ->
  Permutation order (names evs) ->
  exists ready wait,
    init_queues evs order [] [] = inr (ready, wait) /\
    sim_struct evs (mkSim [] [] ready wait 0 0 []).
Proof.
  intros Hwf Hperm.
  destruct (init_queues_spec evs order [] [])
    as [ready [wait [Hinit [Hp [Hr Hw]]]]].
  - intros n Hn. eapply Permutation_in; eassumption.
  - simpl. rewrite app_nil_r.
    eapply Permutation_NoDup; [symmetry; exact Hperm|exact Hwf].
  - exists ready, wait. split; [exact Hinit|].
    unfold sim_struct. simpl. constructor.
    + simpl. rewrite Hp. simpl. now rewrite app_nil_r.
    + simpl. tauto.
    + constructor.
    + intros w deps Hin. destruct (Hw w deps Hin) as [[]|[Hne ->]].
      split; [now apply to_set_nonempty|].
      intros d. rewrite to_set_in. simpl. tauto.
    + intros r d Hin Hd. destruct (Hr r Hin) as [[]|Hnil].
      rewrite Hnil in Hd. contradiction.
    + intros b sb eb a [].
    + intros e n r [].
Qed.

Lemma init_res (evs : list Event) (total : Z) :
  0 <= total -> res_inv evs total [] [] [] 0 0.
Proof.
  intros Htot. constructor; simpl; try constructor; try tauto; try lia.
Qed.

(** ** The simulation loop *)

Section SimLoop.
Variable evs : list Event.
Variable total : Z.
Variable order : list string.
Hypothesis Hwf : registry_wf evs.
Hypothesis Hperm : Permutation order (names evs).
Hypothesis Hbefore : deps_before evs order.

Lemma sim_idle_active (s : Sim) :
  sim_running s = false -> active_events s = [].
Proof.
  unfold sim_running.
  destruct (ready_queue s), (active_events s), (waiting s);
    try discriminate; reflexivity.
Qed.

Lemma sim_loop_inv :
  forall fuel s res,
    sim_struct evs s ->
    sim_loop fuel evs total s = Some res ->
    exists s',
      res = inr (sim_schedule s') /\
      sim_struct evs s' /\
      active_events s' = [] /\
      (tasks_nonneg evs -> sim_res evs total s -> sim_res evs total s').
Proof.
  induction fuel as [|fuel IH]; intros s res Hs Hloop.
  - simpl in Hloop. destruct (sim_running s) eqn:Hrun; [discriminate|].
    injection Hloop as <-. exists s.
    split; [reflexivity|]. split; [exact Hs|].
    split; [now apply sim_idle_active|auto].
  - cbn [sim_loop] in Hloop. destruct (sim_running s) eqn:Hrun.
    + destruct (sim_step_spec evs total order s Hwf Hperm Hbefore Hs)
        as [brk [s1 [Hstep [Hs1 [Hbrk [_ [_ Hres]]]]]]].
      rewrite Hstep in Hloop. destruct brk.
      * injection Hloop as <-. exists s1.
        split; [reflexivity|]. split; [exact Hs1|].
        split; [now apply Hbrk|exact Hres].
      * destruct (IH s1 res Hs1 Hloop) as [s' [Hr [Hs' [Ha Hres']]]].
        exists s'. split; [exact Hr|]. split; [exact Hs'|].
        split; [exact Ha|]. intros Hnn Hri. apply Hres'; [exact Hnn|].
        now apply Hres.
    + injection Hloop as <-. exists s.
      split; [reflexivity|]. split; [exact Hs|].
      split; [now apply sim_idle_active|auto].
Qed.

Lemma sim_loop_terminates :
  forall fuel s,
    sim_struct evs s -> head_due s ->
    (sim_measure evs s < fuel)%nat ->
    exists res, sim_loop fuel evs total s = Some res.
Proof.
  induction fuel as [|fuel IH]; intros s Hs Hdue Hfuel; [lia|].
  cbn [sim_loop]. destruct (sim_running s) eqn:Hrun; [|eauto].
  destruct (sim_step_spec evs total order s Hwf Hperm Hbefore Hs)
    as [brk [s1 [Hstep [Hs1 [_ [Hdue1 [Hprog _]]]]]]].
  rewrite Hstep. destruct brk; [eauto|].
  destruct (Hprog Hdue eq_refl) as [Hidle|Hless].
  - destruct fuel; simpl; rewrite Hidle; eauto.
  - apply IH; [exact Hs1|now apply Hdue1|lia].
Qed.
End SimLoop.

(** ** Fuel *)

Lemma topo_loop_mono (evs : list Event) (adj : string -> list string) :
  forall fuel fuel' deg heap so batches res,
    (fuel <= fuel')%nat ->
    topo_loop fuel evs adj deg heap so batches = Some res ->
    topo_loop fuel' evs adj deg heap so batches = Some res.
Proof.
  induction fuel as [|fuel IH]; intros fuel' deg heap so batches res Hle;
    destruct heap as [|k heap]; cbn [topo_loop]; try discriminate;
    destruct fuel' as [|fuel']; cbn [topo_loop]; try lia; auto.
  destruct (topo_round evs adj deg (k :: heap) so)
    as [err|[[[level deg'] so'] heap']]; [auto|].
  apply IH. lia.
Qed.

Lemma topological_sort_mono (evs : list Event) (fuel fuel' : nat)
    (res : result (list string)) :
  (fuel <= fuel')%nat ->
  topological_sort fuel evs = Some res ->
  topological_sort fuel' evs = Some res.
Proof.
  intros Hle. unfold topological_sort, topo_run.
  destruct (build_graph evs evs empty_graph) as [err|g]; [auto|].
  match goal with
  | |- context [topo_loop fuel ?e ?a ?d ?h ?s ?b] =>
      destruct (topo_loop fuel e a d h s b) as [r|] eqn:Hloop;
      [|discriminate];
      rewrite (topo_loop_mono e a fuel fuel' d h s b r Hle Hloop)
  end.
  auto.
Qed.

Lemma sim_loop_mono (evs : list Event) (total : Z) :
  forall fuel fuel' s res,
    (fuel <= fuel')%nat ->
    sim_loop fuel evs total s = Some res ->
    sim_loop fuel' evs total s = Some res.
Proof.
  induction fuel as [|fuel IH]; intros fuel' s res Hle;
    destruct fuel' as [|fuel']; cbn [sim_loop]; try lia; auto;
    destruct (sim_running s); try discriminate; auto.
  destruct (sim_step evs total s) as [err|[[|] s']]; auto.
  apply IH. lia.
Qed.

Lemma schedule_events_mono (fuel fuel' : nat) (s : EventScheduler)
    (res : EventScheduler * result Schedule) :
  (fuel <= fuel')%nat ->
  schedule_events fuel s = Some res ->
  schedule_events fuel' s = Some res.
Proof.
  intros Hle. unfold schedule_events.
  destruct (topological_sort fuel (events s)) as [r|] eqn:Hsort;
    [|discriminate].
  rewrite (topological_sort_mono _ _ _ _ Hle Hsort).
  destruct r as [err|order]; [auto|].
  destruct (init_queues (events s) order [] []) as [err|[ready wait]]; [auto|].
  destruct (sim_loop fuel (events s) (total_resources s)
              (mkSim [] [] ready wait 0 0 [])) as [r|] eqn:Hloop;
    [|discriminate].
  now rewrite (sim_loop_mono _ _ _ _ _ _ Hle Hloop).
Qed.

(** ** [schedule_events] as a whole *)

Lemma schedule_events_inr (fuel : nat) (s s' : EventScheduler)
    (sch : Schedule) :
  registry_wf (events s) ->
  schedule_events fuel s = Some (s', inr sch) ->
  s' = set_schedule s sch /\
  exists sim,
    sim_struct (events s) sim /\
    active_events sim = [] /\
    sim_schedule sim = sch /\
    (tasks_nonneg (events s) -> 0 <= total_resources s ->
     sim_res (events s) (total_resources s) sim).
Proof.
  intros Hwf Hrun. unfold schedule_events in Hrun.
  destruct (topological_sort fuel (events s)) as [[err|order]|] eqn:Hsort;
    try discriminate.
  destruct (topological_sort_inr _ _ _ Hwf Hsort) as [Hperm [Hbefore _]].
  destruct (init_struct _ _ Hwf Hperm) as [ready [wait [Hinit Hs0]]].
  rewrite Hinit in Hrun.
  destruct (sim_loop fuel (events s) (total_resources s)
              (mkSim [] [] ready wait 0 0 [])) as [res|] eqn:Hloop;
    [|discriminate].
  destruct (sim_loop_inv (events s) (total_resources s) order Hwf Hperm
              Hbefore fuel _ res Hs0 Hloop)
    as [sim [-> [Hs [Hact Hres]]]].
  injection Hrun as <- <-. split; [reflexivity|].
  exists sim. split; [exact Hs|]. split; [exact Hact|].
  split; [reflexivity|].
  intros Hnn Htot. apply Hres; [exact Hnn|].
  unfold sim_res. simpl. now apply init_res.
Qed.

Lemma schedule_events_returns (fuel : nat) (s : EventScheduler)
    (order : list string) :
  registry_wf (events s) ->
  topological_sort fuel (events s) = Some (inr order) ->
  (2 * length (events s) + 1 < fuel)%nat ->
  exists sch, schedule_events fuel s = Some (set_schedule s sch, inr sch).
Proof.
  intros Hwf Hsort Hfuel. unfold schedule_events. rewrite Hsort.
  destruct (topological_sort_inr _ _ _ Hwf Hsort) as [Hperm [Hbefore _]].
  destruct (init_struct _ _ Hwf Hperm) as [ready [wait [Hinit Hs0]]].
  rewrite Hinit.
  destruct (sim_loop_terminates (events s) (total_resources s) order Hwf
              Hperm Hbefore fuel (mkSim [] [] ready wait 0 0 []) Hs0)
    as [res Hloop].
  - exact I.
  - unfold sim_measure. simpl. lia.
  - rewrite Hloop.
    destruct (sim_loop_inv (events s) (total_resources s) order Hwf Hperm
                Hbefore fuel _ res Hs0 Hloop)
      as [sim [-> _]].
    eauto.
Qed.

Lemma schedule_events_inl (fuel : nat) (s s' : EventScheduler) (err : exn) :
  registry_wf (events s) ->
  schedule_events fuel s = Some (s', inl err) ->
  s' = set_schedule s [] /\ topological_sort fuel (events s) = Some (inl err).
Proof.
  intros Hwf Hrun. unfold schedule_events in Hrun.
  destruct (topological_sort fuel (events s)) as [[err'|order]|] eqn:Hsort;
    try discriminate.
  - injection Hrun as <- <-. auto.
  - exfalso.
    destruct (topological_sort_inr _ _ _ Hwf Hsort) as [Hperm [Hbefore _]].
    destruct (init_struct _ _ Hwf Hperm) as [ready [wait [Hinit Hs0]]].
    rewrite Hinit in Hrun.
    destruct (sim_loop fuel (events s) (total_resources s)
                (mkSim [] [] ready wait 0 0 [])) as [res|] eqn:Hloop;
      [|discriminate].
    destruct (sim_loop_inv (events s) (total_resources s) order Hwf Hperm
                Hbefore fuel _ res Hs0 Hloop)
      as [sim [-> _]].
    discriminate.
Qed.

Lemma schedule_keys_registered (evs : list Event) (sim : Sim) :
  sim_struct evs sim ->
  forall n, In n (map fst (sim_schedule sim)) -> In n (names evs).
Proof.
  intros Hs n Hn. apply (si_keys _ _ _ _ _ _ Hs) in Hn.
  eapply Permutation_in; [exact (si_part _ _ _ _ _ _ Hs)|].
  rewrite !in_app_iff. tauto.
Qed.

(** ** [check_deadlines] *)

Lemma check_deadlines_loop_spec (evs : list Event) :
  forall sch missed,
    (forall n, In n (map fst sch) -> In n (names evs)) ->
    exists missed',
      check_deadlines_loop evs sch missed = inr (missed ++ missed') /\
      forall n d e,
        In (n, d, e) missed' <->
        exists st ev,
          In (n, (st, e)) sch /\ events_find evs n = Some ev /\
          deadline ev = d /\ 0 < d /\ d < e.
Proof.
  induction sch as [|[n [st e]] sch IH]; intros missed Hreg.
  - exists []. simpl. rewrite app_nil_r. split; [reflexivity|].
    intros n d e. split; [tauto|]. intros [st [ev [[] _]]].
  - destruct (events_get_registered evs n) as [ev [Hget Hfind]];
      [apply Hreg; now left|].
    assert (Hreg' : forall m, In m (map fst sch) -> In m (names evs))
      by (intros; apply Hreg; now right).
    cbn [check_deadlines_loop]. rewrite Hget. cbn [bind].
    destruct ((deadline ev >? 0) && (e >? deadline ev))%bool eqn:Hmiss.
    + apply andb_true_iff in Hmiss. rewrite !Z.gtb_lt in Hmiss.
      destruct (IH (missed ++ [(n, deadline ev, e)]) Hreg')
        as [missed' [Hloop Hiff]].
      exists ((n, deadline ev, e) :: missed').
      split; [rewrite Hloop, <- app_assoc; reflexivity|].
      intros n' d' e'. simpl. rewrite Hiff. split.
      * intros [[= <- <- <-]|[st' [ev' [Hin H]]]].
        -- exists st, ev. tauto.
        -- exists st', ev'. tauto.
      * intros [st' [ev' [[[= <- <- <-]|Hin] [Hf [Hd Hlt]]]]].
        -- left. congruence.
        -- right. exists st', ev'. tauto.
    + destruct (IH missed Hreg') as [missed' [Hloop Hiff]].
      exists missed'. split; [exact Hloop|].
      intros n' d' e'. rewrite Hiff. split.
      * intros [st' [ev' [Hin H]]]. exists st', ev'. simpl. tauto.
      * intros [st' [ev' [[[= <- <- <-]|Hin] [Hf [Hd Hlt]]]]].
        -- exfalso. rewrite Hfind in Hf. injection Hf as <-. subst d'.
           apply andb_false_iff in Hmiss. rewrite !Z.gtb_ltb in Hmiss.
           rewrite !Z.ltb_ge in Hmiss. lia.
        -- exists st', ev'. tauto.
Qed.

(** ** Deciding the hypotheses on a concrete registry *)

Lemma distinctb_sound (l : list string) : distinctb l = true -> NoDup l.
Proof.
  induction l as [|x l IH]; simpl; intros H; [constructor|].
  apply andb_true_iff in H. destruct H as [Hx Hl].
  constructor; [|now apply IH].
  apply set_mem_false. now destruct (set_mem x l).
Qed.

Lemma registry_wfb_sound (evs : list Event) :
  registry_wfb evs = true -> registry_wf evs.
Proof. apply distinctb_sound. Qed.

Lemma rankedb_acyclic (rank : string -> nat) (evs : list Event) :
  rankedb rank evs = true -> acyclic evs.
Proof.
  unfold rankedb. rewrite forallb_forall. intros Hrank.
  assert (Hstep : forall b a, depends_on evs b a -> (rank a < rank b)%nat).
  { intros b a [_ Ha]. unfold deps_of in Ha.
    destruct (events_find evs b) as [e|] eqn:He; [|contradiction].
    apply events_find_some in He. destruct He as [Hin <-].
    specialize (Hrank e Hin). rewrite forallb_forall in Hrank.
    apply Nat.ltb_lt. now apply Hrank. }
  assert (Hpath : forall b a, clos_trans string (depends_on evs) b a ->
                              (rank a < rank b)%nat).
  { induction 1 as [b a H|b c a _ IH1 _ IH2]; [now apply Hstep|lia]. }
  intros x Hx. apply Hpath in Hx. lia.
Qed.

(** ** The scenario of the specification, run *)

Lemma scenario_run :
  schedule_events 4 scenario =
  Some (set_schedule scenario scenario_schedule, inr scenario_schedule).
Proof. vm_compute. reflexivity. Qed.

Lemma scenario_run_any (fuel : nat) (res : EventScheduler * result Schedule) :
  schedule_events fuel scenario = Some res ->
  res = (set_schedule scenario scenario_schedule, inr scenario_schedule).
Proof.
  intros H.
  apply (schedule_events_mono fuel (fuel + 4)) in H; [|lia].
  pose proof (schedule_events_mono 4 (fuel + 4) _ _ ltac:(lia) scenario_run)
    as H'.
  congruence.
Qed.

(** ** The batches of [topological_sort] *)

Lemma emitted_before_S (evs : list Event) (k : nat) (x : string) :
  emitted_before evs (S k) x = true <->
  In x (names evs) /\
  forall d, In d (deps_of evs x) -> emitted_before evs k d = true.
Proof.
  cbn [emitted_before].
  rewrite andb_true_iff, events_mem_iff, forallb_forall. reflexivity.
Qed.

Lemma emitted_before_mono (evs : list Event) (k : nat) :
  forall x, emitted_before evs k x = true ->
            emitted_before evs (S k) x = true.
Proof.
  induction k as [|k IH]; intros x Hx; [discriminate|].
  apply emitted_before_S in Hx. destruct Hx as [Hreg Hdeps].
  apply emitted_before_S. split; [exact Hreg|].
  intros d Hd. apply IH. now apply Hdeps.
Qed.

Lemma emitted_before_le (evs : list Event) (x : string) (i j : nat) :
  (i <= j)%nat -> emitted_before evs i x = true ->
  emitted_before evs j x = true.
Proof.
  induction 1 as [|j _ IH]; intros Hx; [exact Hx|].
  apply emitted_before_mono. now apply IH.
Qed.

Lemma ready_in_batch_unique (evs : list Event) (x : string) (i j : nat) :
  ready_in_batch evs x i -> ready_in_batch evs x j -> i = j.
Proof.
  intros [Hi1 Hi0] [Hj1 Hj0].
  destruct (Nat.lt_trichotomy i j) as [Hlt|[Heq|Hgt]]; [|exact Heq|].
  - rewrite (emitted_before_le evs x (S i) j Hlt Hi1) in Hj0. discriminate.
  - rewrite (emitted_before_le evs x (S j) i Hgt Hj1) in Hi0. discriminate.
Qed.

Lemma ready_in_batchb_iff (evs : list Event) (x : string) (k : nat) :
  ready_in_batchb evs x k = true <-> ready_in_batch evs x k.
Proof.
  unfold ready_in_batchb, ready_in_batch.
  rewrite andb_true_iff, negb_true_iff. reflexivity.
Qed.

Lemma emitted_before_batch (evs : list Event) (x : string) (k : nat) :
  emitted_before evs (S k) x = true ->
  exists j, (j <= k)%nat /\ ready_in_batch evs x j.
Proof.
  induction k as [|k IH]; intros Hx.
  - exists 0%nat. split; [lia|]. split; [exact Hx|reflexivity].
  - destruct (emitted_before evs (S k) x) eqn:Hk.
    + destruct (IH eq_refl) as [j [Hj Hb]]. exists j. split; [lia|exact Hb].
    + exists (S k). split; [lia|]. split; [exact Hx|exact Hk].
Qed.

(** Batch 0 holds the registered tasks without dependencies. *)
Lemma ready_in_batch_0 (evs : list Event) (x : string) :
  ready_in_batch evs x 0 <-> In x (names evs) /\ deps_of evs x = [].
Proof.
  unfold ready_in_batch. rewrite emitted_before_S. cbn [emitted_before].
  split.
  - intros [[Hreg Hdeps] _]. split; [exact Hreg|].
    destruct (deps_of evs x) as [|d ds]; [reflexivity|].
    specialize (Hdeps d (or_introl eq_refl)). discriminate.
  - intros [Hreg Hnil]. split; [|reflexivity]. split; [exact Hreg|].
    rewrite Hnil. intros d [].
Qed.

(** Batch [k + 1] holds the registered tasks whose dependencies are all in
    batches up to [k], one of them in batch [k]. *)
Lemma ready_in_batch_S (evs : list Event) (x : string) (k : nat) :
  ready_in_batch evs x (S k) <->
  In x (names evs) /\
  (forall d, In d (deps_of evs x) ->
             exists j, (j <= k)%nat /\ ready_in_batch evs d j) /\
  (exists d, In d (deps_of evs x) /\ ready_in_batch evs d k).
Proof.
  split.
  - intros [H1 H0]. apply emitted_before_S in H1. destruct H1 as [Hreg Hdeps].
    split; [exact Hreg|]. split.
    + intros d Hd. apply emitted_before_batch. now apply Hdeps.
    + cbn [emitted_before] in H0. apply events_mem_iff in Hreg.
      rewrite Hreg in H0. cbn [andb] in H0.
      assert (Hex : existsb (fun d => negb (emitted_before evs k d))
                      (deps_of evs x) = true).
      { clear Hdeps Hreg. induction (deps_of evs x) as [|d ds IH];
          [discriminate|].
        cbn [forallb existsb] in *.
        destruct (emitted_before evs k d); cbn [negb andb orb] in *;
          [now apply IH|reflexivity]. }
      apply existsb_exists in Hex. destruct Hex as [d [Hd Hneg]].
      apply negb_true_iff in Hneg.
      exists d. split; [exact Hd|]. split; [now apply Hdeps|exact Hneg].
  - intros [Hreg [Hall [d [Hd [_ Hd0]]]]]. split.
    + apply emitted_before_S. split; [exact Hreg|].
      intros d' Hd'. destruct (Hall d' Hd') as [j [Hj [Hj1 _]]].
      apply (emitted_before_le evs d' (S j) (S k)); [lia|exact Hj1].
    + destruct (emitted_before evs (S k) x) eqn:Hx; [|reflexivity].
      apply emitted_before_S in Hx. destruct Hx as [_ Hdeps].
      rewrite (Hdeps d Hd) in Hd0. discriminate.
Qed.

Lemma topo_round_batch (evs : list Event) (adj : string -> list string)
    (deg deg' : string -> Z) (heap heap' : list (Z * string))
    (so so' level : list string) (batches : list (list string)) :
  topo_inv evs deg heap so batches ->
  topo_round evs adj deg heap so = inr (level, deg', so', heap') ->
  Permutation level (map snd heap) /\ so' = so ++ level.
Proof.
  intros Hinv Hround.
  assert (Hheap_reg : forall n, In n (map snd heap) -> In n (names evs)).
  { intros n Hn. apply (ti_zero _ _ _ _ _ Hinv n). apply in_app_iff.
    now right. }
  destruct (sorted_by_key_ok evs _ Hheap_reg) as [lvl [Hsort [Hperm _]]].
  unfold topo_round in Hround. rewrite Hsort in Hround. cbn [bind] in Hround.
  destruct (process_level adj lvl deg so []) as [[d s] nr] eqn:Hpl.
  apply (process_level_spec deg) in Hpl.
  2:{ split; [intros; lia|]. split; [constructor|].
      intros x. simpl. split; [tauto|lia]. }
  destruct Hpl as [-> _].
  destruct (sorted_by_key evs nr) as [err|nrs]; cbn [bind] in Hround;
    [discriminate|].
  destruct (keyed evs nrs) as [err|ks]; cbn [bind] in Hround; [discriminate|].
  injection Hround as <- _ <- _. split; [exact Hperm|reflexivity].
Qed.

(** The tasks in [ready_heap] are those of the next batch. *)
Lemma topo_heap_batch (evs : list Event) (deg : string -> Z)
    (heap : list (Z * string)) (so : list string)
    (batches : list (list string)) (x : string) :
  topo_inv evs deg heap so batches ->
  rounds_inv evs so batches ->
  In x (map snd heap) <-> ready_in_batch evs x (length batches).
Proof.
  intros Hinv [Hso _].
  pose proof (ti_zero _ _ _ _ _ Hinv x) as Hzero.
  rewrite (ti_deg _ _ _ _ _ Hinv), pending_zero_iff, in_app_iff in Hzero.
  unfold ready_in_batch. rewrite emitted_before_S. split.
  - intros Hx. split.
    + destruct (proj1 Hzero (or_intror Hx)) as [Hreg Hdeps].
      split; [exact Hreg|]. intros d Hd. apply Hso. now apply Hdeps.
    + destruct (emitted_before evs (length batches) x) eqn:He;
        [|reflexivity].
      apply Hso in He. exfalso.
      pose proof (ti_nodup _ _ _ _ _ Hinv) as Hnd.
      apply in_split in He. destruct He as [l1 [l2 ->]].
      rewrite <- app_assoc in Hnd. simpl in Hnd.
      apply NoDup_remove_2 in Hnd. apply Hnd. rewrite !in_app_iff. tauto.
  - intros [[Hreg Hdeps] Hnot].
    assert (H : In x so \/ In x (map snd heap)).
    { apply Hzero. split; [exact Hreg|].
      intros d Hd. apply Hso. now apply Hdeps. }
    destruct H as [H|H]; [|exact H].
    apply Hso in H. rewrite H in Hnot. discriminate.
Qed.

Lemma rounds_inv_step (evs : list Event) (deg : string -> Z)
    (heap : list (Z * string)) (so level : list string)
    (batches : list (list string)) :
  topo_inv evs deg heap so batches ->
  rounds_inv evs so batches ->
  Permutation level (map snd heap) ->
  rounds_inv evs (so ++ level) (batches ++ [level]).
Proof.
  intros Hinv Hr Hperm.
  assert (Hlevel : forall x, In x level <->
                             ready_in_batch evs x (length batches)).
  { intros x. rewrite <- (topo_heap_batch evs deg heap so batches x Hinv Hr).
    split; apply Permutation_in; [exact Hperm|symmetry; exact Hperm]. }
  destruct Hr as [Hso Hbatches]. split.
  - intros x. rewrite length_app, Nat.add_1_r, in_app_iff, Hso, Hlevel.
    unfold ready_in_batch. split.
    + intros [Hx|[Hx _]]; [now apply emitted_before_mono|exact Hx].
    + intros Hx. destruct (emitted_before evs (length batches) x); tauto.
  - intros j x Hj. rewrite length_app, Nat.add_1_r in Hj.
    destruct (Nat.eq_dec j (length batches)) as [->|Hne].
    + rewrite app_nth2, Nat.sub_diag by lia. simpl. apply Hlevel.
    + rewrite app_nth1 by lia. apply Hbatches. lia.
Qed.

Lemma topo_loop_rounds (evs : list Event) (adj : string -> list string) :
  (forall d y,
      count_occ string_dec (adj d) y = count_occ string_dec (deps_of evs y) d) ->
  forall fuel deg heap so batches so' batches',
    topo_inv evs deg heap so batches ->
    rounds_inv evs so batches ->
    topo_loop fuel evs adj deg heap so batches = Some (inr (so', batches')) ->
    rounds_inv evs so' batches'.
Proof.
  intros Hadj.
  induction fuel as [|fuel IH]; intros deg heap so batches so' batches' Hinv Hr;
    destruct heap as [|k heap]; cbn [topo_loop];
    try discriminate; try (now intros [= <- <-]).
  destruct (topo_round_spec evs adj Hadj _ _ _ _ Hinv)
    as [level [deg' [so1 [heap' [Hround [Hinv' _]]]]]]; [discriminate|].
  rewrite Hround.
  destruct (topo_round_batch _ _ _ _ _ _ _ _ _ _ Hinv Hround) as [Hperm Hso1].
  subst so1. apply (IH _ _ _ _ _ _ Hinv').
  exact (rounds_inv_step _ _ _ _ _ _ Hinv Hr Hperm).
Qed.

Lemma topo_run_rounds (evs : list Event) (fuel : nat)
    (so : list string) (batches : list (list string)) :
  registry_wf evs ->
  topo_run fuel evs = Some (inr (so, batches)) ->
  rounds_inv evs so batches.
Proof.
  intros Hwf Hrun. unfold topo_run in Hrun.
  destruct (build_graph evs evs empty_graph) as [err|g] eqn:Hg;
    [discriminate|].
  destruct (topo_init_inv evs g Hwf Hg) as [Hinv Hadj].
  eapply (topo_loop_rounds evs _ Hadj); [exact Hinv| |exact Hrun].
  split.
  - intros x. simpl. split; [contradiction|discriminate].
  - intros j x Hj. simpl in Hj. lia.
Qed.

(** When the loop has stopped, the batches of the trace are all the
    batches there are. *)
Lemma rounds_inv_final (evs : list Event) (deg : string -> Z)
    (so : list string) (batches : list (list string)) :
  topo_inv evs deg [] so batches ->
  rounds_inv evs so batches ->
  forall k x, In x (nth k batches []) <-> ready_in_batch evs x k.
Proof.
  intros Hinv Hr k x.
  destruct (Nat.lt_ge_cases k (length batches)) as [Hlt|Hge];
    [now apply (proj2 Hr)|].
  rewrite nth_overflow by exact Hge. split; [contradiction|].
  intros [H1 H0]. exfalso.
  assert (Hstat : forall m y,
             emitted_before evs (m + length batches) y = true ->
             emitted_before evs (length batches) y = true).
  { induction m as [|m IH]; intros y Hy; [exact Hy|].
    cbn [Nat.add] in Hy. apply emitted_before_S in Hy.
    destruct Hy as [Hreg Hdeps].
    assert (Hnext : ready_in_batch evs y (length batches) ->  False).
    { intros Hb.
      apply (topo_heap_batch evs deg [] so batches y Hinv Hr) in Hb.
      exact Hb. }
    destruct (emitted_before evs (length batches) y) eqn:Hy; [reflexivity|].
    exfalso. apply Hnext. split; [|exact Hy].
    apply emitted_before_S. split; [exact Hreg|].
    intros d Hd. apply IH. now apply Hdeps. }
  assert (Hk : emitted_before evs (length batches) x = true).
  { apply (Hstat (S k - length batches)%nat).
    replace (S k - length batches + length batches)%nat with (S k) by lia.
    exact H1. }
  rewrite (emitted_before_le evs x _ k Hge Hk) in H0. discriminate.
Qed.

Lemma in_concat_nth {A : Type} (bs : list (list A)) (y : A) :
  In y (concat bs) -> exists j, In y (nth j bs []).
Proof.
  intros Hy. apply in_concat in Hy. destruct Hy as [b [Hb Hy]].
  destruct (In_nth bs b [] Hb) as [j [_ Hj]]. exists j. now rewrite Hj.
Qed.

(** Two positions of [concat bs] lie in one list of [bs], in the same
    order, or in two lists of [bs], the first one earlier. *)
Lemma concat_before {A : Type} (bs : list (list A)) :
  forall l1 x l2 y l3,
    concat bs = l1 ++ x :: l2 ++ y :: l3 ->
    (exists i m1 m2 m3, nth i bs [] = m1 ++ x :: m2 ++ y :: m3) \/
    (exists i j, (i < j)%nat /\ In x (nth i bs []) /\ In y (nth j bs [])).
Proof.
  induction bs as [|b bs IH]; intros l1 x l2 y l3 Heq.
  - destruct l1; discriminate.
  - assert (Hshift : forall l,
               concat bs = l ++ x :: l2 ++ y :: l3 ->
               (exists i m1 m2 m3,
                   nth i (b :: bs) [] = m1 ++ x :: m2 ++ y :: m3) \/
               (exists i j, (i < j)%nat /\ In x (nth i (b :: bs) []) /\
                            In y (nth j (b :: bs) []))).
    { intros l Hl. destruct (IH _ _ _ _ _ Hl)
        as [[i [m1 [m2 [m3 Hi]]]]|[i [j [Hij [Hx Hy]]]]].
      - left. exists (S i), m1, m2, m3. exact Hi.
      - right. exists (S i), (S j). split; [lia|]. split; assumption. }
    assert (Hlater : forall l, b = l1 ++ x :: l -> In y (concat bs) ->
               exists i j, (i < j)%nat /\ In x (nth i (b :: bs) []) /\
                           In y (nth j (b :: bs) [])).
    { intros l Hb Hy. destruct (in_concat_nth bs y Hy) as [j Hj].
      exists 0%nat, (S j). split; [lia|]. split; [|exact Hj].
      simpl. rewrite Hb. apply in_app_iff. right. now left. }
    cbn [concat] in Heq. apply app_eq_app in Heq.
    destruct Heq as [l [[Hb Hrest]|[Hl1 Hrest]]].
    + destruct l as [|x' l].
      * simpl in Hrest. apply (Hshift []). now rewrite <- Hrest.
      * simpl in Hrest. injection Hrest as <- Hrest.
        apply app_eq_app in Hrest.
        destruct Hrest as [l' [[Hl2 Hc]|[Hl Hc]]].
        -- right. apply (Hlater l Hb). rewrite Hc.
           apply in_app_iff. right. now left.
        -- destruct l' as [|y' l'].
           ++ simpl in Hc. right. apply (Hlater l Hb). rewrite <- Hc.
              now left.
           ++ simpl in Hc. injection Hc as <- Hc.
              left. exists 0%nat, l1, l2, l'. simpl. now rewrite Hb, Hl.
    + apply (Hshift l). exact Hrest.
Qed.

Lemma strongly_sorted_before {A : Type} (R : A -> A -> Prop) (l : list A) :
  StronglySorted R l ->
  forall m1 x m2 y m3, l = m1 ++ x :: m2 ++ y :: m3 -> R x y.
Proof.
  induction 1 as [|a l Hsorted IH Hall]; intros m1 x m2 y m3 Heq.
  - destruct m1; discriminate.
  - destruct m1 as [|a' m1]; simpl in Heq.
    + injection Heq as -> ->. rewrite Forall_forall in Hall. apply Hall.
      apply in_app_iff. right. now left.
    + injection Heq as _ Heq. exact (IH _ _ _ _ _ Heq).
Qed.

(** In the concatenation of the batches, a task of an earlier batch comes
    first, and two tasks of one batch are in [(priority, name)] order. *)
Lemma batches_order (evs : list Event) (batches : list (list string)) :
  Forall (StronglySorted (task_lt evs)) batches ->
  (forall k x, In x (nth k batches []) <-> ready_in_batch evs x k) ->
  forall l1 x l2 y l3 i j,
    concat batches = l1 ++ x :: l2 ++ y :: l3 ->
    ready_in_batch evs x i -> ready_in_batch evs y j ->
    (i < j)%nat \/ (i = j /\ task_lt evs x y).
Proof.
  intros Hsorted Hnth l1 x l2 y l3 i j Heq Hx Hy.
  destruct (concat_before batches _ _ _ _ _ Heq)
    as [[i0 [m1 [m2 [m3 Hb]]]]|[i0 [j0 [Hlt [Hx0 Hy0]]]]].
  - assert (Hx0 : In x (nth i0 batches [])).
    { rewrite Hb. apply in_app_iff. right. now left. }
    assert (Hy0 : In y (nth i0 batches [])).
    { rewrite Hb. apply in_app_iff. right. right.
      apply in_app_iff. right. now left. }
    apply Hnth in Hx0, Hy0.
    rewrite (ready_in_batch_unique _ _ _ _ Hx Hx0).
    rewrite (ready_in_batch_unique _ _ _ _ Hy Hy0).
    right. split; [reflexivity|].
    assert (Hs : StronglySorted (task_lt evs) (nth i0 batches [])).
    { destruct (Nat.lt_ge_cases i0 (length batches)) as [Hi|Hi].
      - rewrite Forall_forall in Hsorted. apply Hsorted. now apply nth_In.
      - rewrite nth_overflow by exact Hi. constructor. }
    exact (strongly_sorted_before _ _ Hs _ _ _ _ _ Hb).
  - apply Hnth in Hx0, Hy0.
    rewrite (ready_in_batch_unique _ _ _ _ Hx Hx0).
    rewrite (ready_in_batch_unique _ _ _ _ Hy Hy0).
    now left.
Qed.

(** * The claims *)

(** ** C1: the resource pool is never exceeded *)

(** A negative requirement: [X] requires -5 workers, so [Y], which requires
    7, is admitted beside it into a pool of 2; at time 1 only [Y] runs and
    uses 7 workers. *)
Lemma negative_requirement_exceeded :
  registry_wf (events overcommit) /\
  schedule_events 10 overcommit =
    Some (set_schedule overcommit overcommit_schedule,
          inr overcommit_schedule) /\
  ~ (usage (events overcommit) overcommit_schedule 1
     <= total_resources overcommit).
Proof.
  split; [apply registry_wfb_sound; reflexivity|].
  split; [vm_compute; reflexivity|].
  vm_compute. intros H. now apply H.
Qed.

(** A negative pool is exceeded although nothing is scheduled. *)
Lemma negative_pool_exceeded :
  schedule_events 10 negative_pool =
    Some (set_schedule negative_pool [], inr []) /\
  tasks_nonneg (events negative_pool) /\
  ~ (usage (events negative_pool) [] 0 <= total_resources negative_pool).
Proof.
  split; [vm_compute; reflexivity|].
  split; [apply tasks_nonnegb_sound; reflexivity|].
  vm_compute. intros H. now apply H.
Qed.

(** Negative durations overlap three one-worker tasks in a pool of 2. *)
Lemma negative_duration_exceeded :
  schedule_events 20 backwards =
    Some (set_schedule backwards backwards_schedule,
          inr backwards_schedule) /\
  0 <= total_resources backwards /\
  (forall e, In e (events backwards) -> 0 <= resources_required e) /\
  ~ (usage (events backwards) backwards_schedule 5
     <= total_resources backwards).
Proof.
  split; [vm_compute; reflexivity|].
  split; [vm_compute; discriminate|].
  split.
  - intros e He. simpl in He.
    repeat (destruct He as [<-|He]; [simpl; lia|]). contradiction.
  - vm_compute. intros H. now apply H.
Qed.

(** C1, as stated, fails in three ways, none of which the scheduler
    guards against: a negative requirement ([overcommit], 7 workers of 2
    in use at time 1), a negative pool ([negative_pool], the empty schedule
    uses 0 > -1) and negative durations ([backwards], 3 workers of 2 in use
    at time 5). *)
Lemma resource_capacity_counterexample :
  (schedule_events 10 overcommit =
     Some (set_schedule overcommit overcommit_schedule,
           inr overcommit_schedule) /\
   ~ (usage (events overcommit) overcommit_schedule 1
      <= total_resources overcommit)) /\
  (schedule_events 10 negative_pool =
     Some (set_schedule negative_pool [], inr []) /\
   ~ (usage (events negative_pool) [] 0 <= total_resources negative_pool)) /\
  (schedule_events 20 backwards =
     Some (set_schedule backwards backwards_schedule,
           inr backwards_schedule) /\
   ~ (usage (events backwards) backwards_schedule 5
      <= total_resources backwards)).
Proof.
  split; [|split].
  - split; apply negative_requirement_exceeded.
  - split; apply negative_pool_exceeded.
  - split; apply negative_duration_exceeded.
Qed.

(** C1 (amended): for every task set whose tasks have non-negative
    durations and non-negative resource requirements, scheduled on a
    non-negative pool, whenever [schedule_events] returns a schedule
    (complete, or partial after a deadlock break), at every integer time
    [t] the sum of [resources_required] over the scheduled tasks with
    [start <= t < end] is at most [total_resources]. *)
Theorem resource_capacity_respected (fuel : nat) (s s' : EventScheduler)
    (sch : Schedule) :
  registry_wf (events s) ->
  tasks_nonneg (events s) ->
  0 <= total_resources s ->
  schedule_events fuel s = Some (s', inr sch) ->
  forall t, usage (events s) sch t <= total_resources s.
Proof.
  intros Hwf Hnn Htot Hrun.
  destruct (schedule_events_inr _ _ _ _ Hwf Hrun)
    as [_ [sim [Hs [Hact [Hsch Hres]]]]].
  specialize (Hres Hnn Htot). unfold sim_struct in Hs. unfold sim_res in Hres.
  rewrite Hact in Hs, Hres. rewrite Hsch in Hs, Hres.
  eapply res_final; eassumption.
Qed.

Lemma resource_capacity_respected_witness :
  tasks_nonneg (events scenario) /\
  0 <= total_resources scenario /\
  schedule_events 4 scenario =
    Some (set_schedule scenario scenario_schedule, inr scenario_schedule) /\
  usage (events scenario) scenario_schedule 3 <= total_resources scenario.
Proof.
  assert (Hnn : tasks_nonneg (events scenario))
    by (apply tasks_nonnegb_sound; reflexivity).
  assert (Htot : 0 <= total_resources scenario) by (simpl; lia).
  assert (Hrun : schedule_events 4 scenario =
                 Some (set_schedule scenario scenario_schedule,
                       inr scenario_schedule))
    by (vm_compute; reflexivity).
  split; [exact Hnn|]. split; [exact Htot|]. split; [exact Hrun|].
  apply (resource_capacity_respected 4 scenario
           (set_schedule scenario scenario_schedule) scenario_schedule);
    try assumption.
  apply registry_wfb_sound. reflexivity.
Defined.

(** ** C2: dependencies finish first *)

(** C2: whenever [schedule_events] returns a schedule and [a] is a
    dependency of [b], if both appear in the schedule then [a] ends no
    later than [b] starts. *)
Theorem dependencies_finish_first (fuel : nat) (s s' : EventScheduler)
    (sch : Schedule) (a b : string) (sa ea sb eb : Z) :
  registry_wf (events s) ->
  schedule_events fuel s = Some (s', inr sch) ->
  depends_on (events s) b a ->
  dict_find sch a = Some (sa, ea) ->
  dict_find sch b = Some (sb, eb) ->
  ea <= sb.
Proof.
  intros Hwf Hrun [_ Hdep] Ha Hb.
  destruct (schedule_events_inr _ _ _ _ Hwf Hrun)
    as [_ [sim [Hs [_ [Hsch _]]]]].
  unfold sim_struct in Hs. rewrite Hsch in Hs.
  apply dict_find_some in Ha, Hb.
  destruct (si_deps _ _ _ _ _ _ Hs b sb eb a Hb Hdep) as [sa' [ea' [Ha' Hle]]].
  assert (Heq : (sa', ea') = (sa, ea)).
  { eapply nodup_keys_unique; [exact (si_keys_nodup _ _ _ _ _ _ Hs)| |];
      eassumption. }
  injection Heq as _ <-. exact Hle.
Qed.

Lemma dependencies_finish_first_witness :
  depends_on (events scenario) "C" "A" /\
  dict_find scenario_schedule "A" = Some (0, 3) /\
  dict_find scenario_schedule "C" = Some (3, 4) /\
  3 <= 3.
Proof.
  assert (Hdep : depends_on (events scenario) "C" "A")
    by (split; simpl; auto).
  split; [exact Hdep|]. split; [reflexivity|]. split; [reflexivity|].
  apply (dependencies_finish_first 4 scenario
           (set_schedule scenario scenario_schedule) scenario_schedule
           "A" "C" 0 3 3 4).
  - apply registry_wfb_sound. reflexivity.
  - vm_compute. reflexivity.
  - exact Hdep.
  - reflexivity.
  - reflexivity.
Defined.

(** ** C3: the topological order *)

(** C3: when every dependency resolves to a registered task and the
    dependency relation is acyclic, [topological_sort] returns a sequence
    that contains every task name exactly once and in which each task comes
    after all of its dependencies.  The sequence is the concatenation of
    the batches of the loop; batch [k] holds exactly the tasks that become
    ready in batch [k], as the dependency relation alone defines it
    ([ready_in_batch]: no dependencies for batch 0, the last dependency in
    batch [k] for batch [k + 1]); each batch is in ascending
    [(priority, name)] order.  So of two tasks of the sequence the first is
    of an earlier batch or, in the same batch, has the smaller priority or
    the same priority and the smaller name. *)
Theorem topological_sort_correct (evs : list Event) (fuel : nat) :
  registry_wf evs -> deps_resolved evs -> acyclic evs ->
  (length evs < fuel)%nat ->
  exists order batches,
    topological_sort fuel evs = Some (inr order) /\
    topo_run fuel evs = Some (inr (order, batches)) /\
    NoDup order /\
    Permutation order (names evs) /\
    deps_before evs order /\
    order = concat batches /\
    Forall (StronglySorted (task_lt evs)) batches /\
    (forall k x, In x (nth k batches []) <-> ready_in_batch evs x k) /\
    (forall l1 x l2 y l3 i j,
        order = l1 ++ x :: l2 ++ y :: l3 ->
        ready_in_batch evs x i -> ready_in_batch evs y j ->
        (i < j)%nat \/ (i = j /\ task_lt evs x y)).
Proof.
  intros Hwf Hres Hacyc Hfuel.
  destruct (topo_run_spec evs fuel Hwf Hres Hfuel)
    as [deg [order [batches [Hrun Hinv]]]].
  pose proof (topo_complete _ _ _ _ Hwf Hres Hacyc Hinv) as Hperm.
  pose proof (topo_run_rounds evs fuel order batches Hwf Hrun) as Hrounds.
  pose proof (rounds_inv_final evs deg order batches Hinv Hrounds) as Hnth.
  pose proof (ti_concat _ _ _ _ _ Hinv) as Hconcat.
  pose proof (ti_batches _ _ _ _ _ Hinv) as Hsorted.
  exists order, batches.
  split.
  { unfold topological_sort. rewrite Hrun.
    rewrite (Permutation_length Hperm). unfold names.
    now rewrite length_map, Nat.eqb_refl. }
  split; [exact Hrun|].
  split; [apply (topo_final_nodup _ _ _ _ Hinv)|].
  split; [exact Hperm|].
  split; [apply (ti_before _ _ _ _ _ Hinv)|].
  split; [exact Hconcat|].
  split; [exact Hsorted|].
  split; [exact Hnth|].
  intros l1 x l2 y l3 i j Heq. rewrite Hconcat in Heq.
  exact (batches_order evs batches Hsorted Hnth l1 x l2 y l3 i j Heq).
Qed.

Lemma topological_sort_correct_witness :
  deps_resolved (events scenario) /\
  acyclic (events scenario) /\
  exists order batches,
    topological_sort 4 (events scenario) = Some (inr order) /\
    topo_run 4 (events scenario) = Some (inr (order, batches)) /\
    NoDup order /\
    Permutation order (names (events scenario)) /\
    deps_before (events scenario) order /\
    order = concat batches /\
    Forall (StronglySorted (task_lt (events scenario))) batches /\
    (forall k x, In x (nth k batches []) <->
                 ready_in_batch (events scenario) x k) /\
    (forall l1 x l2 y l3 i j,
        order = l1 ++ x :: l2 ++ y :: l3 ->
        ready_in_batch (events scenario) x i ->
        ready_in_batch (events scenario) y j ->
        (i < j)%nat \/ (i = j /\ task_lt (events scenario) x y)).
Proof.
  assert (Hres : deps_resolved (events scenario))
    by (apply deps_resolvedb_sound; reflexivity).
  assert (Hacyc : acyclic (events scenario))
    by (apply (rankedb_acyclic scenario_rank); reflexivity).
  split; [exact Hres|]. split; [exact Hacyc|].
  apply (topological_sort_correct (events scenario) 4).
  - apply registry_wfb_sound. reflexivity.
  - exact Hres.
  - exact Hacyc.
  - simpl. lia.
Defined.

(** ** C4: the scenario *)

(** C4, as stated, fails: at time 3 the ready queue holds [C] (priority 1)
    and [B] (priority 2); [C] is admitted first and leaves one worker, so
    [B], which needs two, waits until [C] ends at 4.  No amount of fuel
    yields [B = (3, 5)]. *)
Lemma scenario_counterexample :
  schedule_events 4 scenario =
    Some (set_schedule scenario scenario_schedule, inr scenario_schedule) /\
  dict_find scenario_schedule "B" = Some (4, 6) /\
  ~ (exists fuel s' sch,
        schedule_events fuel scenario = Some (s', inr sch) /\
        dict_find sch "A" = Some (0, 3) /\
        dict_find sch "B" = Some (3, 5) /\
        dict_find sch "C" = Some (3, 4)).
Proof.
  split; [exact scenario_run|]. split; [reflexivity|].
  intros [fuel [s' [sch [Hrun [_ [HB _]]]]]].
  apply scenario_run_any in Hrun. injection Hrun as _ ->.
  vm_compute in HB. discriminate.
Qed.

(** C4 (amended): with [total_resources = 2] and the tasks [A], [B], [C] of
    the scenario, [schedule_events] produces [A = (0, 3)], [C = (3, 4)] and
    [B = (4, 6)]. *)
Theorem scenario_intervals (fuel : nat) :
  (4 <= fuel)%nat ->
  schedule_events fuel scenario =
    Some (set_schedule scenario scenario_schedule, inr scenario_schedule) /\
  dict_find scenario_schedule "A" = Some (0, 3) /\
  dict_find scenario_schedule "B" = Some (4, 6) /\
  dict_find scenario_schedule "C" = Some (3, 4).
Proof.
  intros Hfuel. split.
  - exact (schedule_events_mono 4 fuel _ _ Hfuel scenario_run).
  - repeat split.
Qed.

Lemma scenario_intervals_witness :
  schedule_events 6 scenario =
    Some (set_schedule scenario scenario_schedule, inr scenario_schedule) /\
  dict_find scenario_schedule "A" = Some (0, 3) /\
  dict_find scenario_schedule "B" = Some (4, 6) /\
  dict_find scenario_schedule "C" = Some (3, 4).
Proof.
  apply (scenario_intervals 6). lia.
Defined.

(** ** C5: mutual dependencies *)

(** C5, as stated, fails on [cycle_with_unknown]: [A] and [B] depend on
    each other, but [A] also names the unregistered [X], and the unknown
    dependency is reported before any cycle is looked for. *)
Lemma cycle_error_counterexample :
  depends_on cycle_with_unknown "A" "B" /\
  depends_on cycle_with_unknown "B" "A" /\
  topological_sort 10 cycle_with_unknown =
    Some (inl (ValueError (unknown_dependency_msg "A" "X"))) /\
  topological_sort 10 cycle_with_unknown <>
    Some (inl (ValueError cycle_msg)).
Proof.
  split; [split; simpl; auto|]. split; [split; simpl; auto|].
  split; [vm_compute; reflexivity|].
  vm_compute. discriminate.
Qed.

(** C5 (amended): for every task set in which every dependency name
    resolves to a registered task and which contains tasks [a] and [b]
    with [a] depending on [b] and [b] on [a], [topological_sort], and hence
    [schedule_events], raises the cycle error, and neither [a] nor [b] is
    in the [sorted_order] that the loop built. *)
Theorem mutual_dependency_cycle_error (s : EventScheduler) (fuel : nat)
    (a b : string) :
  registry_wf (events s) -> deps_resolved (events s) ->
  depends_on (events s) a b -> depends_on (events s) b a ->
  (length (events s) < fuel)%nat ->
  topological_sort fuel (events s) = Some (inl (ValueError cycle_msg)) /\
  schedule_events fuel s =
    Some (set_schedule s [], inl (ValueError cycle_msg)) /\
  exists sorted_order batches,
    topo_run fuel (events s) = Some (inr (sorted_order, batches)) /\
    ~ In a sorted_order /\ ~ In b sorted_order.
Proof.
  intros Hwf Hres Hab Hba Hfuel.
  destruct (topo_run_spec (events s) fuel Hwf Hres Hfuel)
    as [deg [so [batches [Hrun Hinv]]]].
  pose proof (mutual_not_sorted _ _ _ _ a b Hinv Hab Hba) as Ha.
  pose proof (mutual_not_sorted _ _ _ _ b a Hinv Hba Hab) as Hb.
  assert (Hsort : topological_sort fuel (events s) =
                  Some (inl (ValueError cycle_msg))).
  { unfold topological_sort. rewrite Hrun.
    destruct (Nat.eqb (length so) (length (events s))) eqn:Hlen;
      [|reflexivity].
    exfalso. apply Nat.eqb_eq in Hlen.
    destruct (topo_final_nodup _ _ _ _ Hinv) as [Hnd Hincl].
    assert (Hle : (length (a :: so) <= length (names (events s)))%nat).
    { apply NoDup_incl_length; [now constructor|].
      intros x [<-|Hx]; [apply Hab|now apply Hincl]. }
    unfold names in Hle. rewrite length_map in Hle. simpl in Hle. lia. }
  split; [exact Hsort|]. split.
  - unfold schedule_events. now rewrite Hsort.
  - exists so, batches. auto.
Qed.

Lemma mutual_dependency_cycle_error_witness :
  depends_on (events cycle_pair) "A" "B" /\
  depends_on (events cycle_pair) "B" "A" /\
  topological_sort 4 (events cycle_pair) = Some (inl (ValueError cycle_msg)) /\
  schedule_events 4 cycle_pair =
    Some (set_schedule cycle_pair [], inl (ValueError cycle_msg)) /\
  exists sorted_order batches,
    topo_run 4 (events cycle_pair) = Some (inr (sorted_order, batches)) /\
    ~ In "A" sorted_order /\ ~ In "B" sorted_order.
Proof.
  assert (Hab : depends_on (events cycle_pair) "A" "B")
    by (split; simpl; auto).
  assert (Hba : depends_on (events cycle_pair) "B" "A")
    by (split; simpl; auto).
  split; [exact Hab|]. split; [exact Hba|].
  apply (mutual_dependency_cycle_error cycle_pair 4 "A" "B").
  - apply registry_wfb_sound. reflexivity.
  - apply deps_resolvedb_sound. reflexivity.
  - exact Hab.
  - exact Hba.
  - simpl. lia.
Defined.

(** ** C6: unknown dependencies *)

Lemma build_graph_resolved (evs todo : list Event) (g g' : Graph) :
  build_graph evs todo g = inr g' ->
  forall e d, In e todo -> In d (dependencies e) -> In d (names evs).
Proof.
  revert g. induction todo as [|e0 todo IH]; intros g; simpl; [tauto|].
  destruct (add_edges evs (name e0) (dependencies e0) g) as [err|g1] eqn:E;
    simpl; [discriminate|].
  intros H e d [<-|He] Hd; [|eapply IH; eassumption].
  apply add_edges_inr in E. now apply E.
Qed.

(** C6: when some task names a dependency that is not registered,
    [topological_sort], and hence [schedule_events], raises the unknown
    dependency error, whose message names a referencing task and the
    missing dependency; the stored schedule is left empty. *)
Theorem unknown_dependency_error (s : EventScheduler) (e : Event)
    (d : string) :
  In e (events s) -> In d (dependencies e) -> ~ In d (names (events s)) ->
  exists e' d',
    In e' (events s) /\ In d' (dependencies e') /\
    ~ In d' (names (events s)) /\
    unknown_dependency_msg (name e') d' =
      ("Event '" ++ name e' ++ "' depends on unknown event '" ++ d' ++ "'")
        %string /\
    forall fuel,
      topological_sort fuel (events s) =
        Some (inl (ValueError (unknown_dependency_msg (name e') d'))) /\
      schedule_events fuel s =
        Some (set_schedule s [],
              inl (ValueError (unknown_dependency_msg (name e') d'))).
Proof.
  intros He Hd Hnot.
  destruct (build_graph (events s) (events s) empty_graph) as [err|g] eqn:Hg.
  - destruct (build_graph_inl _ _ _ _ Hg) as [e' [d' [H1 [H2 [H3 ->]]]]].
    exists e', d'. repeat (split; [assumption || reflexivity|]).
    intros fuel.
    assert (Hsort : topological_sort fuel (events s) =
              Some (inl (ValueError (unknown_dependency_msg (name e') d')))).
    { unfold topological_sort, topo_run. now rewrite Hg. }
    split; [exact Hsort|]. unfold schedule_events. now rewrite Hsort.
  - exfalso. apply Hnot. eapply build_graph_resolved; eassumption.
Qed.

Lemma unknown_dependency_error_witness :
  ~ In "ghost" (names (events dangling)) /\
  exists e' d',
    In e' (events dangling) /\ In d' (dependencies e') /\
    ~ In d' (names (events dangling)) /\
    unknown_dependency_msg (name e') d' =
      ("Event '" ++ name e' ++ "' depends on unknown event '" ++ d' ++ "'")
        %string /\
    forall fuel,
      topological_sort fuel (events dangling) =
        Some (inl (ValueError (unknown_dependency_msg (name e') d'))) /\
      schedule_events fuel dangling =
        Some (set_schedule dangling [],
              inl (ValueError (unknown_dependency_msg (name e') d'))).
Proof.
  assert (Hnot : ~ In "ghost" (names (events dangling))).
  { simpl. intros [H|[H|[]]]; discriminate. }
  split; [exact Hnot|].
  apply (unknown_dependency_error dangling
           (mkEvent "B" 1 ["A"; "ghost"] 1 1 no_deadline) "ghost").
  - simpl. auto.
  - simpl. auto.
  - exact Hnot.
Defined.

(** ** C7: nothing is published on failure *)

(** C7: whenever [schedule_events] fails, the error is the one raised by
    [topological_sort] and the stored schedule is cleared, whatever it was
    before the call; the registry and the pool are unchanged. *)
Theorem failed_schedule_is_cleared (fuel : nat) (s s' : EventScheduler)
    (err : exn) :
  registry_wf (events s) ->
  schedule_events fuel s = Some (s', inl err) ->
  topological_sort fuel (events s) = Some (inl err) /\
  schedule s' = [] /\
  events s' = events s /\
  total_resources s' = total_resources s.
Proof.
  intros Hwf Hrun.
  destruct (schedule_events_inl _ _ _ _ Hwf Hrun) as [-> Hsort].
  repeat split. exact Hsort.
Qed.

Lemma failed_schedule_is_cleared_witness :
  schedule cycle_pair = [("C", (0, 1))] /\
  schedule_events 4 cycle_pair =
    Some (set_schedule cycle_pair [], inl (ValueError cycle_msg)) /\
  topological_sort 4 (events cycle_pair) = Some (inl (ValueError cycle_msg)) /\
  schedule (set_schedule cycle_pair []) = [] /\
  events (set_schedule cycle_pair []) = events cycle_pair /\
  total_resources (set_schedule cycle_pair []) = total_resources cycle_pair.
Proof.
  assert (Hrun : schedule_events 4 cycle_pair =
                 Some (set_schedule cycle_pair [],
                       inl (ValueError cycle_msg)))
    by (vm_compute; reflexivity).
  split; [reflexivity|]. split; [exact Hrun|].
  apply (failed_schedule_is_cleared 4 cycle_pair).
  - apply registry_wfb_sound. reflexivity.
  - exact Hrun.
Defined.

(** ** C8: termination *)

(** C8: for every task set that passes [topological_sort],
    [schedule_events] returns a schedule once the fuel exceeds twice the
    number of tasks plus one; every scheduled task is registered; and when
    no requirement is negative, a task whose requirement exceeds the pool
    is left out of the schedule, which is then only partially populated. *)
Theorem schedule_events_terminates (fuel : nat) (s : EventScheduler)
    (order : list string) :
  registry_wf (events s) ->
  topological_sort fuel (events s) = Some (inr order) ->
  (2 * length (events s) + 1 < fuel)%nat ->
  exists sch,
    schedule_events fuel s = Some (set_schedule s sch, inr sch) /\
    (forall n, In n (map fst sch) -> In n (names (events s))) /\
    (tasks_nonneg (events s) -> 0 <= total_resources s ->
     forall n, total_resources s < res_of (events s) n ->
               ~ In n (map fst sch)).
Proof.
  intros Hwf Hsort Hfuel.
  destruct (schedule_events_returns fuel s order Hwf Hsort Hfuel)
    as [sch Hrun].
  exists sch. split; [exact Hrun|].
  destruct (schedule_events_inr _ _ _ _ Hwf Hrun)
    as [_ [sim [Hs [_ [Hsch Hres]]]]].
  split.
  - rewrite <- Hsch. now apply schedule_keys_registered.
  - intros Hnn Htot n Hbig Hin. specialize (Hres Hnn Htot).
    rewrite <- Hsch in Hin.
    pose proof (ri_fit _ _ _ _ _ _ _ Hres n Hin). lia.
Qed.

Lemma schedule_events_terminates_witness :
  topological_sort 6 (events oversized) = Some (inr ["A"; "B"]) /\
  total_resources oversized < res_of (events oversized) "B" /\
  exists sch,
    schedule_events 6 oversized = Some (set_schedule oversized sch, inr sch) /\
    (forall n, In n (map fst sch) -> In n (names (events oversized))) /\
    (tasks_nonneg (events oversized) -> 0 <= total_resources oversized ->
     forall n, total_resources oversized < res_of (events oversized) n ->
               ~ In n (map fst sch)).
Proof.
  assert (Hsort : topological_sort 6 (events oversized) =
                  Some (inr ["A"; "B"])) by (vm_compute; reflexivity).
  split; [exact Hsort|]. split; [vm_compute; reflexivity|].
  apply (schedule_events_terminates 6 oversized ["A"; "B"]).
  - apply registry_wfb_sound. reflexivity.
  - exact Hsort.
  - simpl. lia.
Defined.

(** The deadlock break on [oversized]: [B] needs 3 workers of 2 and is
    never admitted; the loop ends with only [A] scheduled. *)
Lemma oversized_run :
  schedule_events 6 oversized =
    Some (set_schedule oversized [("A", (0, 1))], inr [("A", (0, 1))]).
Proof. vm_compute. reflexivity. Qed.

(** ** C9 and C10: deadlines *)

Lemma check_deadlines_computed (fuel : nat) (s0 s : EventScheduler)
    (sch : Schedule) :
  registry_wf (events s0) ->
  schedule_events fuel s0 = Some (s, inr sch) ->
  events s = events s0 /\
  NoDup (map fst sch) /\
  exists missed,
    check_deadlines s = inr missed /\
    forall n d e,
      In (n, d, e) missed <->
      exists st ev,
        In (n, (st, e)) sch /\ events_find (events s0) n = Some ev /\
        deadline ev = d /\ 0 < d /\ d < e.
Proof.
  intros Hwf Hrun.
  destruct (schedule_events_inr _ _ _ _ Hwf Hrun)
    as [-> [sim [Hs [_ [Hsch _]]]]].
  split; [reflexivity|]. split.
  - rewrite <- Hsch. apply (si_keys_nodup _ _ _ _ _ _ Hs).
  - unfold check_deadlines. simpl.
    destruct (check_deadlines_loop_spec (events s0) sch [])
      as [missed [Hloop Hiff]].
    + rewrite <- Hsch. now apply schedule_keys_registered.
    + exists missed. split; [exact Hloop|exact Hiff].
Qed.

(** C9: on a computed schedule, [check_deadlines] reports exactly the
    triples (name, deadline, end) of the scheduled tasks whose deadline is
    positive and smaller than their recorded end; so a task with deadline 5
    that ends at 7 is reported as (name, 5, 7), and a task with the
    sentinel [-1] is never reported. *)
Theorem check_deadlines_reports_missed (fuel : nat) (s0 s : EventScheduler)
    (sch : Schedule) :
  registry_wf (events s0) ->
  schedule_events fuel s0 = Some (s, inr sch) ->
  exists missed,
    check_deadlines s = inr missed /\
    (forall n d e,
        In (n, d, e) missed <->
        exists st ev,
          dict_find sch n = Some (st, e) /\
          events_find (events s) n = Some ev /\
          deadline ev = d /\ 0 < d /\ d < e) /\
    (forall n st ev,
        dict_find sch n = Some (st, 7) ->
        events_find (events s) n = Some ev -> deadline ev = 5 ->
        In (n, 5, 7) missed) /\
    (forall n ev d e,
        events_find (events s) n = Some ev -> deadline ev = no_deadline ->
        ~ In (n, d, e) missed).
Proof.
  intros Hwf Hrun.
  destruct (check_deadlines_computed _ _ _ _ Hwf Hrun)
    as [Hev [Hnd [missed [Hcheck Hiff]]]].
  rewrite Hev.
  assert (Hiff' : forall n d e,
             In (n, d, e) missed <->
             exists st ev,
               dict_find sch n = Some (st, e) /\
               events_find (events s0) n = Some ev /\
               deadline ev = d /\ 0 < d /\ d < e).
  { intros n d e. rewrite Hiff. split; intros [st [ev [Hin H]]];
      exists st, ev; (split; [|exact H]).
    - now apply dict_find_in.
    - now apply dict_find_some. }
  exists missed. split; [exact Hcheck|]. split; [exact Hiff'|]. split.
  - intros n st ev Hfind Hev' Hd. apply Hiff'. exists st, ev.
    repeat split; try assumption; lia.
  - intros n ev d e Hfind Hd Hin. apply Hiff' in Hin.
    destruct Hin as [st [ev' [_ [Hfind' [Hd' [Hpos _]]]]]].
    rewrite Hfind in Hfind'. injection Hfind' as <-.
    unfold no_deadline in Hd. lia.
Qed.

Lemma check_deadlines_reports_missed_witness :
  schedule_events 8 deadline_demo =
    Some (set_schedule deadline_demo deadline_demo_schedule,
          inr deadline_demo_schedule) /\
  check_deadlines (set_schedule deadline_demo deadline_demo_schedule) =
    inr [("T", 5, 7)] /\
  exists missed,
    check_deadlines (set_schedule deadline_demo deadline_demo_schedule) =
      inr missed /\
    (forall n d e,
        In (n, d, e) missed <->
        exists st ev,
          dict_find deadline_demo_schedule n = Some (st, e) /\
          events_find
            (events (set_schedule deadline_demo deadline_demo_schedule)) n =
            Some ev /\
          deadline ev = d /\ 0 < d /\ d < e) /\
    (forall n st ev,
        dict_find deadline_demo_schedule n = Some (st, 7) ->
        events_find
          (events (set_schedule deadline_demo deadline_demo_schedule)) n =
          Some ev ->
        deadline ev = 5 ->
        In (n, 5, 7) missed) /\
    (forall n ev d e,
        events_find
          (events (set_schedule deadline_demo deadline_demo_schedule)) n =
          Some ev ->
        deadline ev = no_deadline ->
        ~ In (n, d, e) missed).
Proof.
  assert (Hrun : schedule_events 8 deadline_demo =
                 Some (set_schedule deadline_demo deadline_demo_schedule,
                       inr deadline_demo_schedule))
    by (vm_compute; reflexivity).
  split; [exact Hrun|]. split; [vm_compute; reflexivity|].
  apply (check_deadlines_reports_missed 8 deadline_demo).
  - apply registry_wfb_sound. reflexivity.
  - exact Hrun.
Defined.

(** C10: on a computed schedule, a task whose deadline is zero or negative
    is never reported by [check_deadlines], whatever its end time. *)
Theorem nonpositive_deadline_never_reported (fuel : nat)
    (s0 s : EventScheduler) (sch : Schedule) (n : string) (ev : Event) :
  registry_wf (events s0) ->
  schedule_events fuel s0 = Some (s, inr sch) ->
  events_find (events s) n = Some ev ->
  deadline ev <= 0 ->
  exists missed,
    check_deadlines s = inr missed /\
    forall d e, ~ In (n, d, e) missed.
Proof.
  intros Hwf Hrun Hfind Hd.
  destruct (check_deadlines_computed _ _ _ _ Hwf Hrun)
    as [Hev [_ [missed [Hcheck Hiff]]]].
  exists missed. split; [exact Hcheck|].
  intros d e Hin. apply Hiff in Hin.
  destruct Hin as [st [ev' [_ [Hfind' [Hd' [Hpos _]]]]]].
  rewrite Hev in Hfind. rewrite Hfind in Hfind'. injection Hfind' as <-.
  lia.
Qed.

Lemma nonpositive_deadline_never_reported_witness :
  dict_find deadline_demo_schedule "U" = Some (7, 9) /\
  deadline (mkEvent "U" 2 [] 1 2 0) <= 0 /\
  exists missed,
    check_deadlines (set_schedule deadline_demo deadline_demo_schedule) =
      inr missed /\
    forall d e, ~ In ("U", d, e) missed.
Proof.
  split; [reflexivity|]. split; [simpl; lia|].
  apply (nonpositive_deadline_never_reported 8 deadline_demo
           (set_schedule deadline_demo deadline_demo_schedule)
           deadline_demo_schedule "U" (mkEvent "U" 2 [] 1 2 0)).
  - apply registry_wfb_sound. reflexivity.
  - vm_compute. reflexivity.
  - reflexivity.
  - simpl. lia.
Defined.

(** * Further properties of the code *)

(** ** The registry: [add_event], [remove_event], [modify_event] *)

Lemma events_find_add (evs : list Event) (e : Event) (n : string) :
  events_find (add_event evs e) n =
  if String.eqb (name e) n then Some e else events_find evs n.
Proof.
  induction evs as [|e' evs IH]; simpl.
  - reflexivity.
  - destruct (String.eqb (name e') (name e)) eqn:Heq; simpl.
    + apply String.eqb_eq in Heq. rewrite Heq.
      now destruct (String.eqb (name e) n).
    + rewrite IH. destruct (String.eqb (name e') n) eqn:H1; [|reflexivity].
      apply String.eqb_eq in H1. subst n.
      rewrite string_eqb_sym, Heq. reflexivity.
Qed.

(** X1: [add_event] stores the event under its name and leaves every other
    name as it was; a name that was registered keeps its place in the
    iteration order, a new one goes last; keys stay distinct and the
    schedule and the pool are untouched. *)
Theorem add_event_registers (s : EventScheduler) (e : Event) :
  registry_wf (events s) ->
  (forall n, events_find (events (scheduler_add_event s e)) n =
             if String.eqb (name e) n then Some e
             else events_find (events s) n) /\
  names (events (scheduler_add_event s e)) =
    (if events_mem (events s) (name e) then names (events s)
     else names (events s) ++ [name e]) /\
  registry_wf (events (scheduler_add_event s e)) /\
  schedule (scheduler_add_event s e) = schedule s /\
  total_resources (scheduler_add_event s e) = total_resources s.
Proof.
  intros Hwf. simpl. split; [intros n; apply events_find_add|].
  split; [apply add_event_names|]. split; [now apply add_event_wf|].
  split; reflexivity.
Qed.

Lemma add_event_registers_witness :
  events_find (events (scheduler_add_event scenario
                         (mkEvent "B" 9 ["A"] 1 5 4))) "B" =
    Some (mkEvent "B" 9 ["A"] 1 5 4) /\
  names (events (scheduler_add_event scenario (mkEvent "B" 9 ["A"] 1 5 4))) =
    ["A"; "B"; "C"].
Proof.
  destruct (add_event_registers scenario (mkEvent "B" 9 ["A"] 1 5 4))
    as [Hfind [Hnames _]].
  - apply registry_wfb_sound. reflexivity.
  - split; [exact (Hfind "B")|exact Hnames].
Defined.

Lemma events_find_del (evs : list Event) (n n' : string) :
  NoDup (names evs) ->
  events_find (events_del evs n) n' =
  if String.eqb n n' then None else events_find evs n'.
Proof.
  unfold names. induction evs as [|e evs IH]; simpl; intros Hnd.
  - now destruct (String.eqb n n').
  - inversion Hnd as [|? ? Hnotin Hnd']; subst.
    destruct (String.eqb (name e) n) eqn:Hen.
    + apply String.eqb_eq in Hen. subst n.
      destruct (String.eqb (name e) n') eqn:Hn'; [|reflexivity].
      apply String.eqb_eq in Hn'. subst n'.
      apply events_find_none. exact Hnotin.
    + simpl. rewrite (IH Hnd').
      destruct (String.eqb (name e) n') eqn:Hen'; [|reflexivity].
      apply String.eqb_eq in Hen'. subst n'.
      rewrite string_eqb_sym, Hen. reflexivity.
Qed.

Lemma events_del_names (evs : list Event) (n : string) :
  NoDup (names evs) ->
  names (events_del evs n) = remove string_dec n (names evs).
Proof.
  unfold names. induction evs as [|e evs IH]; simpl; intros Hnd;
    [reflexivity|].
  inversion Hnd as [|? ? Hnotin Hnd']; subst.
  destruct (String.eqb (name e) n) eqn:Hen.
  - apply String.eqb_eq in Hen. subst n.
    destruct (string_dec (name e) (name e)) as [_|Hne]; [|congruence].
    symmetry. now apply notin_remove.
  - apply String.eqb_neq in Hen.
    destruct (string_dec n (name e)) as [Heq|_]; [congruence|].
    simpl. now rewrite IH.
Qed.

Lemma dict_find_del {V : Type} (d : list (string * V)) (k k' : string) :
  NoDup (map fst d) ->
  dict_find (dict_del d k) k' =
  if String.eqb k k' then None else dict_find d k'.
Proof.
  induction d as [|[k0 v] d IH]; simpl; intros Hnd.
  - now destruct (String.eqb k k').
  - inversion Hnd as [|? ? Hnotin Hnd']; subst.
    destruct (String.eqb k0 k) eqn:Hk.
    + apply String.eqb_eq in Hk. subst k0.
      destruct (String.eqb k k') eqn:Hk'; [|reflexivity].
      apply String.eqb_eq in Hk'. subst k'.
      apply dict_find_none. exact Hnotin.
    + simpl. rewrite (IH Hnd').
      destruct (String.eqb k0 k') eqn:Hk'; [|reflexivity].
      apply String.eqb_eq in Hk'. subst k'.
      rewrite string_eqb_sym, Hk. reflexivity.
Qed.

Lemma dict_del_keys {V : Type} (d : list (string * V)) (k : string) :
  NoDup (map fst d) ->
  map fst (dict_del d k) = remove string_dec k (map fst d).
Proof.
  induction d as [|[k0 v] d IH]; simpl; intros Hnd; [reflexivity|].
  inversion Hnd as [|? ? Hnotin Hnd']; subst.
  destruct (String.eqb k0 k) eqn:Hk.
  - apply String.eqb_eq in Hk. subst k0.
    destruct (string_dec k k) as [_|Hne]; [|congruence].
    symmetry. now apply notin_remove.
  - apply String.eqb_neq in Hk.
    destruct (string_dec k k0) as [Heq|_]; [congruence|].
    simpl. now rewrite IH.
Qed.

Lemma remove_event_schedule (s : EventScheduler) (n : string) :
  NoDup (map fst (schedule s)) ->
  events_mem (events s) n = true ->
  schedule (fst (remove_event s n)) = dict_del (schedule s) n.
Proof.
  intros Hnd Hmem. unfold remove_event. rewrite Hmem. simpl.
  destruct (dict_find (schedule s) n) eqn:Hfind; [reflexivity|].
  apply dict_find_none in Hfind.
  clear Hmem Hnd. induction (schedule s) as [|[k v] d IH]; [reflexivity|].
  simpl in *. destruct (String.eqb k n) eqn:Hk.
  - apply String.eqb_eq in Hk. tauto.
  - rewrite <- IH at 1 by tauto. reflexivity.
Qed.

(** X2: [remove_event] answers whether the name was registered.  If it
    was, the name is gone from the registry and from the schedule and every
    other task and schedule entry is as before; if it was not, nothing
    changes, not even a schedule entry under that name. *)
Theorem remove_event_effect (s : EventScheduler) (n : string) :
  registry_wf (events s) ->
  NoDup (map fst (schedule s)) ->
  snd (remove_event s n) = events_mem (events s) n /\
  (events_mem (events s) n = false -> fst (remove_event s n) = s) /\
  (events_mem (events s) n = true ->
   (forall n', events_find (events (fst (remove_event s n))) n' =
               if String.eqb n n' then None else events_find (events s) n') /\
   (forall n', dict_find (schedule (fst (remove_event s n))) n' =
               if String.eqb n n' then None
               else dict_find (schedule s) n') /\
   total_resources (fst (remove_event s n)) = total_resources s).
Proof.
  intros Hwf Hnd. split; [|split].
  - unfold remove_event. now destruct (events_mem (events s) n).
  - intros Hmem. unfold remove_event. now rewrite Hmem.
  - intros Hmem. split; [|split].
    + intros n'. unfold remove_event. rewrite Hmem. simpl.
      now apply events_find_del.
    + intros n'. rewrite (remove_event_schedule s n Hnd Hmem).
      now apply dict_find_del.
    + unfold remove_event. now rewrite Hmem.
Qed.

Lemma remove_event_effect_witness :
  snd (remove_event
         (mkScheduler 2 (events scenario) scenario_schedule) "A") = true /\
  events_find
    (events (fst (remove_event
                    (mkScheduler 2 (events scenario) scenario_schedule) "A")))
    "A" = None /\
  dict_find
    (schedule (fst (remove_event
                      (mkScheduler 2 (events scenario) scenario_schedule)
                      "A")))
    "B" = Some (4, 6).
Proof.
  destruct (remove_event_effect
              (mkScheduler 2 (events scenario) scenario_schedule) "A")
    as [Hret [_ Hyes]].
  - apply registry_wfb_sound. reflexivity.
  - apply distinctb_sound. reflexivity.
  - destruct (Hyes eq_refl) as [Hev [Hsch _]].
    split; [exact Hret|]. split; [exact (Hev "A")|exact (Hsch "B")].
Defined.

Lemma events_find_replace (evs : list Event) (n n' : string) (e : Event) :
  name e = n ->
  In n (names evs) ->
  events_find (events_replace evs n e) n' =
  if String.eqb n n' then Some e else events_find evs n'.
Proof.
  intros He. unfold names. induction evs as [|e' evs IH]; simpl; intros Hin;
    [contradiction|].
  destruct (String.eqb (name e') n) eqn:Hen; simpl.
  - apply String.eqb_eq in Hen. rewrite He, Hen.
    now destruct (String.eqb n n').
  - apply String.eqb_neq in Hen.
    destruct Hin as [Hin|Hin]; [contradiction|].
    rewrite (IH Hin).
    destruct (String.eqb (name e') n') eqn:Hen'; [|reflexivity].
    apply String.eqb_eq in Hen'. subst n'.
    assert (Hne : String.eqb n (name e') = false)
      by (apply String.eqb_neq; congruence).
    now rewrite Hne.
Qed.

Lemma events_replace_names (evs : list Event) (n : string) (e : Event) :
  name e = n -> names (events_replace evs n e) = names evs.
Proof.
  intros He. unfold names. induction evs as [|e' evs IH]; simpl;
    [reflexivity|].
  destruct (String.eqb (name e') n) eqn:Hen; simpl.
  - apply String.eqb_eq in Hen. congruence.
  - now rewrite IH.
Qed.

(** X3: [modify_event] answers [False] and changes nothing for an unknown
    name.  For a registered one it answers [True], overwrites exactly the
    fields that were passed, keeps the name and the place of the task and
    every other task, and leaves the stored schedule as it was, stale or
    not. *)
Theorem modify_event_effect (s : EventScheduler) (n : string)
    (kwargs : Updates) :
  (events_find (events s) n = None -> modify_event s n kwargs = (s, false)) /\
  (forall event,
      events_find (events s) n = Some event ->
      snd (modify_event s n kwargs) = true /\
      (forall n', events_find (events (fst (modify_event s n kwargs))) n' =
                  if String.eqb n n' then Some (apply_updates event kwargs)
                  else events_find (events s) n') /\
      names (events (fst (modify_event s n kwargs))) = names (events s) /\
      schedule (fst (modify_event s n kwargs)) = schedule s /\
      total_resources (fst (modify_event s n kwargs)) = total_resources s).
Proof.
  split.
  - intros H. unfold modify_event. now rewrite H.
  - intros event H. unfold modify_event. rewrite H. simpl.
    pose proof (events_find_some _ _ _ H) as [Hin Hname].
    split; [reflexivity|]. split; [|split; [|split; reflexivity]].
    + intros n'. apply events_find_replace; [exact Hname|].
      rewrite <- Hname. now apply in_map.
    + now apply events_replace_names.
Qed.

Lemma modify_event_effect_witness :
  snd (modify_event scenario "B"
         (mkUpdates (Some 9) None None None (Some 4))) = true /\
  events_find
    (events (fst (modify_event scenario "B"
                    (mkUpdates (Some 9) None None None (Some 4))))) "B" =
    Some (mkEvent "B" 9 [] 2 2 4) /\
  modify_event scenario "Z" (mkUpdates (Some 9) None None None (Some 4)) =
    (scenario, false).
Proof.
  destruct (modify_event_effect scenario "B"
              (mkUpdates (Some 9) None None None (Some 4))) as [_ Hyes].
  destruct (Hyes task_B eq_refl) as [Hret [Hfind _]].
  split; [exact Hret|]. split; [exact (Hfind "B")|].
  apply (modify_event_effect scenario "Z"). reflexivity.
Defined.

(** ** States reached through the operations *)

Lemma load_tasks_loop_inv (tasks : list TaskData) :
  forall evs evs' err,
    registry_wf evs ->
    load_tasks_loop tasks evs = (evs', err) ->
    registry_wf evs' /\ incl (names evs) (names evs').
Proof.
  induction tasks as [|td tasks IH]; intros evs evs' err Hwf; simpl.
  - intros [= <- <-]. split; [exact Hwf|apply incl_refl].
  - destruct (task_of_data td) as [e|event].
    + intros [= <- <-]. split; [exact Hwf|apply incl_refl].
    + intros H. apply IH in H; [|now apply add_event_wf].
      destruct H as [Hwf' Hincl]. split; [exact Hwf'|].
      intros x Hx. apply Hincl. rewrite add_event_names.
      destruct (events_mem evs (name event)); [exact Hx|].
      apply in_app_iff. now left.
Qed.

Lemma api_inv_new (total : Z) : api_inv (new_scheduler total).
Proof. repeat split; simpl; try constructor. intros n []. Qed.

Lemma api_inv_add (s : EventScheduler) (e : Event) :
  api_inv s -> api_inv (scheduler_add_event s e).
Proof.
  intros [Hwf [Hnd Hkeys]]. split; [now apply add_event_wf|].
  split; [exact Hnd|]. simpl. intros n Hn. rewrite add_event_names.
  specialize (Hkeys n Hn).
  destruct (events_mem (events s) (name e)); [exact Hkeys|].
  apply in_app_iff. now left.
Qed.

Lemma api_inv_remove (s : EventScheduler) (n : string) :
  api_inv s -> api_inv (fst (remove_event s n)).
Proof.
  intros [Hwf [Hnd Hkeys]].
  destruct (events_mem (events s) n) eqn:Hmem.
  - assert (Hsch : schedule (fst (remove_event s n)) =
                   dict_del (schedule s) n)
      by now apply remove_event_schedule.
    assert (Hev : events (fst (remove_event s n)) = events_del (events s) n)
      by (unfold remove_event; now rewrite Hmem).
    unfold api_inv, registry_wf. rewrite Hsch, Hev.
    rewrite (events_del_names _ _ Hwf), (dict_del_keys _ _ Hnd).
    split; [|split].
    + clear -Hwf. unfold registry_wf in Hwf.
      induction (names (events s)) as [|x l IH]; simpl; [constructor|].
      inversion Hwf as [|? ? Hnotin Hnd]; subst.
      destruct (string_dec n x); [now apply IH|].
      constructor; [|now apply IH].
      intros Hin. apply in_remove in Hin. tauto.
    + clear -Hnd.
      induction (map fst (schedule s)) as [|x l IH]; simpl; [constructor|].
      inversion Hnd as [|? ? Hnotin Hnd']; subst.
      destruct (string_dec n x); [now apply IH|].
      constructor; [|now apply IH].
      intros Hin. apply in_remove in Hin. tauto.
    + intros x Hx. apply in_remove in Hx. destruct Hx as [Hx Hne].
      apply in_in_remove; [exact Hne|now apply Hkeys].
  - unfold remove_event. rewrite Hmem. simpl. repeat split; assumption.
Qed.

Lemma api_inv_modify (s : EventScheduler) (n : string) (kwargs : Updates) :
  api_inv s -> api_inv (fst (modify_event s n kwargs)).
Proof.
  intros [Hwf [Hnd Hkeys]]. unfold modify_event.
  destruct (events_find (events s) n) as [event|] eqn:Hfind; simpl;
    [|repeat split; assumption].
  apply events_find_some in Hfind. destruct Hfind as [_ Hname].
  unfold api_inv, registry_wf. simpl.
  rewrite (events_replace_names (events s) n (apply_updates event kwargs)
             Hname).
  repeat split; assumption.
Qed.

Lemma api_inv_schedule (fuel : nat) (s s' : EventScheduler)
    (r : result Schedule) :
  api_inv s -> schedule_events fuel s = Some (s', r) -> api_inv s'.
Proof.
  intros [Hwf _] Hrun. destruct r as [err|sch].
  - destruct (schedule_events_inl _ _ _ _ Hwf Hrun) as [-> _].
    repeat split; simpl; try assumption; try constructor. intros n [].
  - destruct (schedule_events_inr _ _ _ _ Hwf Hrun)
      as [-> [sim [Hs [_ [Hsch _]]]]].
    unfold api_inv. simpl. rewrite <- Hsch.
    split; [exact Hwf|]. split; [apply (si_keys_nodup _ _ _ _ _ _ Hs)|].
    now apply schedule_keys_registered.
Qed.

Lemma api_inv_load (s : EventScheduler) (clear : bool) (data : FileData) :
  api_inv s -> api_inv (fst (load_tasks_from_json clear data s)).
Proof.
  intros Hinv. unfold load_tasks_from_json.
  set (s1 := match events s with
             | [] => s
             | _ :: _ =>
                 if clear then mkScheduler (total_resources s) [] [] else s
             end).
  assert (H1 : api_inv s1).
  { unfold s1. destruct (events s); [exact Hinv|].
    destruct clear; [|exact Hinv].
    repeat split; simpl; try constructor. intros n []. }
  destruct (fd_tasks data) as [tasks|]; [|exact H1].
  destruct (load_tasks_loop tasks (events s1)) as [evs err] eqn:Hloop.
  destruct H1 as [Hwf [Hnd Hkeys]].
  destruct (load_tasks_loop_inv _ _ _ _ Hwf Hloop) as [Hwf' Hincl].
  destruct err; simpl; repeat split; auto.
Qed.

Lemma reachable_api_inv (s : EventScheduler) : reachable s -> api_inv s.
Proof.
  induction 1.
  - apply api_inv_new.
  - now apply api_inv_add.
  - now apply api_inv_remove.
  - now apply api_inv_modify.
  - eapply api_inv_schedule; eassumption.
  - now apply api_inv_load.
Qed.

(** X4: in every state reached from a new scheduler through [add_event],
    [remove_event], [modify_event], [schedule_events] (whether it succeeds
    or fails) and [load_tasks_from_json], the registry keys are distinct,
    every schedule entry belongs to a registered task, and
    [check_deadlines] returns a list: it never raises [KeyError]. *)
Theorem reachable_check_deadlines (s : EventScheduler) :
  reachable s ->
  api_inv s /\
  exists missed,
    check_deadlines s = inr missed /\
    forall n d e,
      In (n, d, e) missed <->
      exists st ev,
        In (n, (st, e)) (schedule s) /\ events_find (events s) n = Some ev /\
        deadline ev = d /\ 0 < d /\ d < e.
Proof.
  intros Hr. pose proof (reachable_api_inv s Hr) as Hinv.
  split; [exact Hinv|]. destruct Hinv as [_ [_ Hkeys]].
  destruct (check_deadlines_loop_spec (events s) (schedule s) [] Hkeys)
    as [missed [Hloop Hiff]].
  exists missed. split; [exact Hloop|exact Hiff].
Qed.

Lemma reachable_check_deadlines_witness :
  api_inv (fst (remove_event
                  (set_schedule scenario scenario_schedule) "A")) /\
  exists missed,
    check_deadlines
      (fst (remove_event (set_schedule scenario scenario_schedule) "A")) =
      inr missed /\
    forall n d e,
      In (n, d, e) missed <->
      exists st ev,
        In (n, (st, e))
          (schedule (fst (remove_event
                            (set_schedule scenario scenario_schedule) "A")))
        /\
        events_find
          (events (fst (remove_event
                          (set_schedule scenario scenario_schedule) "A")))
          n = Some ev /\
        deadline ev = d /\ 0 < d /\ d < e.
Proof.
  apply reachable_check_deadlines.
  apply reach_remove.
  apply (reach_schedule scenario _ 4 (inr scenario_schedule)).
  - change scenario
      with (scheduler_add_event
              (scheduler_add_event
                 (scheduler_add_event (new_scheduler 2) task_A) task_B)
              task_C).
    repeat apply reach_add. apply reach_new.
  - vm_compute. reflexivity.
Defined.

(** ** [get_total_completion_time] *)

Lemma list_max_in (x : Z) (xs : list Z) : In (list_max x xs) (x :: xs).
Proof.
  unfold list_max. revert x.
  induction xs as [|y xs IH]; intros x; simpl; [now left|].
  destruct (IH (Z.max x y)) as [H|H]; [|now right; right].
  rewrite <- H. destruct (Z.max_spec x y) as [[_ ->]|[_ ->]]; auto.
Qed.

Lemma total_completion_time_is_max_aux (s : EventScheduler) (n : string)
    (st e : Z) :
  In (n, (st, e)) (schedule s) -> e <= get_total_completion_time s.
Proof.
  unfold get_total_completion_time.
  destruct (schedule s) as [|[n0 [st0 e0]] rest]; simpl; [tauto|].
  destruct (list_max_ge e0 (map (fun x => snd (snd x)) rest)) as [H1 H2].
  intros [[= <- <- <-]|Hin]; [exact H1|].
  apply H2. apply in_map_iff. exists (n, (st, e)). auto.
Qed.

(** X5: [get_total_completion_time] is 0 on an empty schedule and otherwise
    the largest recorded end time: no entry ends later, and some entry ends
    exactly then. *)
Theorem total_completion_time_is_max (s : EventScheduler) :
  (schedule s = [] -> get_total_completion_time s = 0) /\
  (forall n st e, In (n, (st, e)) (schedule s) ->
                  e <= get_total_completion_time s) /\
  (schedule s <> [] ->
   exists n st, In (n, (st, get_total_completion_time s)) (schedule s)).
Proof.
  unfold get_total_completion_time.
  destruct (schedule s) as [|[n0 [st0 e0]] rest]; simpl.
  - split; [reflexivity|]. split; [intros n st e []|congruence].
  - destruct (list_max_ge e0 (map (fun x => snd (snd x)) rest)) as [H1 H2].
    split; [discriminate|]. split.
    + intros n st e [[= <- <- <-]|Hin]; [exact H1|].
      apply H2. apply in_map_iff. exists (n, (st, e)). auto.
    + intros _.
      destruct (list_max_in e0 (map (fun x => snd (snd x)) rest)) as [H|H].
      * exists n0, st0. left. now rewrite <- H.
      * apply in_map_iff in H. destruct H as [[n [st e]] [Heq Hin]].
        simpl in Heq. exists n, st. right. now rewrite <- Heq.
Qed.

Lemma total_completion_time_is_max_witness :
  get_total_completion_time (set_schedule scenario scenario_schedule) = 6 /\
  exists n st,
    In (n, (st, get_total_completion_time
                  (set_schedule scenario scenario_schedule)))
      (schedule (set_schedule scenario scenario_schedule)).
Proof.
  split; [reflexivity|].
  apply (total_completion_time_is_max
           (set_schedule scenario scenario_schedule)).
  discriminate.
Defined.

Lemma check_deadlines_loop_sound (evs : list Event) :
  forall sch acc missed,
    check_deadlines_loop evs sch acc = inr missed ->
    forall n d e,
      In (n, d, e) missed ->
      In (n, d, e) acc \/
      exists st ev,
        In (n, (st, e)) sch /\ events_find evs n = Some ev /\
        deadline ev = d /\ 0 < d /\ d < e.
Proof.
  induction sch as [|[n0 [st0 e0]] sch IH]; intros acc missed; simpl.
  - intros [= <-] n d e Hin. now left.
  - unfold events_get.
    destruct (events_find evs n0) as [ev|] eqn:Hfind; simpl; [|discriminate].
    destruct ((deadline ev >? 0) && (e0 >? deadline ev))%bool eqn:Hlate.
    + intros Hloop n d e Hin.
      destruct (IH _ _ Hloop n d e Hin) as [Hacc|[st [ev' [H1 H2]]]].
      * apply in_app_iff in Hacc. destruct Hacc as [Hacc|[[= <- <- <-]|[]]];
          [now left|].
        right. exists st0, ev. apply andb_true_iff in Hlate.
        rewrite !Z.gtb_lt in Hlate. tauto.
      * right. exists st, ev'. tauto.
    + intros Hloop n d e Hin.
      destruct (IH _ _ Hloop n d e Hin) as [Hacc|[st [ev' [H1 H2]]]];
        [now left|].
      right. exists st, ev'. tauto.
Qed.

(** X6: whatever [check_deadlines] reports ends after its positive deadline
    and no later than [get_total_completion_time]; so when the completion
    time is within every positive deadline of the registry, nothing is
    reported. *)
Theorem missed_deadlines_within_makespan (s : EventScheduler)
    (missed : list (string * Z * Z)) :
  check_deadlines s = inr missed ->
  (forall n d e, In (n, d, e) missed ->
                 0 < d /\ d < e /\ e <= get_total_completion_time s) /\
  ((forall ev, In ev (events s) -> 0 < deadline ev ->
               get_total_completion_time s <= deadline ev) ->
   missed = []).
Proof.
  intros Hcheck.
  assert (Hsound : forall n d e, In (n, d, e) missed ->
            exists st ev,
              In (n, (st, e)) (schedule s) /\
              events_find (events s) n = Some ev /\
              deadline ev = d /\ 0 < d /\ d < e).
  { intros n d e Hin.
    destruct (check_deadlines_loop_sound _ _ _ _ Hcheck n d e Hin)
      as [[]|H]. exact H. }
  assert (Hbound : forall n d e, In (n, d, e) missed ->
            0 < d /\ d < e /\ e <= get_total_completion_time s).
  { intros n d e Hin.
    destruct (Hsound n d e Hin) as [st [ev [Hsch [_ [_ [H1 H2]]]]]].
    repeat split; try assumption.
    eapply (total_completion_time_is_max_aux s); eassumption. }
  split; [exact Hbound|].
  intros Hall. destruct missed as [|[[n d] e] missed]; [reflexivity|].
  exfalso.
  destruct (Hsound n d e (or_introl eq_refl))
    as [st [ev [_ [Hfind [Hd [Hpos Hlt]]]]]].
  destruct (Hbound n d e (or_introl eq_refl)) as [_ [_ Hle]].
  apply events_find_some in Hfind. destruct Hfind as [Hin _].
  specialize (Hall ev Hin). lia.
Qed.

Lemma missed_deadlines_within_makespan_witness :
  check_deadlines (set_schedule deadline_demo deadline_demo_schedule) =
    inr [("T", 5, 7)] /\
  (0 < 5 /\ 5 < 7 /\
   7 <= get_total_completion_time
          (set_schedule deadline_demo deadline_demo_schedule)).
Proof.
  assert (Hcheck : check_deadlines
                     (set_schedule deadline_demo deadline_demo_schedule) =
                   inr [("T", 5, 7)]) by (vm_compute; reflexivity).
  split; [exact Hcheck|].
  destruct (missed_deadlines_within_makespan _ _ Hcheck) as [Hbound _].
  apply (Hbound "T" 5 7). now left.
Defined.

(** ** Start and end times *)

Lemma duration_of_find (evs : list Event) (n : string) (e : Event) :
  events_find evs n = Some e -> duration_of evs n = duration e.
Proof. intros H. unfold duration_of. now rewrite H. Qed.

Lemma durations_nonnegb_sound (evs : list Event) :
  durations_nonnegb evs = true -> durations_nonneg evs.
Proof.
  unfold durations_nonnegb, durations_nonneg. rewrite forallb_forall.
  intros H e He. apply Z.leb_le. now apply H.
Qed.

Lemma dict_set_in {V : Type} (d : list (string * V)) (k k' : string)
    (v v' : V) :
  In (k', v') (dict_set d k v) -> (k', v') = (k, v) \/ In (k', v') d.
Proof.
  induction d as [|[k0 v0] d IH]; simpl.
  - intros [H|[]]. left. now symmetry.
  - destruct (String.eqb k0 k); simpl.
    + intros [H|H]; [left; now symmetry|right; now right].
    + intros [H|H]; [right; now left|].
      destruct (IH H) as [H'|H']; [now left|right; now right].
Qed.

Lemma events_get_find (evs : list Event) (n : string) (e : Event) :
  events_get evs n = inr e -> events_find evs n = Some e.
Proof.
  unfold events_get. destruct (events_find evs n); [|discriminate].
  now intros [= ->].
Qed.

Lemma admission_time (evs : list Event) (total now : Z) :
  forall ready sch ares active temp flag sch' ares' active' temp' flag',
    admission evs total now ready sch ares active temp flag =
      inr (sch', ares', active', temp', flag') ->
    time_inv evs now active sch -> time_inv evs now active' sch'.
Proof.
  induction ready as [|[prio n] ready IH];
    intros sch ares active temp flag sch' ares' active' temp' flag'.
  - simpl. intros [= <- <- <- <- <-]. auto.
  - cbn [admission].
    destruct (events_get evs n) as [err|event] eqn:Hget; cbn [lift_at bind];
      [discriminate|].
    apply events_get_find in Hget.
    destruct (ares + resources_required event <=? total); [|apply IH].
    destruct (dep_end_times sch (dependencies event)) as [err|ends];
      cbn [lift_at bind]; [discriminate|].
    cbv zeta. intros Hadm Hinv. eapply IH; [exact Hadm|].
    destruct (start_time_bound now ends) as [Hnow _].
    destruct Hinv as [Hdur Hpos]. split.
    + intros n' st e Hin. apply dict_set_in in Hin.
      destruct Hin as [[= -> -> ->]|Hin]; [|eapply Hdur; eassumption].
      now rewrite (duration_of_find _ _ _ Hget).
    + intros Hnn. destruct (Hpos Hnn) as [H0 [Hact Hst]].
      assert (Hd : 0 <= duration event).
      { apply Hnn. now apply (events_find_some _ _ _ Hget). }
      split; [exact H0|]. split.
      * eapply Permutation_Forall; [symmetry; apply insert_sorted_perm|].
        constructor; [unfold end_of; simpl; lia|exact Hact].
      * intros n' st e Hin. apply dict_set_in in Hin.
        destruct Hin as [[= -> -> ->]|Hin]; [lia|eapply Hst; eassumption].
Qed.

Lemma complete_suffix (evs : list Event) (now : Z) :
  forall active ares done wait ready active' ares' done' wait' ready',
    complete evs now active ares done wait ready =
      inr (active', ares', done', wait', ready') ->
    exists popped, active = popped ++ active'.
Proof.
  induction active as [|[[e c] r] active IH];
    intros ares done wait ready active' ares' done' wait' ready'.
  - simpl. intros [= <- <- <- <- <-]. now exists [].
  - cbn [complete]. destruct (e =? now).
    + destruct (release evs c wait ready) as [err|[wait1 ready1]];
        cbn [bind]; [discriminate|].
      intros H. apply IH in H. destruct H as [popped ->].
      now exists ((e, c, r) :: popped).
    + intros [= <- <- <- <- <-]. now exists [].
Qed.

Lemma sim_step_time (evs : list Event) (total : Z) (s s' : Sim)
    (brk : bool) :
  sim_step evs total s = inr (brk, s') ->
  time_inv evs (current_time s) (active_events s) (sim_schedule s) ->
  time_inv evs (current_time s') (active_events s') (sim_schedule s').
Proof.
  unfold sim_step. intros Hstep Hinv.
  destruct (complete evs (current_time s) (active_events s)
              (active_resources s) (scheduled s) (waiting s) (ready_queue s))
    as [err|[[[[act1 ares1] done1] wait1] ready1]] eqn:Hc;
    cbn [lift_at bind] in Hstep; [discriminate|].
  destruct (admission evs total (current_time s) ready1 (sim_schedule s)
              ares1 act1 [] false)
    as [err|[[[[sch' ares'] act'] temp'] flag']] eqn:Ha;
    cbn [bind] in Hstep; [discriminate|].
  assert (H1 : time_inv evs (current_time s) act1 (sim_schedule s)).
  { destruct (complete_suffix _ _ _ _ _ _ _ _ _ _ _ _ Hc) as [popped Hp].
    destruct Hinv as [Hdur Hpos]. split; [exact Hdur|].
    intros Hnn. destruct (Hpos Hnn) as [H0 [Hact Hst]].
    split; [exact H0|]. split; [|exact Hst].
    rewrite Hp in Hact. apply Forall_app in Hact. tauto. }
  pose proof (admission_time _ _ _ _ _ _ _ _ _ _ _ _ _ _ Ha H1) as H2.
  destruct act' as [|[[e n] r] act'].
  - destruct (heappush_all key_leb [] temp'); injection Hstep as <- <-;
      exact H2.
  - injection Hstep as <- <-. simpl.
    destruct H2 as [Hdur Hpos]. split; [exact Hdur|].
    intros Hnn. destruct (Hpos Hnn) as [H0 [Hact Hst]].
    split; [|split; assumption].
    inversion Hact as [|? ? Hhd _]; subst. exact Hhd.
Qed.

Lemma sim_loop_time (evs : list Event) (total : Z) :
  forall fuel s sch,
    sim_loop fuel evs total s = Some (inr sch) ->
    time_inv evs (current_time s) (active_events s) (sim_schedule s) ->
    exists now active, time_inv evs now active sch.
Proof.
  induction fuel as [|fuel IH]; intros s sch; cbn [sim_loop];
    destruct (sim_running s); try discriminate;
    try (intros [= <-] H; eauto).
  destruct (sim_step evs total s) as [err|[[|] s']] eqn:Hstep;
    [discriminate| |].
  - intros [= <-] H. apply (sim_step_time _ _ _ _ _ Hstep) in H. eauto.
  - intros Hloop H. apply (sim_step_time _ _ _ _ _ Hstep) in H. eauto.
Qed.

Lemma schedule_events_time (fuel : nat) (s s' : EventScheduler)
    (sch : Schedule) :
  schedule_events fuel s = Some (s', inr sch) ->
  exists now active, time_inv (events s) now active sch.
Proof.
  unfold schedule_events. intros Hrun.
  destruct (topological_sort fuel (events s)) as [[err|order]|];
    try discriminate.
  destruct (init_queues (events s) order [] []) as [err|[ready wait]];
    [discriminate|].
  destruct (sim_loop fuel (events s) (total_resources s)
              (mkSim [] [] ready wait 0 0 [])) as [[[e sch0]|sch0]|] eqn:Hloop;
    try discriminate.
  injection Hrun as _ <-.
  apply (sim_loop_time _ _ _ _ _ Hloop). simpl.
  split; [intros n st e []|]. intros _. split; [lia|].
  split; [constructor|intros n st e []].
Qed.

(** X7: every entry of a returned schedule ends exactly [duration] after
    it starts, with the duration the task has in the registry. *)
Theorem schedule_end_is_start_plus_duration (fuel : nat)
    (s s' : EventScheduler) (sch : Schedule) (n : string) (st e : Z) :
  schedule_events fuel s = Some (s', inr sch) ->
  dict_find sch n = Some (st, e) ->
  e = st + duration_of (events s) n.
Proof.
  intros Hrun Hfind.
  destruct (schedule_events_time _ _ _ _ Hrun) as [now [active [Hdur _]]].
  eapply Hdur. apply dict_find_some. exact Hfind.
Qed.

Lemma schedule_end_is_start_plus_duration_witness :
  dict_find scenario_schedule "B" = Some (4, 6) /\
  6 = 4 + duration_of (events scenario) "B".
Proof.
  split; [reflexivity|].
  apply (schedule_end_is_start_plus_duration 4 scenario
           (set_schedule scenario scenario_schedule) scenario_schedule).
  - vm_compute. reflexivity.
  - reflexivity.
Defined.

(** X8: when no registered duration is negative, no task of a returned
    schedule starts before time 0 or ends before it starts.  (With a
    negative duration the clock moves backwards: in [backwards] task [Z]
    starts at -3.) *)
Theorem schedule_starts_nonneg (fuel : nat) (s s' : EventScheduler)
    (sch : Schedule) (n : string) (st e : Z) :
  durations_nonneg (events s) ->
  schedule_events fuel s = Some (s', inr sch) ->
  dict_find sch n = Some (st, e) ->
  0 <= st /\ st <= e.
Proof.
  intros Hnn Hrun Hfind. apply dict_find_some in Hfind.
  destruct (schedule_events_time _ _ _ _ Hrun) as [now [active [Hdur Hpos]]].
  destruct (Hpos Hnn) as [_ [_ Hst]].
  split; [eapply Hst; eassumption|].
  rewrite (Hdur _ _ _ Hfind).
  assert (0 <= duration_of (events s) n); [|lia].
  unfold duration_of.
  destruct (events_find (events s) n) as [ev|] eqn:He; [|lia].
  apply Hnn. now apply (events_find_some _ _ _ He).
Qed.

Lemma schedule_starts_nonneg_witness :
  durations_nonneg (events scenario) /\
  dict_find scenario_schedule "C" = Some (3, 4) /\
  0 <= 3 /\ 3 <= 4.
Proof.
  assert (Hnn : durations_nonneg (events scenario))
    by (apply durations_nonnegb_sound; reflexivity).
  split; [exact Hnn|]. split; [reflexivity|].
  apply (schedule_starts_nonneg 4 scenario
           (set_schedule scenario scenario_schedule) scenario_schedule "C").
  - exact Hnn.
  - vm_compute. reflexivity.
  - reflexivity.
Defined.

(** ** Which tasks a deadlock break leaves out *)

Lemma admission_flag_true (evs : list Event) (total now : Z) :
  forall ready sch ares active temp sch' ares' active' temp' flag',
    admission evs total now ready sch ares active temp true =
      inr (sch', ares', active', temp', flag') ->
    flag' = true.
Proof.
  induction ready as [|[prio n] ready IH];
    intros sch ares active temp sch' ares' active' temp' flag'.
  - simpl. now intros [= _ _ _ _ <-].
  - cbn [admission].
    destruct (events_get evs n) as [err|event]; cbn [lift_at bind];
      [discriminate|].
    destruct (ares + resources_required event <=? total); [|apply IH].
    destruct (dep_end_times sch (dependencies event)) as [err|ends];
      cbn [lift_at bind]; [discriminate|].
    cbv zeta. apply IH.
Qed.

Lemma admission_deferred (evs : list Event) (total now : Z) :
  forall ready sch ares active temp flag sch' ares' active' temp',
    admission evs total now ready sch ares active temp flag =
      inr (sch', ares', active', temp', false) ->
    sch' = sch /\ ares' = ares /\ active' = active /\
    forall p r, In (p, r) temp' ->
                In (p, r) temp \/ total < ares + res_of evs r.
Proof.
  induction ready as [|[prio n] ready IH];
    intros sch ares active temp flag sch' ares' active' temp'.
  - simpl. intros [= <- <- <- <- _]. auto.
  - cbn [admission].
    destruct (events_get evs n) as [err|event] eqn:Hget; cbn [lift_at bind];
      [discriminate|].
    apply events_get_find in Hget.
    destruct (ares + resources_required event <=? total) eqn:Hfit.
    + destruct (dep_end_times sch (dependencies event)) as [err|ends];
        cbn [lift_at bind]; [discriminate|].
      cbv zeta. intros H. apply admission_flag_true in H. discriminate.
    + intros H. apply IH in H. destruct H as [-> [-> [-> Htemp]]].
      repeat split. intros p r Hin.
      destruct (Htemp p r Hin) as [Hold|Hbig]; [|now right].
      apply in_app_iff in Hold. destruct Hold as [Hold|[[= <- <-]|[]]];
        [now left|].
      right. rewrite (res_of_find _ _ _ Hget).
      apply Z.leb_gt in Hfit. lia.
Qed.

Lemma held_push (a : Z * string * Z) (active : list (Z * string * Z)) :
  held (heappush active_leb active a) = snd a + held active.
Proof.
  unfold heappush. induction active as [|b active IH]; simpl; [reflexivity|].
  destruct (active_leb a b); simpl; [reflexivity|]. rewrite IH. lia.
Qed.

Lemma complete_held (evs : list Event) (now : Z) :
  forall active ares done wait ready active' ares' done' wait' ready',
    complete evs now active ares done wait ready =
      inr (active', ares', done', wait', ready') ->
    ares = held active -> ares' = held active'.
Proof.
  induction active as [|[[e c] r] active IH];
    intros ares done wait ready active' ares' done' wait' ready'.
  - simpl. now intros [= <- <- <- <- <-].
  - cbn [complete]. destruct (e =? now).
    + destruct (release evs c wait ready) as [err|[wait1 ready1]];
        cbn [bind]; [discriminate|].
      intros H Hares. apply IH in H; [exact H|].
      rewrite Hares. simpl. lia.
    + now intros [= <- <- <- <- <-].
Qed.

Lemma admission_held (evs : list Event) (total now : Z) :
  forall ready sch ares active temp flag sch' ares' active' temp' flag',
    admission evs total now ready sch ares active temp flag =
      inr (sch', ares', active', temp', flag') ->
    ares = held active -> ares' = held active'.
Proof.
  induction ready as [|[prio n] ready IH];
    intros sch ares active temp flag sch' ares' active' temp' flag'.
  - simpl. now intros [= <- <- <- <- <-].
  - cbn [admission].
    destruct (events_get evs n) as [err|event]; cbn [lift_at bind];
      [discriminate|].
    destruct (ares + resources_required event <=? total); [|apply IH].
    destruct (dep_end_times sch (dependencies event)) as [err|ends];
      cbn [lift_at bind]; [discriminate|].
    cbv zeta. intros Hadm Hares. eapply IH; [exact Hadm|].
    rewrite held_push, Hares. simpl. lia.
Qed.

Lemma sim_step_held (evs : list Event) (total : Z) (s s' : Sim) (brk : bool) :
  sim_step evs total s = inr (brk, s') ->
  active_resources s = held (active_events s) ->
  active_resources s' = held (active_events s').
Proof.
  unfold sim_step. intros Hstep Hinv.
  destruct (complete evs (current_time s) (active_events s)
              (active_resources s) (scheduled s) (waiting s) (ready_queue s))
    as [err|[[[[act1 ares1] done1] wait1] ready1]] eqn:Hc;
    cbn [lift_at bind] in Hstep; [discriminate|].
  destruct (admission evs total (current_time s) ready1 (sim_schedule s)
              ares1 act1 [] false)
    as [err|[[[[sch' ares'] act'] temp'] flag']] eqn:Ha;
    cbn [bind] in Hstep; [discriminate|].
  pose proof (complete_held _ _ _ _ _ _ _ _ _ _ _ _ Hc Hinv) as H1.
  pose proof (admission_held _ _ _ _ _ _ _ _ _ _ _ _ _ _ Ha H1) as H2.
  destruct act' as [|[[e n] r] act'].
  - destruct (heappush_all key_leb [] temp'); injection Hstep as <- <-;
      exact H2.
  - injection Hstep as <- <-. exact H2.
Qed.

(** The pass that ends in [break] found nothing running and admitted
    nothing: every task it leaves in [ready_queue] needs more than the
    pool. *)
Lemma sim_step_break (evs : list Event) (total : Z) (s s' : Sim) :
  active_resources s = held (active_events s) ->
  sim_step evs total s = inr (true, s') ->
  forall r, In r (map snd (ready_queue s')) -> total < res_of evs r.
Proof.
  unfold sim_step. intros Hinv Hstep.
  destruct (complete evs (current_time s) (active_events s)
              (active_resources s) (scheduled s) (waiting s) (ready_queue s))
    as [err|[[[[act1 ares1] done1] wait1] ready1]] eqn:Hc;
    cbn [lift_at bind] in Hstep; [discriminate|].
  pose proof (complete_held _ _ _ _ _ _ _ _ _ _ _ _ Hc Hinv) as H1.
  destruct (admission evs total (current_time s) ready1 (sim_schedule s)
              ares1 act1 [] false)
    as [err|[[[[sch' ares'] act'] temp'] flag']] eqn:Ha;
    cbn [bind] in Hstep; [discriminate|].
  destruct act' as [|[[e n] r0] act']; [|discriminate].
  destruct (heappush_all key_leb [] temp') as [|k ready'] eqn:Hready;
    [discriminate|].
  injection Hstep as Hflag <-. intros r Hin. simpl in Hin.
  destruct flag'; [discriminate|].
  destruct (admission_deferred _ _ _ _ _ _ _ _ _ _ _ _ _ Ha)
    as [_ [_ [Hact Htemp]]].
  assert (Hin' : In r (map snd temp')).
  { eapply Permutation_in; [apply heappush_all_names|]. now rewrite Hready. }
  apply in_map_iff in Hin'. destruct Hin' as [[p r'] [Heq Hin']].
  simpl in Heq. subst r'.
  destruct (Htemp p r Hin') as [[]|Hbig].
  rewrite H1, <- Hact in Hbig. simpl in Hbig. lia.
Qed.

Lemma sim_loop_final (evs : list Event) (total : Z) (order : list string) :
  registry_wf evs ->
  Permutation order (names evs) -> deps_before evs order ->
  forall fuel s res,
    sim_struct evs s ->
    active_resources s = held (active_events s) ->
    sim_loop fuel evs total s = Some res ->
    exists s',
      res = inr (sim_schedule s') /\ sim_struct evs s' /\
      active_events s' = [] /\
      forall r, In r (map snd (ready_queue s')) -> total < res_of evs r.
Proof.
  intros Hwf Hperm Hbefore.
  assert (Hidle : forall s, sim_running s = false ->
                            active_events s = [] /\ ready_queue s = []).
  { intros s. unfold sim_running.
    destruct (ready_queue s), (active_events s), (waiting s);
      try discriminate; auto. }
  assert (Hstop : forall s, sim_struct evs s -> sim_running s = false ->
            exists s',
              @inr (exn * Schedule) Schedule (sim_schedule s) =
                inr (sim_schedule s') /\
              sim_struct evs s' /\ active_events s' = [] /\
              forall r, In r (map snd (ready_queue s')) ->
                        total < res_of evs r).
  { intros s Hs Hrun. exists s. destruct (Hidle s Hrun) as [Ha Hq].
    split; [reflexivity|]. split; [exact Hs|]. split; [exact Ha|].
    rewrite Hq. intros r []. }
  induction fuel as [|fuel IH]; intros s res Hs Hr; cbn [sim_loop];
    destruct (sim_running s) eqn:Hrun; try discriminate;
    try (intros [= <-]; now apply Hstop).
  destruct (sim_step_spec evs total order s Hwf Hperm Hbefore Hs)
    as [brk [s1 [Hstep [Hs1 [Hbrk _]]]]].
  rewrite Hstep. pose proof (sim_step_held _ _ _ _ _ Hstep Hr) as Hr1.
  destruct brk.
  - intros [= <-]. exists s1. split; [reflexivity|]. split; [exact Hs1|].
    split; [now apply Hbrk|].
    exact (sim_step_break evs total s s1 Hr Hstep).
  - intros Hloop. exact (IH s1 res Hs1 Hr1 Hloop).
Qed.

Lemma order_prefix_blocked (evs : list Event) (total : Z) (sch : Schedule)
    (done rn : list string) (wait : list (string * list string))
    (order : list string) :
  struct_inv evs sch done rn wait [] ->
  (forall r, In r rn -> total < res_of evs r) ->
  Permutation order (names evs) ->
  deps_before evs order ->
  forall l1 l2, order = l1 ++ l2 ->
                forall x, In x l1 -> In x done \/ blocked evs total x.
Proof.
  intros [P1 P2 P3 P4 P5 P6 P7] Hbig Hperm Hbefore.
  induction l1 as [|x l1 IH] using rev_ind; intros l2 Heq y Hy;
    [contradiction|].
  rewrite <- app_assoc in Heq. simpl in Heq.
  apply in_app_iff in Hy. destruct Hy as [Hy|[<-|[]]];
    [eapply IH; eassumption|].
  assert (Hreg : In x (names evs)).
  { eapply Permutation_in; [exact Hperm|].
    rewrite Heq. apply in_app_iff. right. now left. }
  assert (Hx : In x (done ++ act_names [] ++ rn ++ map fst wait))
    by (eapply Permutation_in; [symmetry; exact P1|exact Hreg]).
  simpl in Hx. rewrite !in_app_iff in Hx.
  destruct Hx as [Hx|[Hx|Hx]]; [now left| |].
  - right. destruct (events_find_registered evs x Hreg) as [ev Hev].
    exists x, ev. split; [now left|]. split; [exact Hev|].
    rewrite <- (res_of_find _ _ _ Hev). now apply Hbig.
  - right. apply keys_in in Hx. destruct Hx as [deps Hw].
    destruct (P4 x deps Hw) as [Hne Hdeps].
    destruct deps as [|d deps]; [congruence|].
    destruct (proj1 (Hdeps d) (or_introl eq_refl)) as [Hd Hnd].
    assert (Hdl : In d l1) by (eapply Hbefore; eassumption).
    destruct (IH (x :: l2) Heq d Hdl) as [Hdone|[y [ev [Hy Hbigy]]]];
      [contradiction|].
    exists y, ev. split; [|exact Hbigy]. right.
    assert (Hstep : depends_on evs x d) by (split; assumption).
    destruct Hy as [->|Hy]; [now apply t_step|].
    eapply t_trans; [apply t_step; exact Hstep|exact Hy].
Qed.

Lemma schedule_events_blocked (fuel : nat) (s s' : EventScheduler)
    (sch : Schedule) :
  registry_wf (events s) ->
  schedule_events fuel s = Some (s', inr sch) ->
  forall x, In x (names (events s)) ->
            In x (map fst sch) \/ blocked (events s) (total_resources s) x.
Proof.
  intros Hwf Hrun x Hx. unfold schedule_events in Hrun.
  destruct (topological_sort fuel (events s)) as [[err|order]|] eqn:Hsort;
    try discriminate.
  destruct (topological_sort_inr _ _ _ Hwf Hsort) as [Hperm [Hbefore _]].
  destruct (init_struct _ _ Hwf Hperm) as [ready [wait [Hinit Hs0]]].
  rewrite Hinit in Hrun.
  destruct (sim_loop fuel (events s) (total_resources s)
              (mkSim [] [] ready wait 0 0 [])) as [res|] eqn:Hloop;
    [|discriminate].
  destruct (sim_loop_final (events s) (total_resources s) order Hwf Hperm
              Hbefore fuel _ res Hs0 eq_refl Hloop)
    as [sim [-> [Hs [Hact Hbig]]]].
  injection Hrun as _ <-.
  unfold sim_struct in Hs. rewrite Hact in Hs.
  assert (Hin : In x order)
    by (eapply Permutation_in; [symmetry; exact Hperm|exact Hx]).
  destruct (order_prefix_blocked _ _ _ _ _ _ order Hs Hbig Hperm Hbefore
              order [] (eq_sym (app_nil_r order)) x Hin) as [Hdone|Hblocked];
    [|now right].
  left. apply (si_keys _ _ _ _ _ _ Hs). now left.
Qed.

(** X9: when every task requires at most the pool, [schedule_events]
    never stops on a deadlock: every registered task is in the returned
    schedule.  Nothing is assumed on the signs of the durations, the
    requirements or the pool; [backwards] has negative durations. *)
Theorem fitting_tasks_all_scheduled (fuel : nat) (s s' : EventScheduler)
    (sch : Schedule) (n : string) :
  registry_wf (events s) ->
  (forall e, In e (events s) -> resources_required e <= total_resources s) ->
  schedule_events fuel s = Some (s', inr sch) ->
  In n (names (events s)) ->
  exists st e, dict_find sch n = Some (st, e).
Proof.
  intros Hwf Hfit Hrun Hn.
  destruct (schedule_events_blocked _ _ _ _ Hwf Hrun n Hn)
    as [Hin|[y [ev [_ [Hy Hbig]]]]].
  - destruct (dict_find sch n) as [[st e]|] eqn:Hfind; [eauto|].
    apply dict_find_none in Hfind. contradiction.
  - exfalso. apply events_find_some in Hy. destruct Hy as [Hy _].
    specialize (Hfit ev Hy). lia.
Qed.

Lemma fitting_tasks_all_scheduled_witness :
  (forall e, In e (events backwards) ->
             resources_required e <= total_resources backwards) /\
  schedule_events 12 backwards =
    Some (set_schedule backwards backwards_schedule,
          inr backwards_schedule) /\
  exists st e, dict_find backwards_schedule "V" = Some (st, e).
Proof.
  assert (Hfit : forall e, In e (events backwards) ->
                           resources_required e <= total_resources backwards).
  { intros e He. simpl in He.
    repeat (destruct He as [<-|He]; [simpl; lia|]). contradiction. }
  assert (Hrun : schedule_events 12 backwards =
                 Some (set_schedule backwards backwards_schedule,
                       inr backwards_schedule)) by (vm_compute; reflexivity).
  split; [exact Hfit|]. split; [exact Hrun|].
  apply (fitting_tasks_all_scheduled 12 backwards
           (set_schedule backwards backwards_schedule) backwards_schedule "V").
  - apply registry_wfb_sound. reflexivity.
  - exact Hfit.
  - exact Hrun.
  - simpl. auto 6.
Defined.

(** X10: a registered task is missing from the returned schedule only if
    it, or a task it depends on directly or through other tasks, is a
    registered task that requires more workers than the pool has.  Nothing
    is assumed on the signs of the durations, the requirements or the
    pool. *)
Theorem unscheduled_task_is_blocked (fuel : nat) (s s' : EventScheduler)
    (sch : Schedule) (n : string) :
  registry_wf (events s) ->
  schedule_events fuel s = Some (s', inr sch) ->
  In n (names (events s)) ->
  dict_find sch n = None ->
  blocked (events s) (total_resources s) n.
Proof.
  intros Hwf Hrun Hn Hnone.
  destruct (schedule_events_blocked _ _ _ _ Hwf Hrun n Hn)
    as [Hin|Hb]; [|exact Hb].
  apply dict_find_none in Hnone. contradiction.
Qed.

Lemma unscheduled_task_is_blocked_witness :
  schedule_events 6 starved =
    Some (set_schedule starved [("A", (0, -1))], inr [("A", (0, -1))]) /\
  blocked (events starved) (total_resources starved) "C".
Proof.
  assert (Hrun : schedule_events 6 starved =
                 Some (set_schedule starved [("A", (0, -1))],
                       inr [("A", (0, -1))])) by (vm_compute; reflexivity).
  split; [exact Hrun|].
  apply (unscheduled_task_is_blocked 6 starved _ _ "C"
           ltac:(apply registry_wfb_sound; reflexivity) Hrun).
  - simpl. auto.
  - reflexivity.
Defined.

(** ** Cycles of any length *)

Lemma path_before (evs : list Event) (order : list string) :
  deps_before evs order ->
  forall b a,
    clos_trans string (depends_on evs) b a ->
    forall l1 l2, order = l1 ++ b :: l2 -> In a l1.
Proof.
  intros Hbefore b a Hpath.
  induction Hpath as [b a [_ Hdep]|b c a _ IH1 _ IH2]; intros l1 l2 Heq.
  - eapply Hbefore; eassumption.
  - pose proof (IH1 l1 l2 Heq) as Hc.
    apply in_split in Hc. destruct Hc as [m1 [m2 Hl1]].
    assert (Heq' : order = m1 ++ c :: (m2 ++ b :: l2)).
    { rewrite Heq, Hl1, <- app_assoc. reflexivity. }
    pose proof (IH2 m1 _ Heq') as Ha.
    rewrite Hl1. apply in_app_iff. now left.
Qed.

Lemma path_source_registered (evs : list Event) (b a : string) :
  clos_trans string (depends_on evs) b a -> In b (names evs).
Proof. induction 1 as [b a [Hb _]|]; assumption. Qed.

Lemma sorted_registry_acyclic (evs : list Event) (order : list string) :
  Permutation order (names evs) -> registry_wf evs ->
  deps_before evs order -> acyclic evs.
Proof.
  intros Hperm Hwf Hbefore x Hcycle.
  assert (Hnd : NoDup order)
    by (eapply Permutation_NoDup; [symmetry; exact Hperm|exact Hwf]).
  assert (Hx : In x order).
  { eapply Permutation_in; [symmetry; exact Hperm|].
    eapply path_source_registered; exact Hcycle. }
  apply in_split in Hx. destruct Hx as [l1 [l2 Heq]].
  pose proof (path_before evs order Hbefore x x Hcycle l1 l2 Heq) as Hin.
  rewrite Heq in Hnd. apply NoDup_remove_2 in Hnd. apply Hnd.
  apply in_app_iff. now left.
Qed.

(** X11: when every dependency name is registered, [topological_sort]
    raises the cycle error exactly when the dependency relation has a
    cycle, of any length; otherwise it returns an order. *)
Theorem cycle_error_iff_cyclic (evs : list Event) (fuel : nat) :
  registry_wf evs -> deps_resolved evs -> (length evs < fuel)%nat ->
  (topological_sort fuel evs = Some (inl (ValueError cycle_msg)) <->
   ~ acyclic evs) /\
  ((exists order, topological_sort fuel evs = Some (inr order)) <->
   acyclic evs).
Proof.
  intros Hwf Hres Hfuel.
  destruct (topo_run_spec evs fuel Hwf Hres Hfuel)
    as [deg [so [batches [Hrun Hinv]]]].
  assert (Hcases : topological_sort fuel evs = Some (inr so) \/
                   topological_sort fuel evs =
                     Some (inl (ValueError cycle_msg))).
  { unfold topological_sort. rewrite Hrun.
    destruct (Nat.eqb (length so) (length evs)); auto. }
  assert (Hok : forall order, topological_sort fuel evs = Some (inr order) ->
                              acyclic evs).
  { intros order Hsort.
    destruct (topological_sort_inr _ _ _ Hwf Hsort) as [Hperm [Hbefore _]].
    eapply sorted_registry_acyclic; eassumption. }
  assert (Hacyc : acyclic evs -> topological_sort fuel evs = Some (inr so)).
  { intros Hacyc.
    pose proof (topo_complete _ _ _ _ Hwf Hres Hacyc Hinv) as Hperm.
    unfold topological_sort. rewrite Hrun, (Permutation_length Hperm).
    unfold names. now rewrite length_map, Nat.eqb_refl. }
  split; split.
  - intros Herr Hacyc'. rewrite (Hacyc Hacyc') in Herr. discriminate.
  - intros Hcyc. destruct Hcases as [Hsort|Herr]; [|exact Herr].
    exfalso. apply Hcyc. eapply Hok. exact Hsort.
  - intros [order Hsort]. eapply Hok. exact Hsort.
  - intros Hacyc'. exists so. now apply Hacyc.
Qed.

Lemma cycle_error_iff_cyclic_witness :
  topological_sort 4 cycle_three = Some (inl (ValueError cycle_msg)) /\
  ~ acyclic cycle_three.
Proof.
  assert (Herr : topological_sort 4 cycle_three =
                 Some (inl (ValueError cycle_msg)))
    by (vm_compute; reflexivity).
  split; [exact Herr|].
  apply (cycle_error_iff_cyclic cycle_three 4).
  - apply registry_wfb_sound. reflexivity.
  - apply deps_resolvedb_sound. reflexivity.
  - simpl. lia.
  - exact Herr.
Defined.

(** ** Independence of the registration order *)

Lemma same_events_perm (evs1 evs2 : list Event) :
  registry_wf evs1 -> Permutation evs1 evs2 ->
  registry_wf evs2 /\ same_events evs1 evs2 /\
  Permutation (names evs1) (names evs2).
Proof.
  intros Hwf Hperm.
  assert (Hnames : Permutation (names evs1) (names evs2))
    by now apply Permutation_map.
  assert (Hwf2 : registry_wf evs2)
    by (eapply Permutation_NoDup; eassumption).
  split; [exact Hwf2|]. split; [|exact Hnames].
  intros n. destruct (events_find evs1 n) as [e|] eqn:H1.
  - apply events_find_some in H1. destruct H1 as [Hin <-].
    symmetry. apply events_find_in; [exact Hwf2|].
    eapply Permutation_in; eassumption.
  - symmetry. apply events_find_none. apply events_find_none in H1.
    intros Hin. apply H1. eapply Permutation_in; [symmetry|]; eassumption.
Qed.

Lemma events_get_same (evs1 evs2 : list Event) (n : string) :
  same_events evs1 evs2 -> events_get evs1 n = events_get evs2 n.
Proof. intros H. unfold events_get. now rewrite (H n). Qed.

Lemma deps_of_same (evs1 evs2 : list Event) (n : string) :
  same_events evs1 evs2 -> deps_of evs1 n = deps_of evs2 n.
Proof. intros H. unfold deps_of. now rewrite (H n). Qed.

Lemma keyed_same (evs1 evs2 : list Event) (l : list string) :
  same_events evs1 evs2 -> keyed evs1 l = keyed evs2 l.
Proof.
  intros H. induction l as [|n l IH]; simpl; [reflexivity|].
  now rewrite (events_get_same _ _ n H), IH.
Qed.

Lemma sorted_by_key_same (evs1 evs2 : list Event) (l : list string) :
  same_events evs1 evs2 -> sorted_by_key evs1 l = sorted_by_key evs2 l.
Proof. intros H. unfold sorted_by_key. now rewrite (keyed_same _ _ l H). Qed.

Lemma strongly_sorted_perm_eq {A : Type} (R : A -> A -> Prop) :
  (forall a, ~ R a a) -> (forall a b c, R a b -> R b c -> R a c) ->
  forall l1 l2,
    StronglySorted R l1 -> StronglySorted R l2 -> Permutation l1 l2 ->
    l1 = l2.
Proof.
  intros Hirr Htrans.
  induction l1 as [|a l1 IH]; intros l2 H1 H2 Hperm.
  - apply Permutation_nil in Hperm. now subst.
  - destruct l2 as [|b l2].
    + symmetry in Hperm. apply Permutation_nil in Hperm. discriminate.
    + inversion H1 as [|? ? H1' Ha]; subst.
      inversion H2 as [|? ? H2' Hb]; subst.
      rewrite Forall_forall in Ha, Hb.
      assert (Hab : a = b).
      { assert (Hina : In a (b :: l2))
          by (eapply Permutation_in; [exact Hperm|now left]).
        assert (Hinb : In b (a :: l1))
          by (eapply Permutation_in; [symmetry; exact Hperm|now left]).
        destruct Hina as [->|Hina]; [reflexivity|].
        destruct Hinb as [->|Hinb]; [reflexivity|].
        exfalso. apply (Hirr a). eapply Htrans; [apply Ha|apply Hb];
          assumption. }
      subst b. f_equal. apply IH; try assumption.
      eapply Permutation_cons_inv. exact Hperm.
Qed.

Lemma sorted_by_key_canon (evs : list Event) (l1 l2 : list string) :
  (forall n, In n l1 -> In n (names evs)) ->
  NoDup l1 -> Permutation l1 l2 ->
  sorted_by_key evs l1 = sorted_by_key evs l2.
Proof.
  intros Hreg Hnd Hperm.
  destruct (sorted_by_key_ok evs l1 Hreg) as [s1 [E1 [P1 S1]]].
  destruct (sorted_by_key_ok evs l2) as [s2 [E2 [P2 S2]]].
  { intros n Hn. apply Hreg. eapply Permutation_in; [symmetry|]; eassumption. }
  rewrite E1, E2. f_equal.
  apply (strongly_sorted_perm_eq (task_lt evs)).
  - apply task_lt_irrefl.
  - apply task_lt_trans.
  - now apply S1.
  - apply S2. exact (Permutation_NoDup Hperm Hnd).
  - rewrite P1, P2. exact Hperm.
Qed.

Lemma topo_round_level (evs : list Event) (adj : string -> list string)
    (deg deg' : string -> Z) (heap heap' : list (Z * string))
    (so so' level : list string) :
  topo_round evs adj deg heap so = inr (level, deg', so', heap') ->
  sorted_by_key evs (map snd heap) = inr level.
Proof.
  unfold topo_round.
  destruct (sorted_by_key evs (map snd heap)) as [err|lvl]; cbn [bind];
    [discriminate|].
  destruct (process_level adj lvl deg so []) as [[d s] nr].
  destruct (sorted_by_key evs nr) as [err|nrs]; cbn [bind]; [discriminate|].
  destruct (keyed evs nrs) as [err|ks]; cbn [bind]; [discriminate|].
  now intros [= <- _ _ _].
Qed.

Lemma heap_names_perm (so h1 h2 : list string) :
  NoDup (so ++ h1) -> NoDup (so ++ h2) ->
  (forall x, In x (so ++ h1) <-> In x (so ++ h2)) ->
  Permutation h1 h2.
Proof.
  intros N1 N2 Hiff.
  assert (Hdisj : forall h, NoDup (so ++ h) ->
                            forall x, In x h -> ~ In x so).
  { intros h Hnd x Hx Hso. apply in_split in Hso.
    destruct Hso as [l1 [l2 ->]]. rewrite <- app_assoc in Hnd. simpl in Hnd.
    apply NoDup_remove_2 in Hnd. apply Hnd. rewrite !in_app_iff. tauto. }
  apply NoDup_Permutation.
  - eapply NoDup_app_remove_l. exact N1.
  - eapply NoDup_app_remove_l. exact N2.
  - intros x. split; intros Hx.
    + assert (H : In x (so ++ h2))
        by (apply Hiff, in_app_iff; now right).
      apply in_app_iff in H. destruct H as [H|H]; [|exact H].
      exfalso. eapply (Hdisj h1); eassumption.
    + assert (H : In x (so ++ h1))
        by (apply Hiff, in_app_iff; now right).
      apply in_app_iff in H. destruct H as [H|H]; [|exact H].
      exfalso. eapply (Hdisj h2); eassumption.
Qed.

Lemma topo_loop_agree (evs1 evs2 : list Event)
    (adj1 adj2 : string -> list string) :
  same_events evs1 evs2 ->
  (forall x, In x (names evs1) <-> In x (names evs2)) ->
  (forall d y, count_occ string_dec (adj1 d) y =
               count_occ string_dec (deps_of evs1 y) d) ->
  (forall d y, count_occ string_dec (adj2 d) y =
               count_occ string_dec (deps_of evs2 y) d) ->
  forall fuel deg1 deg2 heap1 heap2 so batches,
    topo_inv evs1 deg1 heap1 so batches ->
    topo_inv evs2 deg2 heap2 so batches ->
    topo_loop fuel evs1 adj1 deg1 heap1 so batches =
    topo_loop fuel evs2 adj2 deg2 heap2 so batches.
Proof.
  intros Hsame Hnames Hadj1 Hadj2.
  assert (Hheaps : forall deg1 deg2 heap1 heap2 so batches,
             topo_inv evs1 deg1 heap1 so batches ->
             topo_inv evs2 deg2 heap2 so batches ->
             Permutation (map snd heap1) (map snd heap2)).
  { intros deg1 deg2 heap1 heap2 so batches I1 I2.
    apply (heap_names_perm so); [apply I1|apply I2|].
    intros x. rewrite (ti_zero _ _ _ _ _ I1), (ti_zero _ _ _ _ _ I2).
    rewrite (ti_deg _ _ _ _ _ I1), (ti_deg _ _ _ _ _ I2), Hnames.
    unfold pending. now rewrite (deps_of_same _ _ x Hsame). }
  induction fuel as [|fuel IH]; intros deg1 deg2 heap1 heap2 so batches I1 I2;
    pose proof (Hheaps _ _ _ _ _ _ I1 I2) as Hperm;
    destruct heap1 as [|k1 heap1], heap2 as [|k2 heap2];
    try reflexivity;
    try (apply Permutation_nil in Hperm; discriminate);
    try (symmetry in Hperm; apply Permutation_nil in Hperm; discriminate).
  cbn [topo_loop].
  destruct (topo_round_spec evs1 adj1 Hadj1 _ _ _ _ I1)
    as [l1 [d1 [so1 [h1 [E1 [I1' _]]]]]]; [discriminate|].
  destruct (topo_round_spec evs2 adj2 Hadj2 _ _ _ _ I2)
    as [l2 [d2 [so2 [h2 [E2 [I2' _]]]]]]; [discriminate|].
  rewrite E1, E2.
  assert (Hl : l1 = l2).
  { apply topo_round_level in E1, E2.
    rewrite (sorted_by_key_same _ _ _ Hsame) in E1.
    rewrite (sorted_by_key_canon evs2 (map snd (k1 :: heap1))
               (map snd (k2 :: heap2))) in E1; [congruence| | |exact Hperm].
    - intros n Hn. apply Hnames. apply (ti_zero _ _ _ _ _ I1).
      apply in_app_iff. now right.
    - eapply NoDup_app_remove_l. apply (ti_nodup _ _ _ _ _ I1). }
  subst l2.
  assert (Hso : so1 = so2).
  { rewrite (ti_concat _ _ _ _ _ I1'), (ti_concat _ _ _ _ _ I2').
    reflexivity. }
  subst so2. now apply IH.
Qed.

Lemma deps_resolved_same (evs1 evs2 : list Event) :
  same_events evs1 evs2 ->
  (forall x, In x (names evs1) <-> In x (names evs2)) ->
  deps_resolved evs1 -> deps_resolved evs2.
Proof.
  intros Hsame Hnames Hres b a [Hb Ha]. apply Hnames. apply (Hres b a).
  split; [now apply Hnames|]. now rewrite (deps_of_same _ _ b Hsame).
Qed.

Lemma topo_run_order_independent (evs1 evs2 : list Event) (fuel : nat) :
  registry_wf evs1 -> Permutation evs1 evs2 -> deps_resolved evs1 ->
  topo_run fuel evs1 = topo_run fuel evs2.
Proof.
  intros Hwf1 Hperm Hres1.
  destruct (same_events_perm _ _ Hwf1 Hperm) as [Hwf2 [Hsame Hpn]].
  assert (Hnames : forall x, In x (names evs1) <-> In x (names evs2)).
  { intros x. split; intros Hx; eapply Permutation_in; try eassumption.
    now symmetry. }
  pose proof (deps_resolved_same _ _ Hsame Hnames Hres1) as Hres2.
  unfold topo_run.
  destruct (build_graph_total evs1 evs1 empty_graph) as [g1 Hg1];
    [now apply deps_resolved_events|].
  destruct (build_graph_total evs2 evs2 empty_graph) as [g2 Hg2];
    [now apply deps_resolved_events|].
  rewrite Hg1, Hg2.
  destruct (topo_init_inv evs1 g1 Hwf1 Hg1) as [I1 A1].
  destruct (topo_init_inv evs2 g2 Hwf2 Hg2) as [I2 A2].
  exact (topo_loop_agree evs1 evs2 _ _ Hsame Hnames A1 A2 fuel _ _ _ _ _ _
           I1 I2).
Qed.

Lemma topological_sort_same_run (evs1 evs2 : list Event) (fuel : nat) :
  topo_run fuel evs1 = topo_run fuel evs2 ->
  length evs1 = length evs2 ->
  topological_sort fuel evs1 = topological_sort fuel evs2.
Proof. intros Hrun Hlen. unfold topological_sort. now rewrite Hrun, Hlen. Qed.

(** X12: [topological_sort] does not depend on the order in which the
    tasks were registered: two registries holding the same tasks, with
    every dependency name registered, give the same batches and the same
    result. *)
Theorem topological_sort_order_independent (evs1 evs2 : list Event)
    (fuel : nat) :
  registry_wf evs1 -> Permutation evs1 evs2 -> deps_resolved evs1 ->
  topo_run fuel evs1 = topo_run fuel evs2 /\
  topological_sort fuel evs1 = topological_sort fuel evs2.
Proof.
  intros Hwf Hperm Hres.
  pose proof (topo_run_order_independent _ _ fuel Hwf Hperm Hres) as Hrun.
  split; [exact Hrun|].
  apply topological_sort_same_run; [exact Hrun|].
  now apply Permutation_length.
Qed.

Lemma topological_sort_order_independent_witness :
  Permutation (events scenario) (events scenario_shuffled) /\
  topological_sort 4 (events scenario) =
    topological_sort 4 (events scenario_shuffled).
Proof.
  assert (Hperm : Permutation (events scenario) (events scenario_shuffled)).
  { simpl. apply Permutation_rev. }
  split; [exact Hperm|].
  apply (topological_sort_order_independent (events scenario)
           (events scenario_shuffled) 4).
  - apply registry_wfb_sound. reflexivity.
  - exact Hperm.
  - apply deps_resolvedb_sound. reflexivity.
Defined.

Section SameEvents.
Variables evs1 evs2 : list Event.
Hypothesis Hsame : same_events evs1 evs2.

Lemma init_queues_same (l : list string) :
  forall ready wait,
    init_queues evs1 l ready wait = init_queues evs2 l ready wait.
Proof.
  induction l as [|n l IH]; intros ready wait; simpl; [reflexivity|].
  rewrite (events_get_same _ _ n Hsame).
  destruct (events_get evs2 n) as [err|event]; simpl; [reflexivity|].
  destruct (dependencies event); apply IH.
Qed.

Lemma release_same (c : string) (wait : list (string * list string)) :
  forall ready, release evs1 c wait ready = release evs2 c wait ready.
Proof.
  induction wait as [|[w deps] wait IH]; intros ready; simpl; [reflexivity|].
  destruct (set_mem c deps); [|now rewrite IH].
  destruct (set_remove c deps); [|now rewrite IH].
  rewrite (events_get_same _ _ w Hsame).
  destruct (events_get evs2 w); simpl; [reflexivity|apply IH].
Qed.

Lemma complete_same (now : Z) (active : list (Z * string * Z)) :
  forall ares done wait ready,
    complete evs1 now active ares done wait ready =
    complete evs2 now active ares done wait ready.
Proof.
  induction active as [|[[e c] r] active IH]; intros ares done wait ready;
    simpl; [reflexivity|].
  destruct (e =? now); [|reflexivity].
  rewrite release_same.
  destruct (release evs2 c wait ready) as [err|[wait' ready']]; simpl;
    [reflexivity|apply IH].
Qed.

Lemma admission_same (total now : Z) (ready : list (Z * string)) :
  forall sch ares active temp flag,
    admission evs1 total now ready sch ares active temp flag =
    admission evs2 total now ready sch ares active temp flag.
Proof.
  induction ready as [|[prio n] ready IH]; intros sch ares active temp flag;
    cbn [admission]; [reflexivity|].
  rewrite (events_get_same _ _ n Hsame).
  destruct (events_get evs2 n) as [err|event]; cbn [lift_at bind];
    [reflexivity|].
  destruct (ares + resources_required event <=? total); [|apply IH].
  destruct (dep_end_times sch (dependencies event)); cbn [lift_at bind];
    [reflexivity|].
  apply IH.
Qed.

Lemma sim_step_same (total : Z) (s : Sim) :
  sim_step evs1 total s = sim_step evs2 total s.
Proof.
  unfold sim_step. rewrite complete_same.
  destruct (complete evs2 (current_time s) (active_events s)
              (active_resources s) (scheduled s) (waiting s) (ready_queue s))
    as [err|[[[[act ares] done] wait] ready]]; cbn [lift_at bind];
    [reflexivity|].
  now rewrite admission_same.
Qed.

Lemma sim_loop_same (total : Z) :
  forall fuel s, sim_loop fuel evs1 total s = sim_loop fuel evs2 total s.
Proof.
  induction fuel as [|fuel IH]; intros s; cbn [sim_loop]; [reflexivity|].
  rewrite sim_step_same.
  destruct (sim_running s); [|reflexivity].
  destruct (sim_step evs2 total s) as [err|[[|] s']]; auto.
Qed.
End SameEvents.

(** X13: the schedule that [schedule_events] returns, or the error it
    raises, does not depend on the order in which the tasks were
    registered, as long as every dependency name is registered. *)
Theorem schedule_order_independent (s1 s2 : EventScheduler) (fuel : nat) :
  registry_wf (events s1) ->
  Permutation (events s1) (events s2) ->
  deps_resolved (events s1) ->
  total_resources s1 = total_resources s2 ->
  option_map snd (schedule_events fuel s1) =
  option_map snd (schedule_events fuel s2).
Proof.
  intros Hwf Hperm Hres Htot.
  destruct (same_events_perm _ _ Hwf Hperm) as [_ [Hsame _]].
  unfold schedule_events.
  rewrite <- (topological_sort_same_run _ _ fuel
                (topo_run_order_independent _ _ fuel Hwf Hperm Hres)
                (Permutation_length Hperm)).
  destruct (topological_sort fuel (events s1)) as [[err|order]|];
    try reflexivity.
  rewrite <- (init_queues_same _ _ Hsame), <- Htot.
  destruct (init_queues (events s1) order [] []) as [err|[ready wait]];
    [reflexivity|].
  rewrite <- (sim_loop_same _ _ Hsame).
  destruct (sim_loop fuel (events s1) (total_resources s1)
              (mkSim [] [] ready wait 0 0 [])) as [[[e sch]|sch]|];
    reflexivity.
Qed.

Lemma schedule_order_independent_witness :
  Permutation (events scenario) (events scenario_shuffled) /\
  option_map snd (schedule_events 4 scenario) =
    option_map snd (schedule_events 4 scenario_shuffled).
Proof.
  assert (Hperm : Permutation (events scenario) (events scenario_shuffled)).
  { simpl. apply Permutation_rev. }
  split; [exact Hperm|].
  apply (schedule_order_independent scenario scenario_shuffled 4).
  - apply registry_wfb_sound. reflexivity.
  - exact Hperm.
  - apply deps_resolvedb_sound. reflexivity.
  - reflexivity.
Defined.

(** ** Saving and loading *)

Lemma add_event_fresh (evs : list Event) (e : Event) :
  ~ In (name e) (names evs) -> add_event evs e = evs ++ [e].
Proof.
  unfold names. induction evs as [|e' evs IH]; simpl; intros Hnot;
    [reflexivity|].
  destruct (String.eqb (name e') (name e)) eqn:Heq.
  - apply String.eqb_eq in Heq. tauto.
  - rewrite IH by tauto. reflexivity.
Qed.

Lemma task_of_data_of_event (e : Event) :
  task_of_data (data_of_event e) = inr e.
Proof. now destruct e. Qed.

Lemma load_saved_tasks (l : list Event) :
  forall acc,
    NoDup (names (acc ++ l)) ->
    load_tasks_loop (map data_of_event l) acc = (acc ++ l, None).
Proof.
  induction l as [|e l IH]; intros acc Hnd; cbn [map load_tasks_loop].
  - now rewrite app_nil_r.
  - rewrite task_of_data_of_event.
    assert (Hfresh : ~ In (name e) (names acc)).
    { unfold names in *. rewrite map_app in Hnd. simpl in Hnd.
      apply NoDup_remove_2 in Hnd. rewrite in_app_iff in Hnd. tauto. }
    rewrite (add_event_fresh _ _ Hfresh), IH.
    + now rewrite <- app_assoc.
    + now rewrite <- app_assoc.
Qed.

(** X14: loading what [save_tasks_to_json] produced, into a scheduler
    whose registry is empty or is cleared on request, raises nothing and
    restores the saved registry, task for task and in the same order, and
    the saved pool; the schedule is emptied when the registry was
    cleared. *)
Theorem save_load_round_trip (s t : EventScheduler) (clear : bool) :
  registry_wf (events s) ->
  events t = [] \/ clear = true ->
  load_tasks_from_json clear (save_tasks_to_json s) t =
    (mkScheduler (total_resources s) (events s)
       (match events t with [] => schedule t | _ :: _ => [] end),
     None).
Proof.
  intros Hwf Hempty. unfold load_tasks_from_json, save_tasks_to_json.
  cbn [fd_tasks fd_total_resources].
  assert (Hloop : load_tasks_loop (map data_of_event (events s)) [] =
                  (events s, None))
    by (apply (load_saved_tasks (events s) []); exact Hwf).
  destruct (events t) as [|e0 evs0] eqn:Ht.
  - rewrite Ht, Hloop. reflexivity.
  - destruct Hempty as [Hnil| ->]; [discriminate|].
    cbn [events]. rewrite Hloop. reflexivity.
Qed.

Lemma save_load_round_trip_witness :
  load_tasks_from_json true (save_tasks_to_json scenario)
    (set_schedule deadline_demo deadline_demo_schedule) =
    (mkScheduler 2 (events scenario) [], None).
Proof.
  apply (save_load_round_trip scenario
           (set_schedule deadline_demo deadline_demo_schedule) true).
  - apply registry_wfb_sound. reflexivity.
  - now right.
Defined.

Lemma load_tasks_loop_app (pre post : list TaskData) :
  forall evs evs',
    load_tasks_loop pre evs = (evs', None) ->
    load_tasks_loop (pre ++ post) evs = load_tasks_loop post evs'.
Proof.
  induction pre as [|td pre IH]; intros evs evs'; simpl.
  - now intros [= ->].
  - destruct (task_of_data td); [discriminate|]. apply IH.
Qed.

(** X15: a task entry without [name] or [duration] stops the load,
    whatever the answer to the prompt was: the entries before it are
    registered on top of the registry that the prompt left, the entries
    after it are not read, the [KeyError] is reported, and
    [total_resources] keeps its old value even if the file carries one. *)
Theorem load_stops_at_bad_entry (s : EventScheduler) (clear : bool)
    (total : option Z) (pre post : list TaskData) (bad : TaskData)
    (evs : list Event) (err : exn) :
  load_tasks_loop pre (events (after_clear_prompt clear s)) = (evs, None) ->
  task_of_data bad = inl err ->
  load_tasks_from_json clear (mkFileData total (Some (pre ++ bad :: post))) s =
    (mkScheduler (total_resources s) evs
       (schedule (after_clear_prompt clear s)),
     Some err) /\
  (err = KeyError "name" \/ err = KeyError "duration").
Proof.
  intros Hpre Hbad. split.
  - unfold load_tasks_from_json. cbn [fd_tasks fd_total_resources].
    change (match events s with
            | [] => s
            | _ :: _ => if clear then mkScheduler (total_resources s) [] []
                        else s
            end) with (after_clear_prompt clear s).
    rewrite (load_tasks_loop_app _ _ _ _ Hpre). cbn [load_tasks_loop].
    rewrite Hbad. f_equal. f_equal.
    unfold after_clear_prompt. destruct (events s); [reflexivity|].
    now destruct clear.
  - unfold task_of_data in Hbad.
    destruct (td_name bad); [|injection Hbad as <-; now left].
    destruct (td_duration bad); [discriminate|].
    injection Hbad as <-. now right.
Qed.

Lemma load_stops_at_bad_entry_witness :
  load_tasks_from_json true
    (mkFileData (Some 9)
       (Some ([data_of_event task_A] ++
              mkTaskData (Some "B") None None None None None ::
              [data_of_event task_C])))
    (set_schedule deadline_demo deadline_demo_schedule) =
    (mkScheduler 1 [task_A] [], Some (KeyError "duration")) /\
  (KeyError "duration" = KeyError "name" \/
   KeyError "duration" = KeyError "duration").
Proof.
  apply (load_stops_at_bad_entry
           (set_schedule deadline_demo deadline_demo_schedule) true (Some 9)
           [data_of_event task_A] [data_of_event task_C]
           (mkTaskData (Some "B") None None None None None)
           [task_A] (KeyError "duration")).
  - reflexivity.
  - reflexivity.
Defined.

(** ** A stale schedule entry *)

(** X16: if the stored schedule names a task that is not registered,
    [check_deadlines] raises [KeyError] for the first such name and reports
    nothing, whatever the entries before it would have yielded. *)
Theorem check_deadlines_stale_entry (s : EventScheduler)
    (before after : Schedule) (n : string) (iv : Z * Z) :
  schedule s = before ++ (n, iv) :: after ->
  (forall m, In m (map fst before) -> In m (names (events s))) ->
  ~ In n (names (events s)) ->
  check_deadlines s = inl (KeyError n).
Proof.
  intros Hsch Hreg Hnot. unfold check_deadlines. rewrite Hsch. clear Hsch.
  generalize (@nil (string * Z * Z)).
  induction before as [|[m [st e]] before IH]; intros acc.
  - simpl. destruct iv as [st e]. unfold events_get.
    apply events_find_none in Hnot. now rewrite Hnot.
  - simpl.
    destruct (events_get_registered (events s) m) as [ev [Hget _]];
      [apply Hreg; now left|].
    rewrite Hget. cbn [bind].
    assert (Hreg' : forall m', In m' (map fst before) ->
                               In m' (names (events s)))
      by (intros; apply Hreg; now right).
    destruct ((deadline ev >? 0) && (e >? deadline ev))%bool;
      now apply IH.
Qed.

Lemma check_deadlines_stale_entry_witness :
  check_deadlines stale_entry = inl (KeyError "gone").
Proof.
  apply (check_deadlines_stale_entry stale_entry [("A", (0, 5))]
           [] "gone" (5, 6)).
  - reflexivity.
  - simpl. intros m [<-|[]]. now left.
  - simpl. intros [H|[]]. discriminate.
Defined.
